(** * Watermark removal service: detection and inpainting

    A shallow embedding of [src/services/watermark/removalService.ts]
    (class [WatermarkRemovalService]) and the properties of its three
    algorithms: the block detector [detectWatermarks], the inpainter
    [inpaintRegion] with its box blur [gaussianBlur], and the driver loop of
    [removeWatermark].

    Conventions of the embedding.
    - A JavaScript number that holds an integer (a coordinate, a counter, a
      byte read from a typed array, a sum of bytes) is a [Z]; all of them stay
      far below 2^53, where doubles are exact.  A number that can be [NaN]
      (arithmetic on an out-of-range typed-array read, which yields
      [undefined]) is an [option], [None] being [NaN].
    - A number that need not be an integer is a rational [Q], the exact
      value of a double.  Where the source rounds and the rounding can
      change what follows, the embedding rounds as well, with [Double.fl],
      the nearest double (53 bits, ties to even): in the products floored
      at lines 41-44 and 161, in the progress of line 51, and in the
      differences and the test of the mouse handlers.  The quotients of the
      fill, the blur and the detector are exact: only the bytes stored for
      them and the answers of the comparisons are used.  The bytes are
      those of the rounded quotients ([ToUint8Clamp_on_doubles]), and the
      part "Doubles and rationals" computes the comparisons on the doubles
      of the kernel and finds the same answers.  The fields of a selection
      are rounded where they are used, so that a selection can be given by
      the doubles it holds or by the quotients they stand for.
    - [Uint8ClampedArray] is a [list Z]; reads out of range give [undefined],
      writes out of range are ignored, stored values go through
      [ToUint8Clamp] (clamp to 0..255, round half to even).
    - The 2D canvas is its width, its height and the RGBA value of every
      pixel; [getImageData] and [putImageData] follow the HTML standard
      (straight, non-premultiplied colour values).
    - [Math.random] is an oracle: its k-th call returns [random k], a
      double of [[0, 1)] ([unitRandom]).
    - [for] loops are [for_loop], which carries the loop test and the
      increment of the source and an iteration budget that the lemmas below
      show to be sufficient.
    - The callers of the service are embedded after it: the store of the
      application ([useWatermarkStore]), the mouse handlers of the component
      MediaPreview and the click handlers of the component WatermarkRemover.
      A handler is a function on the state it reads and writes; what the
      browser answers during a call of the service (the decoded image, the
      canvas context, the blob) is a record. *)

From Stdlib Require Import PrimInt63 PrimFloat.
From Stdlib Require FloatOps SpecFloat.
From stdpp Require Import base list.
From Stdlib Require Import ZArith QArith Qround Qpower Lqa Lia List Bool Permutation Sorted.
Import ListNotations.
Local Open Scope Z_scope.

(** ** Numbers *)

Module Num.

(** An integer-valued number or [NaN]. *)
Definition int : Type := option Z.
(** A rational-valued number or [NaN]. *)
Definition number : Type := option Q.

Definition add (a b : int) : int :=
  match a, b with
  | Some x, Some y => Some (x + y)
  | _, _ => None
  end.

(** [a / k].  The divisors of the source are the constant 3, the constant
    5 and the neighbour count of the blur; when that count is 0 nothing was
    accumulated and the quotient is 0/0, that is [NaN]. *)
Definition div (a : int) (k : Z) : number :=
  match a with
  | Some x => if k =? 0 then None else Some (inject_Z x / inject_Z k)%Q
  | None => None
  end.

Definition Qltb (a b : Q) : bool := Qnum a * QDen b <? Qnum b * QDen a.

(** Comparisons with [NaN] are false. *)
Definition ilt (a : int) (k : Z) : bool :=
  match a with Some x => x <? k | None => false end.
Definition lt (a : number) (q : Q) : bool :=
  match a with Some x => Qltb x q | None => false end.
Definition gt (a : number) (q : Q) : bool :=
  match a with Some x => Qltb q x | None => false end.

(** Round to the nearest integer, ties to the even one. *)
Definition round_half_even (q : Q) : Z :=
  let f := Qfloor q in
  match (q - inject_Z f ?= 1 # 2)%Q with
  | Lt => f
  | Gt => f + 1
  | Eq => if Z.even f then f else f + 1
  end.

(** The conversion applied by a store into a [Uint8ClampedArray]. *)
Definition ToUint8Clamp (v : number) : Z :=
  match v with
  | None => 0
  | Some q => Z.max 0 (Z.min 255 (round_half_even q))
  end.

End Num.

(** ** Doubles *)

(** A JavaScript number that is not an integer of the program is an IEEE
    binary64 double.  The embedding holds its exact value, a rational, and
    rounds where the source computes: [fl q] is the double nearest to [q],
    ties to the even significand.  The significand has 53 bits; the range
    of the exponent is not modelled, the numbers of this program
    (coordinates, quotients of pixel counts, percentages) being far from
    overflow and from the subnormal numbers. *)
Module Double.

(** [floor (log2 q)] for [q > 0]. *)
Definition ilog2 (q : Q) : Z :=
  let k := Z.log2 (Qnum q) - Z.log2 (QDen q) in
  if Num.Qltb q (2 ^ k)%Q then k - 1 else k.

(** The double nearest to [q > 0]: the significand [q / 2^e] rounded to an
    integer of 53 bits. *)
Definition flpos (q : Q) : Q :=
  let e := ilog2 q - 52 in
  (inject_Z (Num.round_half_even (q / 2 ^ e)) * 2 ^ e)%Q.

Definition fl (q : Q) : Q :=
  match (q ?= 0)%Q with
  | Eq => 0%Q
  | Gt => flpos q
  | Lt => (- flpos (- q))%Q
  end.

(** [q] is the value of a double. *)
Definition isDouble (q : Q) : Prop := (fl q == q)%Q.

(** The relative error of a rounding is at most [2^-53]. *)
Definition eps : Q := (1 # 9007199254740992)%Q.

End Double.

(** [Math.floor(v * size)] for a number [v] and an integer [size]: the
    number is held as a double, the product is rounded, and the rounded
    product is floored. *)
Definition floorTimes (v : Q) (size : Z) : Z :=
  Qfloor (Double.fl (Double.fl v * inject_Z size)).

(** ** Typed arrays *)

Definition Uint8ClampedArray : Type := list Z.

(** [data.length] *)
Definition dataLength (data : Uint8ClampedArray) : Z := Z.of_nat (length data).

(** [data[i]] *)
Definition rd (data : Uint8ClampedArray) (i : Z) : Num.int :=
  if i <? 0 then None else data !! Z.to_nat i.

(** [data[i] = v] *)
Definition wr (data : Uint8ClampedArray) (i : Z) (v : Num.number) : Uint8ClampedArray :=
  if i <? 0 then data else <[Z.to_nat i := Num.ToUint8Clamp v]> data.

(** The four stores of one pixel, as the fill loops and the blur make them:
    [data[idx] = val 0; ...; data[idx + 3] = val 3]. *)
Definition store4 (data : Uint8ClampedArray) (idx : Z) (val : Z -> Num.number) : Uint8ClampedArray :=
  wr (wr (wr (wr data idx (val 0)) (idx + 1) (val 1)) (idx + 2) (val 2)) (idx + 3) (val 3).

(** A loop over [l] that stores the pixel [val a] at [idx a]. *)
Definition storeLoop {A : Type} (idx : A -> Z) (val : A -> Z -> Num.number)
    (l : list A) (data : Uint8ClampedArray) : Uint8ClampedArray :=
  fold_left (fun d a => store4 d (idx a) (val a)) l data.

(** ** Loops *)

(** [for (let i = start; cond(i); i += step) s = body(i, s)], unrolled at
    most [fuel] times. *)
Fixpoint for_loop {St : Type} (fuel : nat) (cond : Z -> bool) (step : Z)
    (body : Z -> St -> St) (i : Z) (s : St) : St :=
  match fuel with
  | O => s
  | S fuel' =>
      if cond i then for_loop fuel' cond step body (i + step) (body i s) else s
  end.

(** [for (let i = lo; i < hi; i += step)] with [step >= 1]: [hi - lo]
    iterations are enough. *)
Definition For {St : Type} (lo hi step : Z) (body : Z -> St -> St) (s : St) : St :=
  for_loop (Z.to_nat (hi - lo)) (fun i => i <? hi) step body lo s.

(** The values the loop variable takes: [lo, lo + step, ...], [n] of them. *)
Definition steps (lo step : Z) (n : nat) : list Z :=
  map (fun j => lo + Z.of_nat j * step) (seq 0 n).

(** The integers of [[lo, hi)]. *)
Definition zrange (lo hi : Z) : list Z := steps lo 1 (Z.to_nat (hi - lo)).

(** Folding a loop body over the values of its variable. *)
Definition iterate {St : Type} (body : Z -> St -> St) (l : list Z) (s : St) : St :=
  fold_left (fun s i => body i s) l s.

(** The pairs [(a, b)], [a] from the outer loop and [b] from the inner one, in
    the order a nest of two loops visits them. *)
Definition nest (outer inner : list Z) : list (Z * Z) :=
  flat_map (fun a => map (fun b => (a, b)) inner) outer.

(** ** The canvas *)

Record rgba : Type := RGBA { red : Z; green : Z; blue : Z; alpha : Z }.

Definition transparentBlack : rgba := RGBA 0 0 0 0.
Definition opaqueWhite : rgba := RGBA 255 255 255 255.

(** The bitmap of a [<canvas>] element behind its 2D context. *)
Record Canvas : Type := {
  cv_width : Z;
  cv_height : Z;
  cv_pixel : Z -> Z -> rgba
}.

Definition inCanvas (c : Canvas) (px py : Z) : bool :=
  (0 <=? px) && (px <? cv_width c) && (0 <=? py) && (py <? cv_height c).

(** The colour at [(px, py)]; outside the bitmap it is transparent black. *)
Definition canvasPixel (c : Canvas) (px py : Z) : rgba :=
  if inCanvas c px py then cv_pixel c px py else transparentBlack.

Record ImageData : Type := {
  id_width : Z;
  id_height : Z;
  id_data : Uint8ClampedArray
}.

(** The only exception the canvas calls of this service can raise. *)
Inductive DOMException : Type := IndexSizeError.

Definition channels (p : rgba) : list Z := [red p; green p; blue p; alpha p].

(** [ctx.getImageData(sx, sy, sw, sh)]: throws when [sw] or [sh] is 0; the
    source rectangle has corners [(sx, sy)] and [(sx+sw, sy+sh)], whatever
    the signs; rows top to bottom, pixels left to right, four bytes each. *)
Definition getImageData (c : Canvas) (sx sy sw sh : Z) : DOMException + ImageData :=
  if (sw =? 0) || (sh =? 0) then inl IndexSizeError
  else
    let x0 := sx + Z.min 0 sw in
    let y0 := sy + Z.min 0 sh in
    let w := Z.abs sw in
    let h := Z.abs sh in
    inr {| id_width := w;
           id_height := h;
           id_data := flat_map (fun p => channels (canvasPixel c (snd p) (fst p)))
                        (nest (zrange y0 (y0 + h)) (zrange x0 (x0 + w))) |}.

Definition byteAt (data : Uint8ClampedArray) (i : Z) : Z :=
  match rd data i with Some v => v | None => 0 end.

(** The pixel of column [ix], row [iy] of an [ImageData]. *)
Definition imagePixel (img : ImageData) (ix iy : Z) : rgba :=
  let idx := (iy * id_width img + ix) * 4 in
  RGBA (byteAt (id_data img) idx) (byteAt (id_data img) (idx + 1))
       (byteAt (id_data img) (idx + 2)) (byteAt (id_data img) (idx + 3)).

Definition inRect (x y w h px py : Z) : bool :=
  (x <=? px) && (px <? x + w) && (y <=? py) && (py <? y + h).

(** [ctx.putImageData(img, dx, dy)]: the pixels of [img] replace those of
    the bitmap in the rectangle at [(dx, dy)]; the part of the rectangle
    outside the bitmap is dropped. *)
Definition putImageData (c : Canvas) (img : ImageData) (dx dy : Z) : Canvas :=
  {| cv_width := cv_width c;
     cv_height := cv_height c;
     cv_pixel := fun px py =>
       if inRect dx dy (id_width img) (id_height img) px py
       then imagePixel img (px - dx) (py - dy)
       else cv_pixel c px py |}.

(** ** gaussianBlur (lines 184-220) *)

(** The accumulators [r, g, b, a, count]. *)
Definition BlurAcc : Type := (Num.int * Num.int * Num.int * Num.int * Z)%type.

(** Body of the [dx] loop, lines 199-209. *)
Definition blurTap (tempData : Uint8ClampedArray) (width height x y dy dx : Z)
    (acc : BlurAcc) : BlurAcc :=
  let '(r, g, b, a, count) := acc in
  let nx := x + dx in
  let ny := y + dy in
  if (0 <=? nx) && (nx <? width) && (0 <=? ny) && (ny <? height) then
    let idx := (ny * width + nx) * 4 in
    (Num.add r (rd tempData idx), Num.add g (rd tempData (idx + 1)),
     Num.add b (rd tempData (idx + 2)), Num.add a (rd tempData (idx + 3)),
     count + 1)
  else acc.

(** Lines 195-211: the sums over the kernel around [(x, y)]. *)
Definition blurSums (tempData : Uint8ClampedArray) (width height radius x y : Z) : BlurAcc :=
  for_loop (Z.to_nat (2 * radius + 1)) (fun dy => dy <=? radius) 1
    (fun dy =>
       for_loop (Z.to_nat (2 * radius + 1)) (fun dx => dx <=? radius) 1
         (blurTap tempData width height x y dy) (- radius))
    (- radius) (Some 0, Some 0, Some 0, Some 0, 0).

(** Body of the [x] loop, lines 195-217. *)
Definition blurPixel (tempData : Uint8ClampedArray) (width height radius y x : Z)
    (data : Uint8ClampedArray) : Uint8ClampedArray :=
  let '(r, g, b, a, count) := blurSums tempData width height radius x y in
  let idx := (y * width + x) * 4 in
  let data := wr data idx (Num.div r count) in
  let data := wr data (idx + 1) (Num.div g count) in
  let data := wr data (idx + 2) (Num.div b count) in
  wr data (idx + 3) (Num.div a count).

Definition gaussianBlur (data : Uint8ClampedArray) (width height radius : Z) : Uint8ClampedArray :=
  let tempData := data in
  For 0 height 1
    (fun y => For 0 width 1 (blurPixel tempData width height radius y))
    data.

(** ** inpaintRegion (lines 81-179) *)

Definition sampleRadiusOf (width height : Z) : Z :=
  Z.min 20 (Z.min width height / 4).

(** Body of the four sampling loops: lines 100-105, 112-117, 124-129 and
    136-141 are the same text. *)
Definition samplePixel (c : Canvas) (x y i j : Z) (surroundingPixels : list rgba) : list rgba :=
  let px := x + i in
  let py := y + j in
  if (0 <=? px) && (px <? cv_width c) && (0 <=? py) && (py <? cv_height c)
  then surroundingPixels ++ [canvasPixel c px py]
  else surroundingPixels.

(** Lines 95-143. *)
Definition surroundingPixelsOf (c : Canvas) (x y width height : Z) : list rgba :=
  let sampleRadius := sampleRadiusOf width height in
  let pool := [] in
  let pool :=
    For (- sampleRadius) (width + sampleRadius) 1
      (fun i => For (- sampleRadius) 0 1 (samplePixel c x y i)) pool in
  let pool :=
    For (- sampleRadius) (width + sampleRadius) 1
      (fun i => For height (height + sampleRadius) 1 (samplePixel c x y i)) pool in
  let pool :=
    For (- sampleRadius) 0 1
      (fun i => For 0 height 1 (samplePixel c x y i)) pool in
  For width (width + sampleRadius) 1
    (fun i => For 0 height 1 (samplePixel c x y i)) pool.

(** Lines 147-152. *)
Definition fillWhite (data : Uint8ClampedArray) : Uint8ClampedArray :=
  For 0 (dataLength data) 4
    (fun i data =>
       let data := wr data i (Some 255%Q) in
       let data := wr data (i + 1) (Some 255%Q) in
       let data := wr data (i + 2) (Some 255%Q) in
       wr data (i + 3) (Some 255%Q))
    data.

Definition samples : Z := 5.

(** [Math.floor(Math.random() * n)], for the k-th call of [Math.random]:
    the floor of the rounded product. *)
Definition randomIndex (random : nat -> Q) (k : nat) (n : nat) : Z :=
  floorTimes (random k) (Z.of_nat n).

(** Body of the [s] loop, lines 161-165, on the sums [r, g, b, a] and the
    number of calls of [Math.random] made so far.  The index is in range
    whenever [0 <= random k < 1] (lemma [randomIndex_range]), so the default
    of [nth] is never returned. *)
Definition drawSample (random : nat -> Q) (surroundingPixels : list rgba) (s : Z)
    (st : Z * Z * Z * Z * nat) : Z * Z * Z * Z * nat :=
  let '(r, g, b, a, k) := st in
  let randomPixel :=
    nth (Z.to_nat (randomIndex random k (length surroundingPixels)))
        surroundingPixels transparentBlack in
  (r + red randomPixel, g + green randomPixel, b + blue randomPixel,
   a + alpha randomPixel, S k).

(** Lines 158-166: the sums of the five samples of one pixel, drawn with the
    calls [k], ..., [k + 4] of [Math.random]. *)
Definition drawSums (random : nat -> Q) (surroundingPixels : list rgba) (k : nat) :
    Z * Z * Z * Z * nat :=
  For 0 samples 1 (drawSample random surroundingPixels) (0, 0, 0, 0, k).

(** Body of the fill loop, lines 157-171. *)
Definition fillPixel (random : nat -> Q) (surroundingPixels : list rgba) (i : Z)
    (st : Uint8ClampedArray * nat) : Uint8ClampedArray * nat :=
  let '(data, k) := st in
  let '(r, g, b, a, k') := drawSums random surroundingPixels k in
  let data := wr data i (Num.div (Some r) samples) in
  let data := wr data (i + 1) (Num.div (Some g) samples) in
  let data := wr data (i + 2) (Num.div (Some b) samples) in
  (wr data (i + 3) (Num.div (Some a) samples), k').

(** Lines 155-172. *)
Definition fillRandom (random : nat -> Q) (surroundingPixels : list rgba)
    (data : Uint8ClampedArray) (k : nat) : Uint8ClampedArray * nat :=
  For 0 (dataLength data) 4 (fillPixel random surroundingPixels) (data, k).

(** The block that [inpaintRegion] writes back, and the number of calls of
    [Math.random] after it: lines 92-176. *)
Definition inpaintData (random : nat -> Q) (c : Canvas) (k : nat)
    (x y width height : Z) (data : Uint8ClampedArray) : Uint8ClampedArray * nat :=
  let surroundingPixels := surroundingPixelsOf c x y width height in
  if (length surroundingPixels =? 0)%nat then (fillWhite data, k)
  else
    let '(data, k') := fillRandom random surroundingPixels data k in
    (gaussianBlur data width height 2, k').

(** The canvas is changed in place, so it is part of the state, with the
    number of calls of [Math.random] made so far.  [getImageData] is the
    first statement: when it throws, nothing has been changed. *)
Definition inpaintRegion (random : nat -> Q) (c : Canvas) (k : nat)
    (x y width height : Z) : DOMException + Canvas * nat :=
  match getImageData c x y width height with
  | inl e => inl e
  | inr imageData =>
      let '(data, k') := inpaintData random c k x y width height (id_data imageData) in
      inr (putImageData c
             {| id_width := id_width imageData;
                id_height := id_height imageData;
                id_data := data |} x y,
           k')
  end.

(** ** removeWatermark (lines 12-75) *)

Inductive SelectionType : Type := manual | auto.

(** [types/watermark.ts]: coordinates relative to the image size. *)
Record WatermarkSelection : Type := {
  sel_x : Q;
  sel_y : Q;
  sel_width : Q;
  sel_height : Q;
  sel_type : SelectionType
}.

(** Lines 41-44. *)
Definition pixelX (c : Canvas) (s : WatermarkSelection) : Z :=
  floorTimes (sel_x s) (cv_width c).
Definition pixelY (c : Canvas) (s : WatermarkSelection) : Z :=
  floorTimes (sel_y s) (cv_height c).
Definition pixelWidth (c : Canvas) (s : WatermarkSelection) : Z :=
  floorTimes (sel_width s) (cv_width c).
Definition pixelHeight (c : Canvas) (s : WatermarkSelection) : Z :=
  floorTimes (sel_height s) (cv_height c).

(** Lines 38-47: one selection, from relative to pixel coordinates, then
    inpainted. *)
Definition inpaintSelection (random : nat -> Q) (c : Canvas) (k : nat)
    (selection : WatermarkSelection) : DOMException + Canvas * nat :=
  let x := pixelX c selection in
  let y := pixelY c selection in
  let width := pixelWidth c selection in
  let height := pixelHeight c selection in
  inpaintRegion random c k x y width height.

(** What a run of [removeWatermark] has done so far: the canvas, the calls
    of [Math.random], and the values handed to [onProgress], oldest first. *)
Record Run : Type := {
  run_canvas : Canvas;
  run_calls : nat;
  run_progress : list Q
}.

(** Line 51. *)
Definition progressValue (i total : Z) : Q :=
  Double.fl (Double.fl (inject_Z (i + 1) / inject_Z total) * 100).

(** The loop of lines 37-53 from index [i] on, [rest] being
    [selections[i..]].  [onProgress] tells whether the caller passed a
    callback.  An exception leaves the loop (line 64) with the canvas as the
    earlier selections left it. *)
Fixpoint processSelections (random : nat -> Q) (onProgress : bool) (total i : Z)
    (rest : list WatermarkSelection) (st : Run) : Run * option DOMException :=
  match rest with
  | [] => (st, None)
  | selection :: rest' =>
      match inpaintSelection random (run_canvas st) (run_calls st) selection with
      | inl e => (st, Some e)
      | inr (c', k') =>
          processSelections random onProgress total (i + 1) rest'
            {| run_canvas := c';
               run_calls := k';
               run_progress :=
                 if onProgress then run_progress st ++ [progressValue i total]
                 else run_progress st |}
      end
  end.

(** The image is drawn on a canvas of its size (line 34); [Some e] is
    [reject(e)], [None] is the way to [canvas.toBlob]. *)
Definition removeWatermark (random : nat -> Q) (img : Canvas)
    (selections : list WatermarkSelection) (onProgress : bool) : Run * option DOMException :=
  processSelections random onProgress (Z.of_nat (length selections)) 0 selections
    {| run_canvas := img; run_calls := O; run_progress := [] |}.

(** ** detectWatermarks (lines 226-295) *)

Definition gridSize : Z := 32.

(** The counters [transparentPixels, brightPixels, totalPixels]. *)
Definition BlockStats : Type := (Z * Z * Z)%type.

(** Body of the [dx] loop, lines 263-269. *)
Definition countPixel (img : ImageData) (x y dy dx : Z) (st : BlockStats) : BlockStats :=
  let '(transparentPixels, brightPixels, totalPixels) := st in
  let data := id_data img in
  let idx := ((y + dy) * id_width img + (x + dx)) * 4 in
  let alpha := rd data (idx + 3) in
  let brightness :=
    Num.div (Num.add (Num.add (rd data idx) (rd data (idx + 1))) (rd data (idx + 2))) 3 in
  (if Num.ilt alpha 200 then transparentPixels + 1 else transparentPixels,
   if Num.gt brightness 200 || Num.lt brightness 50 then brightPixels + 1 else brightPixels,
   totalPixels + 1).

(** Lines 257-271. *)
Definition blockStats (img : ImageData) (x y : Z) : BlockStats :=
  for_loop (Z.to_nat gridSize)
    (fun dy => (dy <? gridSize) && (y + dy <? id_height img)) 1
    (fun dy =>
       for_loop (Z.to_nat gridSize)
         (fun dx => (dx <? gridSize) && (x + dx <? id_width img)) 1
         (countPixel img x y dy) 0)
    0 (0, 0, 0).

(** Line 274. *)
Definition flagged (st : BlockStats) : bool :=
  let '(transparentPixels, brightPixels, totalPixels) := st in
  Num.Qltb (inject_Z totalPixels * (3 # 10)) (inject_Z transparentPixels)
  || Num.Qltb (inject_Z totalPixels * (1 # 2)) (inject_Z brightPixels).

(** Lines 275-281. *)
Definition blockSelection (img : ImageData) (x y : Z) : WatermarkSelection :=
  {| sel_x := inject_Z x / inject_Z (id_width img);
     sel_y := inject_Z y / inject_Z (id_height img);
     sel_width := inject_Z (Z.min gridSize (id_width img - x)) / inject_Z (id_width img);
     sel_height := inject_Z (Z.min gridSize (id_height img - y)) / inject_Z (id_height img);
     sel_type := auto |}.

(** Body of the [x] loop, lines 257-282. *)
Definition detectBlock (img : ImageData) (y x : Z)
    (detections : list WatermarkSelection) : list WatermarkSelection :=
  if flagged (blockStats img x y) then detections ++ [blockSelection img x y]
  else detections.

(** What the body of the [x] loop appends for the block whose row starts at
    [fst p] and whose column starts at [snd p]. *)
Definition emit (img : ImageData) (p : Z * Z) : list WatermarkSelection :=
  if flagged (blockStats img (snd p) (fst p)) then [blockSelection img (snd p) (fst p)]
  else [].

(** Lines 252-286, on the pixels of the decoded image
    ([ctx.getImageData(0, 0, img.width, img.height)]). *)
Definition detectWatermarks (img : ImageData) : list WatermarkSelection :=
  For 0 (id_height img) gridSize
    (fun y => For 0 (id_width img) gridSize (detectBlock img y))
    [].

(** ** Vocabulary of the properties *)

(** Number of elements of [l] that satisfy [f]. *)
Definition countIf {A : Type} (f : A -> bool) (l : list A) : Z :=
  Z.of_nat (length (List.filter f l)).

Definition sumZ (l : list Z) : Z := fold_right Z.add 0 l.

Definition minimum (l : list Z) : Z :=
  match l with [] => 0 | v :: l' => fold_right Z.min v l' end.
Definition maximum (l : list Z) : Z :=
  match l with [] => 0 | v :: l' => fold_right Z.max v l' end.

Definition isByte (v : Z) : Prop := 0 <= v <= 255.

(** The canvas a call leaves behind; an exception leaves it as it was. *)
Definition canvasAfter (c : Canvas) (r : DOMException + Canvas * nat) : Canvas :=
  match r with inl _ => c | inr (c', _) => c' end.

(** *** Detector *)

(** [(x, y)] is the top-left corner of a block of the partition. *)
Definition blockOrigin (img : ImageData) (x y : Z) : Prop :=
  0 <= x < id_width img /\ 0 <= y < id_height img /\
  x mod gridSize = 0 /\ y mod gridSize = 0.

(** The pixels [(py, px)] of the block at [(x, y)], clipped to the image. *)
Definition blockPixels (img : ImageData) (x y : Z) : list (Z * Z) :=
  nest (zrange y (Z.min (y + gridSize) (id_height img)))
       (zrange x (Z.min (x + gridSize) (id_width img))).

Definition alphaAt (img : ImageData) (p : Z * Z) : Num.int :=
  rd (id_data img) ((fst p * id_width img + snd p) * 4 + 3).

(** [(R + G + B) / 3] *)
Definition luminanceAt (img : ImageData) (p : Z * Z) : Num.number :=
  let idx := (fst p * id_width img + snd p) * 4 in
  Num.div (Num.add (Num.add (rd (id_data img) idx) (rd (id_data img) (idx + 1)))
                   (rd (id_data img) (idx + 2))) 3.

Definition isTransparent (img : ImageData) (p : Z * Z) : bool :=
  Num.ilt (alphaAt img p) 200.

Definition isExtreme (img : ImageData) (p : Z * Z) : bool :=
  Num.gt (luminanceAt img p) 200 || Num.lt (luminanceAt img p) 50.

Definition totalCount (img : ImageData) (x y : Z) : Z :=
  Z.of_nat (length (blockPixels img x y)).
Definition transparentCount (img : ImageData) (x y : Z) : Z :=
  countIf (isTransparent img) (blockPixels img x y).
Definition extremeCount (img : ImageData) (x y : Z) : Z :=
  countIf (isExtreme img) (blockPixels img x y).

(** The starts of the blocks along a side of length [n]. *)
Definition blockStarts (n : Z) : list Z :=
  steps 0 gridSize (Z.to_nat ((n + gridSize - 1) / gridSize)).

(** The three colour bytes of a pixel are 128. *)
Definition isGrey (img : ImageData) (p : Z * Z) : bool :=
  let idx := (fst p * id_width img + snd p) * 4 in
  match rd (id_data img) idx, rd (id_data img) (idx + 1), rd (id_data img) (idx + 2) with
  | Some r, Some g, Some b => (r =? 128) && (g =? 128) && (b =? 128)
  | _, _, _ => false
  end.

Definition hasAlpha (img : ImageData) (a : Z) (p : Z * Z) : bool :=
  match alphaAt img p with Some v => v =? a | None => false end.

(** [img] is one 32x32 block of mid-grey pixels, [n] of them with alpha 150
    and the others with alpha 255. *)
Definition greyBlockWith (img : ImageData) (n : Z) : Prop :=
  id_width img = 32 /\ id_height img = 32 /\
  forallb (fun p => isGrey img p && (hasAlpha img 150 p || hasAlpha img 255 p))
    (blockPixels img 0 0) = true /\
  countIf (hasAlpha img 150) (blockPixels img 0 0) = n.

(** *** Context pool *)

(** The pixels [(px, py)] the four sampling loops visit, in their order. *)
Definition stripTop (x y width height r : Z) : list (Z * Z) :=
  map (fun p => (x + fst p, y + snd p)) (nest (zrange (- r) (width + r)) (zrange (- r) 0)).
Definition stripBottom (x y width height r : Z) : list (Z * Z) :=
  map (fun p => (x + fst p, y + snd p))
    (nest (zrange (- r) (width + r)) (zrange height (height + r))).
Definition stripLeft (x y width height r : Z) : list (Z * Z) :=
  map (fun p => (x + fst p, y + snd p)) (nest (zrange (- r) 0) (zrange 0 height)).
Definition stripRight (x y width height r : Z) : list (Z * Z) :=
  map (fun p => (x + fst p, y + snd p)) (nest (zrange width (width + r)) (zrange 0 height)).

Definition ring (x y width height : Z) : list (Z * Z) :=
  let r := sampleRadiusOf width height in
  stripTop x y width height r ++ stripBottom x y width height r ++
  stripLeft x y width height r ++ stripRight x y width height r.

(** The border of thickness [r] around the rectangle, corners included. *)
Definition inRing (x y width height r px py : Z) : Prop :=
  x - r <= px < x + width + r /\ y - r <= py < y + height + r /\
  ~ (x <= px < x + width /\ y <= py < y + height).

Definition inCanvasP (c : Canvas) (p : Z * Z) : bool := inCanvas c (fst p) (snd p).
Definition canvasPixelP (c : Canvas) (p : Z * Z) : rgba := canvasPixel c (fst p) (snd p).

(** The pool in the words of the specification: the left and the right
    strip too reach [r] past the vertical extent of the region. *)
Definition stripLeftExtended (x y width height r : Z) : list (Z * Z) :=
  map (fun p => (x + fst p, y + snd p)) (nest (zrange (- r) 0) (zrange (- r) (height + r))).
Definition stripRightExtended (x y width height r : Z) : list (Z * Z) :=
  map (fun p => (x + fst p, y + snd p))
    (nest (zrange width (width + r)) (zrange (- r) (height + r))).

Definition contextPoolExtended (c : Canvas) (x y width height : Z) : list rgba :=
  let r := sampleRadiusOf width height in
  map (canvasPixelP c)
    (List.filter (inCanvasP c)
       (stripTop x y width height r ++ stripBottom x y width height r ++
        stripLeftExtended x y width height r ++ stripRightExtended x y width height r)).

(** *** Fill and blur *)

Definition channel (ch : Z) (p : rgba) : Z :=
  if ch =? 0 then red p else if ch =? 1 then green p
  else if ch =? 2 then blue p else alpha p.

(** The pool entry selected by the k-th call of [Math.random]. *)
Definition draw (random : nat -> Q) (pool : list rgba) (k : nat) : rgba :=
  nth (Z.to_nat (randomIndex random k (length pool))) pool transparentBlack.

(** The five draws of the pixel number [p], when the fill starts after [k]
    calls of [Math.random]. *)
Definition drawsOf (random : nat -> Q) (pool : list rgba) (k : nat) (p : Z) : list rgba :=
  map (fun s => draw random pool (k + 5 * Z.to_nat p + s)%nat) (seq 0 5).

(** [Math.random] returns a double of [[0, 1)]. *)
Definition unitRandom (random : nat -> Q) : Prop :=
  forall k, Double.isDouble (random k) /\ (0 <= random k < 1)%Q.

(** The byte that holds the mean of the channel [ch] of the pixels [l]. *)
Definition meanByte (ch : Z) (l : list rgba) : Z :=
  Num.ToUint8Clamp
    (Some (inject_Z (sumZ (map (channel ch) l)) / inject_Z (Z.of_nat (length l)))%Q).

(** The pixels [(ny, nx)] of the kernel of radius [radius] around [(x, y)]
    that lie in the block. *)
Definition neighbours (width height radius x y : Z) : list (Z * Z) :=
  List.filter
    (fun p => (0 <=? snd p) && (snd p <? width) && (0 <=? fst p) && (fst p <? height))
    (nest (zrange (y - radius) (y + radius + 1)) (zrange (x - radius) (x + radius + 1))).

(** The values of the channel [ch] that the snapshot holds at them. *)
Definition neighbourValues (tempData : Uint8ClampedArray)
    (width height radius x y ch : Z) : list Z :=
  map (fun p => byteAt tempData ((fst p * width + snd p) * 4 + ch))
    (neighbours width height radius x y).

(** The number the fill stores for the channel [ch] of the pixel number
    [j], when the fill starts after [k] calls of [Math.random]. *)
Definition fillValue (random : nat -> Q) (pool : list rgba) (k : nat) (j : nat) (ch : Z) :
    Num.number :=
  Num.div (Some (sumZ (map (channel ch) (drawsOf random pool k (Z.of_nat j))))) samples.

(** The number the blur stores for the channel [ch] of the pixel of row
    [fst p] and column [snd p]: lines 214-217. *)
Definition blurValue (tempData : Uint8ClampedArray) (width height radius : Z)
    (p : Z * Z) (ch : Z) : Num.number :=
  let '(r, g, b, a, count) := blurSums tempData width height radius (snd p) (fst p) in
  Num.div (if ch =? 0 then r else if ch =? 1 then g else if ch =? 2 then b else a) count.

(** The test of line 202 for the offset [(dy, dx)]. *)
Definition tapInBlock (width height x y : Z) (t : Z * Z) : bool :=
  (0 <=? x + snd t) && (x + snd t <? width) && (0 <=? y + fst t) && (y + fst t <? height).

(** *** Progress *)

(** The selection has a width and a height other than 0 on a canvas of the
    size of [c]. *)
Definition coversPixels (c : Canvas) (s : WatermarkSelection) : Prop :=
  pixelWidth c s <> 0 /\ pixelHeight c s <> 0.

(** *** Doubles *)

(** The source computes the tests of the detector in IEEE doubles; the
    embedding computes them in [Q].  The functions below compute them with
    the doubles of the kernel, to compare the two on the values a block of
    at most 1024 pixels can produce.  They also compare the rounding
    [Double.fl] with the arithmetic of the doubles of the kernel. *)
Module Doubles.

Fixpoint of_pos (p : positive) : PrimInt63.int :=
  match p with
  | xH => 1%uint63
  | xO p' => PrimInt63.mul 2%uint63 (of_pos p')
  | xI p' => PrimInt63.add (PrimInt63.mul 2%uint63 (of_pos p')) 1%uint63
  end.

(** The double of a small integer. *)
Definition of_Z (z : Z) : PrimFloat.float :=
  match z with
  | Z0 => PrimFloat.of_uint63 0%uint63
  | Zpos p => PrimFloat.of_uint63 (of_pos p)
  | Zneg p => PrimFloat.opp (PrimFloat.of_uint63 (of_pos p))
  end.

(** The doubles written [0.3] and [0.5] in the source. *)
Definition d0_3 : PrimFloat.float := 0x1.3333333333333p-2%float.
Definition d0_5 : PrimFloat.float := 0x1p-1%float.

(** The comparison [n > total * factor] of line 274 on doubles. *)
Definition exceeds (factor : PrimFloat.float) (n total : Z) : bool :=
  PrimFloat.ltb (PrimFloat.mul (of_Z total) factor) (of_Z n).

(** Lines 265 and 268 on doubles, for the sum [s] of the three colour
    bytes. *)
Definition extreme (s : Z) : bool :=
  let brightness := PrimFloat.div (of_Z s) (of_Z 3) in
  PrimFloat.ltb (of_Z 200) brightness || PrimFloat.ltb brightness (of_Z 50).

(** The two comparisons of line 274 give the same answer on doubles and on
    rationals for [totalPixels = total], at the two counts next to each
    threshold.  Both sides grow with the count, so they agree at every
    count. *)
Definition thresholdsAgree (total : Z) : bool :=
  forallb
    (fun n =>
       Bool.eqb (exceeds d0_3 n total) (Num.Qltb (inject_Z total * (3 # 10)) (inject_Z n)))
    [3 * total / 10; 3 * total / 10 + 1] &&
  forallb
    (fun n =>
       Bool.eqb (exceeds d0_5 n total) (Num.Qltb (inject_Z total * (1 # 2)) (inject_Z n)))
    [total / 2; total / 2 + 1].

Definition extremeAgrees (s : Z) : bool :=
  Bool.eqb (extreme s)
    (Num.gt (Num.div (Some s) 3) 200 || Num.lt (Num.div (Some s) 3) 50).

(** The exact value of a finite double. *)
Definition toQ (f : PrimFloat.float) : Q :=
  match FloatOps.Prim2SF f with
  | SpecFloat.S754_finite s m e =>
      ((if s then - (1) else 1) * inject_Z (Z.pos m) * 2 ^ e)%Q
  | _ => 0%Q
  end.

(** The double written [0.01] in the source. *)
Definition d0_01 : PrimFloat.float := 0x1.47ae147ae147bp-7%float.

(** The byte stored for [s / c] (lines 168-171 and 214-217) is the same
    for the double quotient and for the exact one. *)
Definition meanAgrees (s c : Z) : bool :=
  Num.ToUint8Clamp (Some (toQ (PrimFloat.div (of_Z s) (of_Z c)))) =?
  Num.ToUint8Clamp (Num.div (Some s) c).

(** [a / b * w] gives the same double in the kernel and with [Double.fl]. *)
Definition timesAgrees (a b w : Z) : bool :=
  Qeq_bool (toQ (PrimFloat.mul (PrimFloat.div (of_Z a) (of_Z b)) (of_Z w)))
    (Double.fl (Double.fl (inject_Z a / inject_Z b) * inject_Z w)).

(** So does [a / c - b / c]. *)
Definition minusAgrees (a b c : Z) : bool :=
  Qeq_bool
    (toQ (PrimFloat.sub (PrimFloat.div (of_Z a) (of_Z c)) (PrimFloat.div (of_Z b) (of_Z c))))
    (Double.fl (Double.fl (inject_Z a / inject_Z c) - Double.fl (inject_Z b / inject_Z c))).

End Doubles.

(** *** Example inputs *)

(** A 6x6 canvas whose pixels all differ. *)
Definition canvas6 : Canvas :=
  {| cv_width := 6; cv_height := 6; cv_pixel := fun px py => RGBA (10 * px) (10 * py) 7 255 |}.

(** A single black pixel. *)
Definition canvas1 : Canvas :=
  {| cv_width := 1; cv_height := 1; cv_pixel := fun _ _ => RGBA 0 0 0 255 |}.

Definition wholeImage : WatermarkSelection :=
  {| sel_x := 0; sel_y := 0; sel_width := 1; sel_height := 1; sel_type := manual |}.

(** A selection too thin to cover a pixel column of [canvas6]. *)
Definition thinSelection : WatermarkSelection :=
  {| sel_x := 0; sel_y := 0; sel_width := 1 # 10; sel_height := 1; sel_type := manual |}.

(** Rows 1-4, columns 1-4 of [canvas6]. *)
Definition innerSelection : WatermarkSelection :=
  {| sel_x := 1 # 6; sel_y := 1 # 6; sel_width := 4 # 6; sel_height := 4 # 6;
     sel_type := manual |}.

(** Rows 1-4, columns 1-3 of [canvas6]. *)
Definition narrowSelection : WatermarkSelection :=
  {| sel_x := 1 # 6; sel_y := 1 # 6; sel_width := 3 # 6; sel_height := 4 # 6;
     sel_type := manual |}.

Definition zeroRandom : nat -> Q := fun _ => 0%Q.

(** A source of random numbers that goes through the eighths: 0, 1/8, ...,
    7/8, 0, ... *)
Definition cycleRandom : nat -> Q := fun k => (Z.of_nat (k mod 8) # 8)%Q.

(** [[thinSelection]] after a selection that can be inpainted. *)
Definition mixedSelections : list WatermarkSelection := [innerSelection; thinSelection].

(** Two pixels side by side, one black and transparent, one of bytes 3. *)
Definition twoPixels : Uint8ClampedArray := [0; 0; 0; 0; 3; 3; 3; 3].

(** Two white, opaque pixels side by side. *)
Definition whitePair : ImageData :=
  {| id_width := 2; id_height := 1; id_data := [255; 255; 255; 255; 255; 255; 255; 255] |}.

(** A 32x32 block of mid-grey pixels whose first [n] pixels, in row-major
    order, have alpha 150 and the others alpha 255. *)
Definition greyBlock (n : nat) : ImageData :=
  {| id_width := 32;
     id_height := 32;
     id_data := flat_map (fun i => [128; 128; 128; if (i <? n)%nat then 150 else 255])
                  (seq 0 1024) |}.

(** *** Further vocabulary *)

(** Every channel of every pixel of the canvas is a byte. *)
Definition canvasBytes (c : Canvas) : Prop :=
  forall px py ch, 0 <= ch < 4 -> isByte (channel ch (canvasPixel c px py)).

(** A 6x6 canvas of one opaque grey. *)
Definition greyCanvas : Canvas :=
  {| cv_width := 6; cv_height := 6; cv_pixel := fun _ _ => RGBA 128 128 128 255 |}.

(** The width and the height of the selection are not negative. *)
Definition forwardSelection (s : WatermarkSelection) : Prop :=
  (0 <= sel_width s)%Q /\ (0 <= sel_height s)%Q.

(** The calls of [Math.random] that [inpaintRegion] makes. *)
Definition randomCalls (c : Canvas) (x y width height : Z) : nat :=
  match surroundingPixelsOf c x y width height with
  | [] => O
  | _ :: _ => (5 * Z.to_nat (width * height))%nat
  end.

(** A 2x2 block of one grey. *)
Definition greyBlock4 : Uint8ClampedArray :=
  [128; 128; 128; 255; 128; 128; 128; 255; 128; 128; 128; 255; 128; 128; 128; 255].

(** The origins of the blocks in the order the loops of [detectWatermarks]
    visit them: [(y, x)], rows first. *)
Definition blockOrigins (img : ImageData) : list (Z * Z) :=
  nest (blockStarts (id_height img)) (blockStarts (id_width img)).

(** The test of line 274 for the block whose origin is [(snd p, fst p)]. *)
Definition blockFlagged (img : ImageData) (p : Z * Z) : bool :=
  flagged (blockStats img (snd p) (fst p)).

(** An opaque pixel of middle brightness: alpha at least 200 and
    [150 <= R + G + B <= 600]. *)
Definition midTone (img : ImageData) (p : Z * Z) : Prop :=
  let idx := (fst p * id_width img + snd p) * 4 in
  exists r g b a,
    rd (id_data img) idx = Some r /\ rd (id_data img) (idx + 1) = Some g /\
    rd (id_data img) (idx + 2) = Some b /\ rd (id_data img) (idx + 3) = Some a /\
    200 <= a /\ 150 <= r + g + b <= 600.

(** [totalPixels] at the end of the scan of the block at [(snd p, fst p)]. *)
Definition totalPixelsOf (img : ImageData) (p : Z * Z) : Z :=
  snd (blockStats img (snd p) (fst p)).

(** A 3 x 1 image of opaque grey pixels. *)
Definition greyRow : ImageData :=
  {| id_width := 3; id_height := 1;
     id_data := concat (repeat [128; 128; 128; 255] 3) |}.

(** A 40 x 1 image of transparent pixels: two blocks, 32 and 8 pixels wide. *)
Definition clearRow : ImageData :=
  {| id_width := 40; id_height := 1;
     id_data := concat (repeat [128; 128; 128; 0] 40) |}.

(** The pixel rectangle of the selection does not contain [(px, py)]. *)
Definition outsideSelection (c : Canvas) (px py : Z) (s : WatermarkSelection) : Prop :=
  inRect (pixelX c s) (pixelY c s) (pixelWidth c s) (pixelHeight c s) px py = false.

(** The calls of [Math.random] for one selection on a canvas of the size of
    [c]. *)
Definition selectionCalls (c : Canvas) (s : WatermarkSelection) : nat :=
  randomCalls c (pixelX c s) (pixelY c s) (pixelWidth c s) (pixelHeight c s).

(** ** The store ([useWatermarkStore], src/unnamed/part_015) and its types
       (src/unnamed/part_013) *)

Module Store.

(** The URLs of the application are object URLs, made by
    [URL.createObjectURL]; none is the empty string. *)
Inductive Url : Type := ObjectURL (id : nat).

Inductive MediaType : Type := image | video.

(** [MediaFile], without the [File] object and the duration. *)
Record MediaFile : Type := {
  mf_type : MediaType;
  mf_url : Url;
  mf_width : Z;
  mf_height : Z
}.

Inductive Stage : Type := uploading | detecting | removing | exporting | complete | idle.

(** The texts that the components store in [processingStatus.error], by
    the place that stores them; none is the empty string. *)
Inductive Message : Type :=
| DetectionNeedsImage      (* src/components/Icons.tsx, line 87 *)
| NothingDetected          (* line 105 *)
| DetectionFailed          (* line 124 *)
| NothingSelected          (* line 136 *)
| VideoNotSupported        (* line 143 *)
| RemovalFailed.           (* line 174 *)

Record ProcessingStatus : Type := {
  isProcessing : bool;
  progress : Q;
  stage : Stage;
  error : option Message
}.

(** [Partial<ProcessingStatus>]: [None] is a key that the object does not
    have; [error: undefined] is [Some None]. *)
Record StatusPatch : Type := {
  set_isProcessing : option bool;
  set_progress : option Q;
  set_stage : option Stage;
  set_error : option (option Message)
}.

Inductive ToolMode : Type := select | pan | zoom.

Inductive Format : Type := png | jpg | webp | mp4.

Record ExportOptions : Type := { format : Format; quality : Q }.

Record WatermarkState : Type := {
  mediaFile : option MediaFile;
  processedMediaUrl : option Url;
  selections : list WatermarkSelection;
  currentSelection : option WatermarkSelection;
  selectionMode : SelectionType;
  toolMode : ToolMode;
  processingStatus : ProcessingStatus;
  exportOptions : ExportOptions;
  isChatOpen : bool
}.

Definition initialProcessingStatus : ProcessingStatus :=
  {| isProcessing := false; progress := 0; stage := idle; error := None |}.

Definition initialExportOptions : ExportOptions := {| format := png; quality := 95 |}.

(** Lines 51-59. *)
Definition initialState : WatermarkState :=
  {| mediaFile := None; processedMediaUrl := None; selections := [];
     currentSelection := None; selectionMode := manual; toolMode := select;
     processingStatus := initialProcessingStatus; exportOptions := initialExportOptions;
     isChatOpen := false |}.

(** Line 62. *)
Definition setProcessedMediaUrl (url : option Url) (state : WatermarkState) : WatermarkState :=
  {| mediaFile := mediaFile state; processedMediaUrl := url;
     selections := selections state; currentSelection := currentSelection state;
     selectionMode := selectionMode state; toolMode := toolMode state;
     processingStatus := processingStatus state; exportOptions := exportOptions state;
     isChatOpen := isChatOpen state |}.

Definition withSelections (l : list WatermarkSelection) (state : WatermarkState) : WatermarkState :=
  {| mediaFile := mediaFile state; processedMediaUrl := processedMediaUrl state;
     selections := l; currentSelection := currentSelection state;
     selectionMode := selectionMode state; toolMode := toolMode state;
     processingStatus := processingStatus state; exportOptions := exportOptions state;
     isChatOpen := isChatOpen state |}.

(** Lines 63-65. *)
Definition addSelection (selection : WatermarkSelection) (state : WatermarkState) : WatermarkState :=
  withSelections (selections state ++ [selection]) state.

(** [l.filter((a, i) => keep(a, i))], [i] being the index of [a] plus
    [from]. *)
Fixpoint filterIndexed {A : Type} (keep : A -> Z -> bool) (from : Z) (l : list A) : list A :=
  match l with
  | [] => []
  | a :: l' =>
      if keep a from then a :: filterIndexed keep (from + 1) l'
      else filterIndexed keep (from + 1) l'
  end.

(** Lines 66-68. *)
Definition removeSelection (index : Z) (state : WatermarkState) : WatermarkState :=
  withSelections (filterIndexed (fun _ i => negb (i =? index)) 0 (selections state)) state.

(** Line 69. *)
Definition clearSelections (state : WatermarkState) : WatermarkState :=
  withSelections [] state.

(** Line 70. *)
Definition setCurrentSelection (selection : option WatermarkSelection)
    (state : WatermarkState) : WatermarkState :=
  {| mediaFile := mediaFile state; processedMediaUrl := processedMediaUrl state;
     selections := selections state; currentSelection := selection;
     selectionMode := selectionMode state; toolMode := toolMode state;
     processingStatus := processingStatus state; exportOptions := exportOptions state;
     isChatOpen := isChatOpen state |}.

(** [{ ...status, ...patch }] *)
Definition spread (status : ProcessingStatus) (patch : StatusPatch) : ProcessingStatus :=
  {| isProcessing := match set_isProcessing patch with Some v => v | None => isProcessing status end;
     progress := match set_progress patch with Some v => v | None => progress status end;
     stage := match set_stage patch with Some v => v | None => stage status end;
     error := match set_error patch with Some v => v | None => error status end |}.

(** Lines 73-75. *)
Definition setProcessingStatus (status : StatusPatch) (state : WatermarkState) : WatermarkState :=
  {| mediaFile := mediaFile state; processedMediaUrl := processedMediaUrl state;
     selections := selections state; currentSelection := currentSelection state;
     selectionMode := selectionMode state; toolMode := toolMode state;
     processingStatus := spread (processingStatus state) status;
     exportOptions := exportOptions state; isChatOpen := isChatOpen state |}.

End Store.

(** ** The mouse handlers of the component MediaPreview
       (src/components/SmartReplyButton.tsx, lines 131-173) *)

Module Preview.

(** [Math.min] and [Math.abs] on numbers that are not [NaN]. *)
Definition Math_min (a b : Q) : Q := if Num.Qltb b a then b else a.
Definition Math_abs (a : Q) : Q := if Num.Qltb a 0 then (- a)%Q else a.

Record Point : Type := { pt_x : Q; pt_y : Q }.

(** The state of the component, [useState] and store.  A handler runs on
    the state that the handlers before it left: React renders the
    component again between two events. *)
Record State : Type := {
  isDrawing : bool;
  startPoint : option Point;
  store : Store.WatermarkState
}.

(** The events of the canvas.  [x] and [y] are the position of the pointer
    relative to the canvas, the quotients
    [(e.clientX - rect.left) / canvas.width] and
    [(e.clientY - rect.top) / canvas.height] of the first lines of the
    handlers, which hold them as doubles.  The canvas is mounted whenever an
    event reaches a handler, so [canvasRef.current] is set. *)
Inductive Event : Type :=
| MouseDown (x y : Q)
| MouseMove (x y : Q)
| MouseUp.

Definition handleMouseDown (x y : Q) (st : State) : State :=
  match Store.toolMode (store st) with
  | Store.select =>
      {| isDrawing := true;
         startPoint := Some {| pt_x := Double.fl x; pt_y := Double.fl y |};
         store := store st |}
  | _ => st
  end.

(** Lines 151-157: the selection between the start point and the pointer
    at [(x, y)]; the differences are rounded. *)
Definition rubberBand (startPoint : Point) (x y : Q) : WatermarkSelection :=
  let x := Double.fl x in
  let y := Double.fl y in
  {| sel_x := Math_min (pt_x startPoint) x;
     sel_y := Math_min (pt_y startPoint) y;
     sel_width := Math_abs (Double.fl (x - pt_x startPoint));
     sel_height := Math_abs (Double.fl (y - pt_y startPoint));
     sel_type := manual |}.

Definition handleMouseMove (x y : Q) (st : State) : State :=
  match isDrawing st, startPoint st with
  | true, Some startPoint =>
      let selection := rubberBand startPoint x y in
      {| isDrawing := isDrawing st; startPoint := Preview.startPoint st;
         store := Store.setCurrentSelection (Some selection) (store st) |}
  | _, _ => st
  end.

(** The double written [0.01] in the source. *)
Definition d0_01 : Q := Double.fl (1 # 100).

(** The test of line 169, on the doubles that hold the width and the
    height. *)
Definition significant (s : WatermarkSelection) : bool :=
  Num.Qltb d0_01 (Double.fl (sel_width s)) && Num.Qltb d0_01 (Double.fl (sel_height s)).

Definition handleMouseUp (st : State) : State :=
  match isDrawing st, Store.currentSelection (store st) with
  | true, Some currentSelection =>
      let store1 :=
        if significant currentSelection then Store.addSelection currentSelection (store st)
        else store st in
      {| isDrawing := false; startPoint := None;
         store := Store.setCurrentSelection None store1 |}
  | _, _ => st
  end.

Definition handle (st : State) (e : Event) : State :=
  match e with
  | MouseDown x y => handleMouseDown x y st
  | MouseMove x y => handleMouseMove x y st
  | MouseUp => handleMouseUp st
  end.

(** The events in the order in which they arrive. *)
Definition handleAll (events : list Event) (st : State) : State :=
  fold_left handle events st.

Definition isMouseUp (e : Event) : bool :=
  match e with MouseUp => true | _ => false end.

(** The selection that a drag from [(x0, y0)] to [(x1, y1)] draws. *)
Definition dragged (x0 y0 x1 y1 : Q) : WatermarkSelection :=
  rubberBand {| pt_x := Double.fl x0; pt_y := Double.fl y0 |} x1 y1.

End Preview.

(** A selection that passes the test of [handleMouseUp] and is narrower
    than a pixel column of an image [width] pixels wide, [width < 100]. *)
Definition sliver (width : Z) : WatermarkSelection :=
  {| sel_x := 0; sel_y := 0;
     sel_width := ((1 # 2) * (1 / inject_Z width + (1 # 100)))%Q; sel_height := 1;
     sel_type := manual |}.

(** A canvas of 100 x 100 grey pixels. *)
Definition canvas100 : Canvas :=
  {| cv_width := 100; cv_height := 100; cv_pixel := fun _ _ => RGBA 128 128 128 255 |}.

(** A store with an image and the tool [select]. *)
Definition storeWithImage : Store.WatermarkState :=
  {| Store.mediaFile :=
       Some {| Store.mf_type := Store.image; Store.mf_url := Store.ObjectURL 0;
               Store.mf_width := 6; Store.mf_height := 6 |};
     Store.processedMediaUrl := None; Store.selections := [innerSelection];
     Store.currentSelection := None; Store.selectionMode := manual;
     Store.toolMode := Store.select;
     Store.processingStatus := Store.initialProcessingStatus;
     Store.exportOptions := Store.initialExportOptions;
     Store.isChatOpen := false |}.

(** The component at rest with an image, a selection and the tool [select]. *)
Definition previewAtRest : Preview.State :=
  {| Preview.isDrawing := false; Preview.startPoint := None; Preview.store := storeWithImage |}.

(** ** The promises of the service and the handlers of the component
       WatermarkRemover that await them (src/components/Icons.tsx,
       lines 84-179) *)

Module Remover.

(** What the browser does during a call of the service: the image it
    decodes, as the canvas on which [drawImage] has put it ([None]:
    [img.onerror] fires); whether [getContext('2d')] returns a context; the
    object URL made of the blob of [canvas.toBlob] ([None]: the blob is
    null). *)
Record Browser : Type := {
  decoded : option Canvas;
  context2d : bool;
  blob : option Store.Url
}.

Inductive Rejection : Type :=
| CouldNotLoadImage
| CouldNotGetContext
| CouldNotCreateBlob
| Thrown (e : DOMException).

(** A promise at the end of the work of the service. *)
Inductive Promise (A : Type) : Type :=
| Resolved (value : A)
| Rejected (reason : Rejection)
| Pending.
Arguments Resolved {A} value.
Arguments Rejected {A} reason.
Arguments Pending {A}.

(** [removeWatermark], lines 17-74: the values handed to [onProgress] and
    the promise.  The body of [img.onload] is inside [try]: what the loop
    throws rejects the promise. *)
Definition removeWatermarkPromise (random : nat -> Q) (browser : Browser)
    (selections : list WatermarkSelection) (onProgress : bool) : list Q * Promise Store.Url :=
  match decoded browser with
  | None => ([], Rejected CouldNotLoadImage)
  | Some img =>
      if context2d browser then
        match removeWatermark random img selections onProgress with
        | (run, Some e) => (run_progress run, Rejected (Thrown e))
        | (run, None) =>
            (run_progress run,
             match blob browser with
             | Some url => Resolved url
             | None => Rejected CouldNotCreateBlob
             end)
        end
      else ([], Rejected CouldNotGetContext)
  end.

(** [detectWatermarks], lines 232-294.  The body of [img.onload] is not
    inside [try]: when [getImageData] throws, the promise is never
    settled. *)
Definition detectWatermarksPromise (browser : Browser) : Promise (list WatermarkSelection) :=
  match decoded browser with
  | None => Rejected CouldNotLoadImage
  | Some img =>
      if context2d browser then
        match getImageData img 0 0 (cv_width img) (cv_height img) with
        | inl _ => Pending
        | inr imageData => Resolved (detectWatermarks imageData)
        end
      else Rejected CouldNotGetContext
  end.

(** The state of the component, [useState] and store. *)
Record State : Type := {
  autoDetecting : bool;
  store : Store.WatermarkState
}.

(** [{ error: message }] *)
Definition errorOnly (message : Store.Message) : Store.StatusPatch :=
  {| Store.set_isProcessing := None; Store.set_progress := None; Store.set_stage := None;
     Store.set_error := Some (Some message) |}.

(** [{ isProcessing: true, stage, progress: 0, error: undefined }] *)
Definition started (stage : Store.Stage) : Store.StatusPatch :=
  {| Store.set_isProcessing := Some true; Store.set_progress := Some 0%Q;
     Store.set_stage := Some stage; Store.set_error := Some None |}.

(** [{ isProcessing: false, stage, progress: 100, error: undefined }] *)
Definition finished (stage : Store.Stage) : Store.StatusPatch :=
  {| Store.set_isProcessing := Some false; Store.set_progress := Some 100%Q;
     Store.set_stage := Some stage; Store.set_error := Some None |}.

(** [{ error: message, isProcessing: false, stage: 'idle' }] *)
Definition failed (message : Store.Message) : Store.StatusPatch :=
  {| Store.set_isProcessing := Some false; Store.set_progress := None;
     Store.set_stage := Some Store.idle; Store.set_error := Some (Some message) |}.

(** [{ progress }], the callback of lines 159-161. *)
Definition progressOnly (progress : Q) : Store.StatusPatch :=
  {| Store.set_isProcessing := None; Store.set_progress := Some progress;
     Store.set_stage := None; Store.set_error := None |}.

(** Lines 84-131, from the click to the point where the handler ends or
    waits for ever. *)
Definition handleAutoDetect (browser : Browser) (st : State) : State :=
  match Store.mediaFile (store st) with
  | Some {| Store.mf_type := Store.image |} =>
      let store1 := Store.setProcessingStatus (started Store.detecting) (store st) in
      match detectWatermarksPromise browser with
      | Pending => {| autoDetecting := true; store := store1 |}
      | Resolved [] =>
          {| autoDetecting := false;
             store := Store.setProcessingStatus (failed Store.NothingDetected) store1 |}
      | Resolved detectedSelections =>
          {| autoDetecting := false;
             store :=
               Store.setProcessingStatus (finished Store.idle)
                 (fold_left (fun s sel => Store.addSelection sel s) detectedSelections store1) |}
      | Rejected _ =>
          {| autoDetecting := false;
             store := Store.setProcessingStatus (failed Store.DetectionFailed) store1 |}
      end
  | _ =>
      {| autoDetecting := autoDetecting st;
         store := Store.setProcessingStatus (errorOnly Store.DetectionNeedsImage) (store st) |}
  end.

(** Lines 133-179.  [selections] and [mediaFile] are those of the store at
    the click. *)
Definition handleRemoveWatermark (random : nat -> Q) (browser : Browser)
    (state : Store.WatermarkState) : Store.WatermarkState :=
  match Store.mediaFile state, Store.selections state with
  | None, _ | _, [] => Store.setProcessingStatus (errorOnly Store.NothingSelected) state
  | Some mediaFile, _ :: _ =>
      match Store.mf_type mediaFile with
      | Store.video => Store.setProcessingStatus (errorOnly Store.VideoNotSupported) state
      | Store.image =>
          let state1 := Store.setProcessingStatus (started Store.removing) state in
          let '(reports, promise) :=
            removeWatermarkPromise random browser (Store.selections state) true in
          let state2 :=
            fold_left (fun s progress => Store.setProcessingStatus (progressOnly progress) s)
              reports state1 in
          match promise with
          | Resolved processedUrl =>
              Store.setProcessingStatus (finished Store.complete)
                (Store.setProcessedMediaUrl (Some processedUrl) state2)
          | Rejected _ => Store.setProcessingStatus (failed Store.RemovalFailed) state2
          | Pending => state2
          end
      end
  end.

End Remover.

(** A browser that decodes [canvas6] and hands over a blob. *)
Definition browser6 : Remover.Browser :=
  {| Remover.decoded := Some canvas6; Remover.context2d := true;
     Remover.blob := Some (Store.ObjectURL 1) |}.

(** [storeWithImage] with the selections [mixedSelections], the second of
    which cannot be inpainted. *)
Definition storeMixed : Store.WatermarkState :=
  Store.withSelections mixedSelections storeWithImage.

(** * Loops *)

Section Loops.
Context {St : Type}.
Implicit Types (body : Z -> St -> St) (s : St).

Lemma steps_succ lo step n :
  steps lo step (S n) = lo :: steps (lo + step) step n.
Proof.
  unfold steps. cbn [seq map]. f_equal; [lia |].
  rewrite <- seq_shift, map_map. apply map_ext. intros j. lia.
Qed.

Lemma length_steps lo step n : length (steps lo step n) = n.
Proof. unfold steps. now rewrite length_map, length_seq. Qed.

(** A loop whose test holds for exactly the first [n] values of its
    variable runs its body on them, provided the budget covers [n]. *)
Lemma for_loop_steps body cond step n :
  forall fuel lo s,
    (n <= fuel)%nat ->
    (forall j, (j < n)%nat -> cond (lo + Z.of_nat j * step) = true) ->
    cond (lo + Z.of_nat n * step) = false ->
    for_loop fuel cond step body lo s = iterate body (steps lo step n) s.
Proof.
  induction n as [| n IH]; intros fuel lo s Hfuel Htrue Hfalse.
  - destruct fuel as [| fuel]; [reflexivity |].
    cbn [for_loop]. replace (lo + Z.of_nat 0 * step) with lo in Hfalse by lia.
    now rewrite Hfalse.
  - destruct fuel as [| fuel]; [lia |].
    rewrite steps_succ. cbn [for_loop iterate fold_left].
    assert (Hlo : cond lo = true).
    { specialize (Htrue O ltac:(lia)). now replace (lo + Z.of_nat 0 * step) with lo in Htrue by lia. }
    rewrite Hlo. apply IH; [lia | |].
    + intros j Hj. specialize (Htrue (S j) ltac:(lia)).
      now replace (lo + step + Z.of_nat j * step) with (lo + Z.of_nat (S j) * step) by lia.
    + now replace (lo + step + Z.of_nat n * step) with (lo + Z.of_nat (S n) * step) by lia.
Qed.

Lemma For_zrange body lo hi s :
  For lo hi 1 body s = iterate body (zrange lo hi) s.
Proof.
  unfold For, zrange. apply for_loop_steps; [lia | |].
  - intros j Hj. apply Z.ltb_lt. lia.
  - apply Z.ltb_ge. lia.
Qed.

Lemma For_steps body lo hi step s :
  0 < step ->
  For lo hi step body s =
  iterate body (steps lo step (Z.to_nat ((hi - lo + step - 1) / step))) s.
Proof.
  intros Hstep. unfold For.
  destruct (Z_lt_le_dec lo hi) as [Hlt | Hge].
  - assert (H1 : 0 < (hi - lo + step - 1) / step) by (apply Z.div_str_pos; lia).
    assert (H2 : step * ((hi - lo + step - 1) / step) <= hi - lo + step - 1)
      by (apply Z.mul_div_le; lia).
    assert (H3 : hi - lo + step - 1 < step * ((hi - lo + step - 1) / step) + step).
    { pose proof (Z.mod_pos_bound (hi - lo + step - 1) step Hstep).
      pose proof (Z.div_mod (hi - lo + step - 1) step ltac:(lia)). lia. }
    apply for_loop_steps.
    + nia.
    + intros j Hj. apply Z.ltb_lt. nia.
    + apply Z.ltb_ge. nia.
  - assert (H0 : (hi - lo + step - 1) / step <= 0).
    { destruct (Z_lt_le_dec 0 ((hi - lo + step - 1) / step)) as [Hpos | ?]; [| lia].
      pose proof (Z.mul_div_le (hi - lo + step - 1) step Hstep). nia. }
    replace (Z.to_nat ((hi - lo + step - 1) / step)) with O by lia.
    replace (Z.to_nat (hi - lo)) with O by lia. reflexivity.
Qed.

Lemma iterate_app body l1 l2 s :
  iterate body (l1 ++ l2) s = iterate body l2 (iterate body l1 s).
Proof. unfold iterate. apply fold_left_app. Qed.

Lemma iterate_ext body body' l s :
  (forall i s', In i l -> body i s' = body' i s') ->
  iterate body l s = iterate body' l s.
Proof.
  revert s. induction l as [| i l IH]; intros s H; [reflexivity |].
  cbn. rewrite (H i s (or_introl eq_refl)). apply IH. intros; apply H; now right.
Qed.

(** A nest of two loops is one pass over the pairs. *)
Lemma iterate_nest (body2 : Z -> Z -> St -> St) outer inner s :
  iterate (fun a => iterate (body2 a) inner) outer s =
  fold_left (fun s p => body2 (fst p) (snd p) s) (nest outer inner) s.
Proof.
  revert s. induction outer as [| a outer IH]; intros s; [reflexivity |].
  cbn [nest flat_map]. fold (nest outer inner). rewrite fold_left_app, <- IH.
  unfold iterate at 1. cbn [fold_left]. fold (iterate (fun a => iterate (body2 a) inner) outer).
  f_equal. unfold iterate. clear IH. generalize s.
  induction inner as [| b inner IHi]; intros s0; [reflexivity |].
  cbn. apply IHi.
Qed.

End Loops.

Lemma in_steps lo step n i :
  In i (steps lo step n) <-> exists j, (j < n)%nat /\ i = lo + Z.of_nat j * step.
Proof.
  unfold steps. rewrite in_map_iff. split.
  - intros (j & <- & Hj). apply in_seq in Hj. exists j. split; [lia | reflexivity].
  - intros (j & Hj & ->). exists j. split; [reflexivity | apply in_seq; lia].
Qed.

Lemma in_zrange lo hi i : In i (zrange lo hi) <-> lo <= i < hi.
Proof.
  unfold zrange. rewrite in_steps. split.
  - intros (j & Hj & ->). lia.
  - intros H. exists (Z.to_nat (i - lo)). lia.
Qed.

Lemma length_zrange lo hi : Z.of_nat (length (zrange lo hi)) = Z.max 0 (hi - lo).
Proof. unfold zrange. rewrite length_steps. lia. Qed.

Lemma NoDup_steps lo step n : step <> 0 -> NoDup (steps lo step n).
Proof.
  intros Hstep. unfold steps. apply Finite.Injective_map_NoDup_in; [| apply seq_NoDup].
  intros a b _ _ H. nia.
Qed.

Lemma NoDup_zrange lo hi : NoDup (zrange lo hi).
Proof. apply NoDup_steps. lia. Qed.

Lemma zrange_shift lo hi d :
  zrange (lo + d) (hi + d) = map (fun i => i + d) (zrange lo hi).
Proof.
  unfold zrange, steps. rewrite map_map.
  replace (hi + d - (lo + d)) with (hi - lo) by lia.
  apply map_ext. intros; lia.
Qed.

Lemma in_nest outer inner a b :
  In (a, b) (nest outer inner) <-> In a outer /\ In b inner.
Proof.
  unfold nest. rewrite in_flat_map. split.
  - intros (a' & Ha & Hb). apply in_map_iff in Hb as (b' & Heq & Hb).
    inversion Heq; subst. tauto.
  - intros [Ha Hb]. exists a. split; [assumption |]. apply in_map_iff. now exists b.
Qed.

Lemma length_nest outer inner :
  length (nest outer inner) = (length outer * length inner)%nat.
Proof.
  induction outer as [| a outer IH]; [reflexivity |].
  cbn [nest flat_map]. rewrite length_app, length_map. fold (nest outer inner).
  rewrite IH. cbn. lia.
Qed.

Lemma NoDup_nest outer inner :
  NoDup outer -> NoDup inner -> NoDup (nest outer inner).
Proof.
  intros Ho Hi. induction Ho as [| a outer Ha Ho IH]; [constructor |].
  cbn [nest flat_map]. fold (nest outer inner).
  apply NoDup_app; [| exact IH |].
  - apply Finite.Injective_map_NoDup; [| assumption]. intros b b' H. now inversion H.
  - intros [a' b] Hin Hin'. apply in_map_iff in Hin as (b' & Heq & _).
    inversion Heq; subst. apply in_nest in Hin'. tauto.
Qed.

Lemma nest_map (f g : Z -> Z) outer inner :
  nest (map f outer) (map g inner) =
  map (fun p => (f (fst p), g (snd p))) (nest outer inner).
Proof.
  induction outer as [| a outer IH]; [reflexivity |].
  cbn [nest flat_map map]. rewrite map_app. fold (nest outer inner).
  fold (nest (map f outer) (map g inner)). rewrite IH. f_equal.
  rewrite !map_map. reflexivity.
Qed.

(** * Typed arrays *)

Lemma length_wr data i v : length (wr data i v) = length data.
Proof. unfold wr. destruct (i <? 0); [reflexivity | apply length_insert]. Qed.

Lemma dataLength_wr data i v : dataLength (wr data i v) = dataLength data.
Proof. unfold dataLength. now rewrite length_wr. Qed.

Lemma rd_wr_same data i v :
  0 <= i < dataLength data -> rd (wr data i v) i = Some (Num.ToUint8Clamp v).
Proof.
  unfold rd, wr, dataLength. intros H.
  destruct (Z.ltb_spec i 0); [lia |]. apply list_lookup_insert_eq. lia.
Qed.

Lemma rd_wr_other data i j v : i <> j -> rd (wr data i v) j = rd data j.
Proof.
  unfold rd, wr. intros H.
  destruct (Z.ltb_spec j 0); [reflexivity |].
  destruct (Z.ltb_spec i 0); [reflexivity |].
  apply list_lookup_insert_ne. lia.
Qed.

Lemma rd_in_range data i : 0 <= i < dataLength data -> exists v, rd data i = Some v /\ In v data.
Proof.
  unfold rd, dataLength. intros H. destruct (Z.ltb_spec i 0); [lia |].
  destruct (data !! Z.to_nat i) as [v |] eqn:E.
  - exists v. split; [reflexivity |]. apply list_elem_of_In, list_elem_of_lookup. eauto.
  - apply lookup_ge_None in E. lia.
Qed.

Lemma dataLength_store4 data idx val : dataLength (store4 data idx val) = dataLength data.
Proof. unfold store4. now rewrite !dataLength_wr. Qed.

Lemma rd_store4_in data idx val ch :
  0 <= idx -> idx + 3 < dataLength data -> 0 <= ch < 4 ->
  rd (store4 data idx val) (idx + ch) = Some (Num.ToUint8Clamp (val ch)).
Proof.
  intros H0 H3 Hch. unfold store4.
  assert (Hc : ch = 0 \/ ch = 1 \/ ch = 2 \/ ch = 3) by lia.
  destruct Hc as [-> | [-> | [-> | ->]]].
  - rewrite !rd_wr_other by lia. rewrite Z.add_0_r. apply rd_wr_same. lia.
  - rewrite !rd_wr_other by lia. apply rd_wr_same. rewrite dataLength_wr. lia.
  - rewrite !rd_wr_other by lia. apply rd_wr_same. rewrite !dataLength_wr. lia.
  - apply rd_wr_same. rewrite !dataLength_wr. lia.
Qed.

Lemma rd_store4_out data idx val j :
  j < idx \/ idx + 4 <= j -> rd (store4 data idx val) j = rd data j.
Proof. intros H. unfold store4. rewrite !rd_wr_other by lia. reflexivity. Qed.

Section StoreLoop.
Context {A : Type} (idx : A -> Z) (val : A -> Z -> Num.number).

Lemma dataLength_store_loop l data :
  dataLength (storeLoop idx val l data) = dataLength data.
Proof.
  unfold storeLoop. revert data. induction l as [| a l IH]; intros data; [reflexivity |].
  cbn [fold_left]. rewrite IH. apply dataLength_store4.
Qed.

(** A loop that stores one pixel per iteration, at separate places, leaves
    at the place of [a0] what it stored there. *)
Lemma rd_store_loop l a0 data ch :
  In a0 l ->
  (forall a, In a l -> idx a = idx a0 -> forall c, val a c = val a0 c) ->
  (forall a, In a l -> idx a = idx a0 \/ idx a + 4 <= idx a0 \/ idx a0 + 4 <= idx a) ->
  0 <= idx a0 -> idx a0 + 3 < dataLength data -> 0 <= ch < 4 ->
  rd (storeLoop idx val l data) (idx a0 + ch) = Some (Num.ToUint8Clamp (val a0 ch)).
Proof.
  intros Hin Hval Hsep H0 H3 Hch. induction l as [| a l IH] using rev_ind; [destruct Hin |].
  unfold storeLoop in *. rewrite fold_left_app. cbn [fold_left].
  destruct (Z.eq_dec (idx a) (idx a0)) as [Heq | Hne].
  - rewrite Heq, rd_store4_in; try assumption.
    + rewrite (Hval a); [reflexivity | apply in_or_app; right; now left | assumption].
    + fold (storeLoop idx val l data). rewrite dataLength_store_loop. assumption.
  - rewrite rd_store4_out.
    + apply IH.
      * apply in_app_or in Hin as [Hin | [-> | []]]; [assumption | contradiction].
      * intros a' Ha'. apply Hval, in_or_app. now left.
      * intros a' Ha'. apply Hsep, in_or_app. now left.
    + assert (Ha : In a (l ++ [a])) by (apply in_or_app; right; now left).
      specialize (Hsep a Ha). lia.
Qed.

(** Places no iteration stores to keep their value. *)
Lemma rd_store_loop_out l data j :
  (forall a, In a l -> j < idx a \/ idx a + 4 <= j) ->
  rd (storeLoop idx val l data) j = rd data j.
Proof.
  unfold storeLoop. revert data. induction l as [| a l IH]; intros data H; [reflexivity |].
  cbn [fold_left]. rewrite IH by (intros; apply H; now right).
  apply rd_store4_out, H. now left.
Qed.

End StoreLoop.

(** * Rounding *)

Lemma round_half_even_bounds q lo hi :
  (inject_Z lo <= q <= inject_Z hi)%Q -> lo <= Num.round_half_even q <= hi.
Proof.
  intros [Hlo Hhi]. unfold Num.round_half_even.
  pose proof (Qfloor_le q) as Hf.
  assert (Hlof : lo <= Qfloor q).
  { rewrite <- (Qfloor_Z lo). now apply Qfloor_resp_le. }
  assert (Hfhi : Qfloor q <= hi).
  { rewrite <- (Qfloor_Z hi). now apply Qfloor_resp_le. }
  assert (Hstep : (1 # 2 <= q - inject_Z (Qfloor q))%Q -> Qfloor q + 1 <= hi).
  { intros Hhalf. destruct (Z_lt_le_dec (Qfloor q) hi) as [? | Hge]; [lia |].
    exfalso. rewrite Zle_Qle in Hge. lra. }
  destruct (Qcompare_spec (q - inject_Z (Qfloor q)) (1 # 2)) as [Heq | Hlt | Hgt].
  - destruct (Z.even (Qfloor q)); [lia |].
    split; [lia | apply Hstep; rewrite Heq; apply Qle_refl].
  - lia.
  - split; [lia | apply Hstep; apply Qlt_le_weak; assumption].
Qed.

Lemma ToUint8Clamp_bounds q lo hi :
  0 <= lo -> hi <= 255 ->
  (inject_Z lo <= q <= inject_Z hi)%Q ->
  lo <= Num.ToUint8Clamp (Some q) <= hi.
Proof.
  intros H0 H255 Hq. pose proof (round_half_even_bounds q lo hi Hq).
  unfold Num.ToUint8Clamp. lia.
Qed.

(** * Means *)

Lemma sumZ_bounds l lo hi :
  (forall v, In v l -> lo <= v <= hi) ->
  lo * Z.of_nat (length l) <= sumZ l <= hi * Z.of_nat (length l).
Proof.
  induction l as [| v l IH]; intros H; [cbn; lia |].
  cbn [sumZ fold_right length]. fold (sumZ l).
  specialize (IH (fun v' Hv' => H v' (or_intror Hv'))).
  specialize (H v (or_introl eq_refl)). lia.
Qed.

Lemma fold_min_le v l : fold_right Z.min v l <= v /\ forall u, In u l -> fold_right Z.min v l <= u.
Proof.
  induction l as [| w l [IH1 IH2]]; [split; [cbn; lia | intros ? []] |].
  cbn [fold_right]. split; [lia |]. intros u [<- | Hu]; [lia |].
  specialize (IH2 u Hu). lia.
Qed.

Lemma fold_max_ge v l : v <= fold_right Z.max v l /\ forall u, In u l -> u <= fold_right Z.max v l.
Proof.
  induction l as [| w l [IH1 IH2]]; [split; [cbn; lia | intros ? []] |].
  cbn [fold_right]. split; [lia |]. intros u [<- | Hu]; [lia |].
  specialize (IH2 u Hu). lia.
Qed.

Lemma minimum_le l v : In v l -> minimum l <= v.
Proof.
  destruct l as [| u l]; [intros [] |]. cbn [minimum].
  destruct (fold_min_le u l) as [H1 H2]. intros [<- | H]; [exact H1 | exact (H2 v H)].
Qed.

Lemma maximum_ge l v : In v l -> v <= maximum l.
Proof.
  destruct l as [| u l]; [intros [] |]. cbn [maximum].
  destruct (fold_max_ge u l) as [H1 H2]. intros [<- | H]; [exact H1 | exact (H2 v H)].
Qed.

Lemma fold_min_in v l : In (fold_right Z.min v l) (v :: l).
Proof.
  induction l as [| w l IH]; [now left |]. cbn [fold_right].
  destruct (Z.min_spec w (fold_right Z.min v l)) as [[_ ->] | [_ ->]].
  - right; now left.
  - destruct IH as [<- | IH]; [now left | right; now right].
Qed.

Lemma fold_max_in v l : In (fold_right Z.max v l) (v :: l).
Proof.
  induction l as [| w l IH]; [now left |]. cbn [fold_right].
  destruct (Z.max_spec w (fold_right Z.max v l)) as [[_ ->] | [_ ->]].
  - destruct IH as [<- | IH]; [now left | right; now right].
  - right; now left.
Qed.

(** The byte stored for the mean of [l] lies between its extremes. *)
Lemma mean_byte_between l :
  l <> [] -> (forall v, In v l -> isByte v) ->
  minimum l <=
    Num.ToUint8Clamp (Num.div (Some (sumZ l)) (Z.of_nat (length l)))
  <= maximum l.
Proof.
  intros Hne Hbytes.
  assert (Hlen : 0 < Z.of_nat (length l)) by (destruct l; [contradiction | cbn [length]; lia]).
  unfold Num.div. replace (Z.of_nat (length l) =? 0) with false by (symmetry; apply Z.eqb_neq; lia).
  assert (Hmin : isByte (minimum l)).
  { destruct l as [| u l']; [contradiction |]. apply Hbytes. cbn [minimum]. apply fold_min_in. }
  assert (Hmax : isByte (maximum l)).
  { destruct l as [| u l']; [contradiction |]. apply Hbytes. cbn [maximum]. apply fold_max_in. }
  unfold isByte in *.
  apply ToUint8Clamp_bounds; [lia | lia |].
  pose proof (sumZ_bounds l (minimum l) (maximum l)
                (fun v Hv => conj (minimum_le l v Hv) (maximum_ge l v Hv))) as [Hlo Hhi].
  assert (HlenQ : (0 < inject_Z (Z.of_nat (length l)))%Q)
    by (change (inject_Z 0 < inject_Z (Z.of_nat (length l)))%Q; now rewrite <- Zlt_Qlt).
  split.
  - apply Qle_shift_div_l; [assumption |]. rewrite <- inject_Z_mult, <- Zle_Qle. assumption.
  - apply Qle_shift_div_r; [assumption |]. rewrite <- inject_Z_mult, <- Zle_Qle. assumption.
Qed.

(** * Doubles and rationals *)

(** On every block of at most 1024 pixels the comparisons of line 274 give
    the same answer in doubles and in [Q], at the counts where the answer
    changes. *)
Lemma thresholds_on_doubles : forallb Doubles.thresholdsAgree (zrange 0 1025) = true.
Proof. vm_compute. reflexivity. Qed.

(** So does the test of line 268, for every sum of three bytes. *)
Lemma extreme_on_doubles : forallb Doubles.extremeAgrees (zrange 0 766) = true.
Proof. vm_compute. reflexivity. Qed.

(** On doubles too, 307 of 1024 pixels are not more than 30%, and 308 are. *)
Lemma boundary_on_doubles :
  Doubles.exceeds Doubles.d0_3 307 1024 = false /\
  Doubles.exceeds Doubles.d0_3 308 1024 = true.
Proof. split; vm_compute; reflexivity. Qed.

(** The byte of a mean of the fill is the same on doubles and in [Q], for
    every sum of five bytes. *)
Lemma fill_means_on_doubles :
  forallb (fun s => Doubles.meanAgrees s 5) (zrange 0 (5 * 255 + 1)) = true.
Proof. vm_compute. reflexivity. Qed.

(** The rounding [Double.fl] gives the doubles of the kernel: for the
    products [a / b * w] of lines 41-44, with [b] up to 40 and [w] the size
    [b] itself or 97, and for the differences [a / 800 - b / 800] of the
    mouse handlers. *)
Lemma products_on_doubles :
  forallb
    (fun b =>
       forallb (fun a => Doubles.timesAgrees a b b && Doubles.timesAgrees a b 97)
         (zrange 0 (b + 1)))
    (zrange 1 41) = true.
Proof. vm_compute. reflexivity. Qed.

Lemma differences_on_doubles :
  forallb (fun b => forallb (fun a => Doubles.minusAgrees a b 800) (zrange 0 24))
    (zrange 0 24) = true.
Proof. vm_compute. reflexivity. Qed.

Lemma hundredth_on_doubles :
  Qeq_bool (Doubles.toQ Doubles.d0_01) Preview.d0_01 = true /\
  Qeq_bool (Doubles.toQ Doubles.d0_01) (Doubles.toQ (PrimFloat.div (Doubles.of_Z 1) (Doubles.of_Z 100)))
    = true.
Proof. vm_compute. split; reflexivity. Qed.

(** The floor of a product is taken of the rounded product.  The last
    block of the detector on an image 36, 49 or 97 pixels wide comes back
    as the columns from 32 (4 of them), from 31 (17 of them) and from 96
    (1 of them); the width [1/161] of the last block of an image 161 pixels
    wide floors to 0; the random number [0.85] on a pool of 20 entries
    draws the entry 17. *)
Lemma floors_on_doubles :
  forallb (fun t => Doubles.timesAgrees (fst (fst t)) (snd (fst t)) (snd t))
    [(32, 36, 36); (4, 36, 36); (32, 49, 49); (17, 49, 49); (96, 97, 97); (1, 97, 97);
     (160, 161, 161); (1, 161, 161); (85, 100, 20)] = true /\
  floorTimes (32 # 36) 36 = 32 /\ floorTimes (4 # 36) 36 = 4 /\
  floorTimes (32 # 49) 49 = 31 /\ floorTimes (17 # 49) 49 = 17 /\
  floorTimes (96 # 97) 97 = 96 /\ floorTimes (1 # 97) 97 = 1 /\
  floorTimes (160 # 161) 161 = 160 /\ floorTimes (1 # 161) 161 = 0 /\
  floorTimes (85 # 100) 20 = 17.
Proof. vm_compute. repeat split; reflexivity. Qed.

(** A drag of 8 pixels on a canvas of 800: from 240 to 248 the width is a
    double above [0.01] and the selection is kept, from 0 to 8 it is the
    double [0.01] and the selection is dropped. *)
Lemma drags_on_doubles :
  Doubles.minusAgrees 248 240 800 = true /\
  Preview.significant (Preview.dragged (240 # 800) 0 (248 # 800) 1) = true /\
  Doubles.minusAgrees 8 0 800 = true /\
  Preview.significant (Preview.dragged 0 0 (8 # 800) 1) = false.
Proof. vm_compute. repeat split; reflexivity. Qed.

(** * The detector *)

Lemma countIf_cons {A : Type} (f : A -> bool) a l :
  countIf f (a :: l) = (if f a then 1 else 0) + countIf f l.
Proof. unfold countIf. cbn [List.filter]. destruct (f a); cbn [length]; lia. Qed.

Lemma countIf_map {A B : Type} (f : B -> bool) (g : A -> B) l :
  countIf f (map g l) = countIf (fun a => f (g a)) l.
Proof.
  induction l as [| a l IH]; [reflexivity |].
  cbn [map]. rewrite !countIf_cons, IH. reflexivity.
Qed.

Lemma countIf_bounds {A : Type} (f : A -> bool) l :
  0 <= countIf f l <= Z.of_nat (length l).
Proof.
  induction l as [| a l IH]; [cbv; split; discriminate |].
  rewrite countIf_cons. cbn [length]. destruct (f a); lia.
Qed.

Lemma triple_eq {A B C : Type} (a a' : A) (b b' : B) (c c' : C) :
  a = a' -> b = b' -> c = c' -> (a, b, c) = (a', b', c').
Proof. now intros -> -> ->. Qed.

Lemma countPixel_eq img x y dy dx tp bp tot :
  countPixel img x y dy dx (tp, bp, tot) =
  (tp + (if isTransparent img (y + dy, x + dx) then 1 else 0),
   bp + (if isExtreme img (y + dy, x + dx) then 1 else 0),
   tot + 1).
Proof.
  unfold countPixel, isTransparent, isExtreme, alphaAt, luminanceAt. cbn [fst snd].
  destruct (Num.ilt _ 200), (Num.gt _ 200 || Num.lt _ 50); apply triple_eq; lia.
Qed.

(** The counters after a pass over the offsets [l] of a block. *)
Lemma countPixel_fold img x y l :
  forall tp bp tot,
    fold_left (fun st p => countPixel img x y (fst p) (snd p) st) l (tp, bp, tot) =
    (tp + countIf (fun p => isTransparent img (y + fst p, x + snd p)) l,
     bp + countIf (fun p => isExtreme img (y + fst p, x + snd p)) l,
     tot + Z.of_nat (length l)).
Proof.
  induction l as [| p l IH]; intros tp bp tot.
  - cbn. unfold countIf. cbn. apply triple_eq; lia.
  - cbn [fold_left]. rewrite countPixel_eq, IH, !countIf_cons. cbn [length].
    apply triple_eq; lia.
Qed.

Lemma blockPixels_offsets img x y :
  blockPixels img x y =
  map (fun p => (y + fst p, x + snd p))
    (nest (zrange 0 (Z.min gridSize (id_height img - y)))
          (zrange 0 (Z.min gridSize (id_width img - x)))).
Proof.
  unfold blockPixels. rewrite <- (nest_map (fun a => y + a) (fun b => x + b)). f_equal.
  - replace (Z.min (y + gridSize) (id_height img))
      with (Z.min gridSize (id_height img - y) + y) by lia.
    replace y with (0 + y) at 1 by lia. rewrite zrange_shift.
    apply map_ext. intros; lia.
  - replace (Z.min (x + gridSize) (id_width img))
      with (Z.min gridSize (id_width img - x) + x) by lia.
    replace x with (0 + x) at 1 by lia. rewrite zrange_shift.
    apply map_ext. intros; lia.
Qed.

Lemma clipped_loop {St : Type} (body : Z -> St -> St) o n s :
  for_loop (Z.to_nat gridSize) (fun d => (d <? gridSize) && (o + d <? n)) 1 body 0 s =
  iterate body (zrange 0 (Z.min gridSize (n - o))) s.
Proof.
  unfold zrange. apply for_loop_steps.
  - unfold gridSize. lia.
  - intros j Hj. apply andb_true_iff. split; apply Z.ltb_lt; unfold gridSize in *; lia.
  - apply andb_false_iff. unfold gridSize.
    destruct (Z_lt_le_dec 32 (n - o)); [left | right]; apply Z.ltb_ge; lia.
Qed.

(** The three counters of the source count what their names say. *)
Lemma blockStats_counts img x y :
  blockStats img x y =
  (transparentCount img x y, extremeCount img x y, totalCount img x y).
Proof.
  unfold blockStats. rewrite clipped_loop.
  erewrite iterate_ext by (intros; apply clipped_loop).
  rewrite (iterate_nest (countPixel img x y)), countPixel_fold.
  unfold transparentCount, extremeCount, totalCount.
  rewrite blockPixels_offsets, !countIf_map, length_map. reflexivity.
Qed.

Lemma Qltb_lt a b : Num.Qltb a b = true <-> (a < b)%Q.
Proof. unfold Num.Qltb, Qlt. apply Z.ltb_lt. Qed.

Lemma flagged_iff tp bp tot :
  flagged (tp, bp, tot) = true <->
  ((3 # 10) * inject_Z tot < inject_Z tp \/ (1 # 2) * inject_Z tot < inject_Z bp)%Q.
Proof.
  unfold flagged. rewrite orb_true_iff, !Qltb_lt.
  rewrite (Qmult_comm (inject_Z tot) (3 # 10)), (Qmult_comm (inject_Z tot) (1 # 2)).
  reflexivity.
Qed.

(** The rule on integers: more than 30% and more than 50%. *)
Lemma flagged_Z tp bp tot :
  flagged (tp, bp, tot) = true <-> 3 * tot < 10 * tp \/ tot < 2 * bp.
Proof.
  unfold flagged, Num.Qltb. cbn. rewrite orb_true_iff, !Z.ltb_lt. lia.
Qed.

Lemma detectBlock_fold img l :
  forall acc,
    fold_left (fun s p => detectBlock img (fst p) (snd p) s) l acc =
    acc ++ flat_map (emit img) l.
Proof.
  induction l as [| p l IH]; intros acc; cbn [fold_left flat_map].
  - now rewrite app_nil_r.
  - rewrite IH. unfold detectBlock, emit.
    destruct (flagged _); [now rewrite <- app_assoc | reflexivity].
Qed.

(** The detections are those of the flagged blocks, rows top to bottom and
    blocks left to right. *)
Lemma detectWatermarks_blocks img :
  detectWatermarks img =
  flat_map (emit img) (nest (blockStarts (id_height img)) (blockStarts (id_width img))).
Proof.
  unfold detectWatermarks.
  rewrite For_steps by (unfold gridSize; lia).
  erewrite iterate_ext by (intros; apply For_steps; unfold gridSize; lia).
  rewrite (iterate_nest (detectBlock img)), detectBlock_fold. cbn [app].
  unfold blockStarts. now rewrite !Z.sub_0_r.
Qed.

Lemma in_blockStarts n x : In x (blockStarts n) <-> 0 <= x < n /\ x mod gridSize = 0.
Proof.
  unfold blockStarts. rewrite in_steps. unfold gridSize.
  pose proof (Z.div_mod (n + 32 - 1) 32 ltac:(lia)).
  pose proof (Z.mod_pos_bound (n + 32 - 1) 32 ltac:(lia)).
  split.
  - intros (j & Hj & ->). split; [lia |]. rewrite Z.add_0_l. apply Z.mod_mul. lia.
  - intros [Hx Hm]. exists (Z.to_nat (x / 32)).
    pose proof (Z.div_mod x 32 ltac:(lia)). pose proof (Z.div_pos x 32). lia.
Qed.

Lemma Qdiv_inj a b n :
  0 < n -> (inject_Z a / inject_Z n)%Q = (inject_Z b / inject_Z n)%Q -> a = b.
Proof.
  intros Hn H. destruct n as [| p | p]; try lia.
  cbv [Qdiv Qmult Qinv inject_Z Qnum Qden] in H. injection H as H. lia.
Qed.

Lemma blockSelection_inj img x y x' y' :
  0 < id_width img -> 0 < id_height img ->
  blockSelection img x y = blockSelection img x' y' -> x = x' /\ y = y'.
Proof.
  intros Hw Hh H.
  pose proof (f_equal sel_x H) as Hx. pose proof (f_equal sel_y H) as Hy.
  cbn [sel_x sel_y blockSelection] in Hx, Hy.
  split; [exact (Qdiv_inj _ _ _ Hw Hx) | exact (Qdiv_inj _ _ _ Hh Hy)].
Qed.

(** A block of the partition is reported exactly when its counters pass the
    test of line 274. *)
Lemma detect_block_flagged img x y :
  blockOrigin img x y ->
  In (blockSelection img x y) (detectWatermarks img) <->
  flagged (blockStats img x y) = true.
Proof.
  intros (Hx & Hy & Hxm & Hym). rewrite detectWatermarks_blocks, in_flat_map. split.
  - intros ([y' x'] & Hin & Hemit). unfold emit in Hemit. cbn [fst snd] in Hemit.
    destruct (flagged (blockStats img x' y')) eqn:Hf; [| contradiction].
    destruct Hemit as [Heq | []].
    apply blockSelection_inj in Heq as [-> ->]; [assumption | lia | lia].
  - intros Hf. exists (y, x). split.
    + apply in_nest. rewrite !in_blockStarts. tauto.
    + unfold emit. cbn [fst snd]. rewrite Hf. now left.
Qed.

(** Every detection is the selection of a block of the partition. *)
Lemma detect_only_blocks img s :
  In s (detectWatermarks img) ->
  exists x y, blockOrigin img x y /\ s = blockSelection img x y.
Proof.
  rewrite detectWatermarks_blocks, in_flat_map. intros ([y x] & Hin & Hemit).
  apply in_nest in Hin. rewrite !in_blockStarts in Hin.
  unfold emit in Hemit. cbn [fst snd] in Hemit.
  destruct (flagged _); [| contradiction]. destruct Hemit as [<- | []].
  exists x, y. unfold blockOrigin. tauto.
Qed.

(** C1. For every pixel buffer and every block of the detector's partition,
    [detectWatermarks] reports the block if and only if the number of its
    pixels with alpha below 200 exceeds 0.3 times its pixel count, or the
    number of its pixels whose luminance [(R+G+B)/3] is above 200 or below 50
    exceeds 0.5 times its pixel count. *)
Theorem detect_reports_block_iff_thresholds img x y :
  blockOrigin img x y ->
  In (blockSelection img x y) (detectWatermarks img) <->
  ((3 # 10) * inject_Z (totalCount img x y) < inject_Z (transparentCount img x y) \/
   (1 # 2) * inject_Z (totalCount img x y) < inject_Z (extremeCount img x y))%Q.
Proof.
  intros Hb. rewrite (detect_block_flagged img x y Hb), blockStats_counts.
  apply flagged_iff.
Qed.

Lemma detect_reports_block_iff_thresholds_witness :
  In (blockSelection whitePair 0 0) (detectWatermarks whitePair) <->
  ((3 # 10) * inject_Z (totalCount whitePair 0 0) < inject_Z (transparentCount whitePair 0 0) \/
   (1 # 2) * inject_Z (totalCount whitePair 0 0) < inject_Z (extremeCount whitePair 0 0))%Q.
Proof.
  apply (detect_reports_block_iff_thresholds whitePair 0 0).
  unfold blockOrigin. change (0 mod gridSize) with 0. cbn [id_width id_height whitePair]. lia.
Defined.

Lemma countIf_ext_in {A : Type} (f g : A -> bool) l :
  (forall a, In a l -> f a = g a) -> countIf f l = countIf g l.
Proof.
  induction l as [| a l IH]; intros H; [reflexivity |].
  rewrite !countIf_cons, (H a (or_introl eq_refl)), IH; [reflexivity |].
  intros; apply H; now right.
Qed.

Lemma countIf_none {A : Type} (f : A -> bool) l :
  (forall a, In a l -> f a = false) -> countIf f l = 0.
Proof.
  induction l as [| a l IH]; intros H; [reflexivity |].
  rewrite countIf_cons, (H a (or_introl eq_refl)), IH; [reflexivity |].
  intros; apply H; now right.
Qed.

(** The counters of a grey block: its pixels with alpha 150, no extreme
    pixel, 1024 pixels. *)
Lemma greyBlock_stats img n :
  greyBlockWith img n -> blockStats img 0 0 = (n, 0, 1024).
Proof.
  intros (Hw & Hh & Hall & Hn). rewrite forallb_forall in Hall.
  rewrite blockStats_counts. apply triple_eq.
  - rewrite <- Hn. apply countIf_ext_in. intros p Hp. specialize (Hall p Hp).
    apply andb_true_iff in Hall as [_ Ha]. unfold isTransparent, hasAlpha in *.
    destruct (alphaAt img p) as [v |]; [| discriminate]. cbn [Num.ilt].
    destruct (v =? 150) eqn:E.
    + apply Z.eqb_eq in E. subst v. reflexivity.
    + cbn [orb] in Ha. apply Z.eqb_eq in Ha. subst v. reflexivity.
  - apply countIf_none. intros p Hp. specialize (Hall p Hp).
    apply andb_true_iff in Hall as [Hg _]. unfold isGrey, isExtreme, luminanceAt in *.
    destruct (rd _ _) as [r |]; [| discriminate].
    destruct (rd _ _) as [g |]; [| discriminate].
    destruct (rd _ _) as [b |]; [| discriminate].
    apply andb_true_iff in Hg as [Hg Hb]. apply andb_true_iff in Hg as [Hr Hg].
    apply Z.eqb_eq in Hr as ->. apply Z.eqb_eq in Hg as ->. apply Z.eqb_eq in Hb as ->.
    reflexivity.
  - unfold totalCount, blockPixels. rewrite Hw, Hh. vm_compute. reflexivity.
Qed.

(** C7 (amended). In a 32x32 block of mid-grey pixels of which exactly [n]
    have alpha 150 and the others alpha 255, the block is reported if and
    only if [n >= 308]: 0.3 * 1024 is 307.2, so 308 such pixels are the
    first count above the threshold, and 307 or 306 of them stay below it. *)
Theorem grey_block_reported_iff_308 img n :
  greyBlockWith img n ->
  (In (blockSelection img 0 0) (detectWatermarks img) <-> 308 <= n) /\
  (n = 308 -> In (blockSelection img 0 0) (detectWatermarks img)) /\
  (n = 307 \/ n = 306 -> ~ In (blockSelection img 0 0) (detectWatermarks img)).
Proof.
  intros Hg.
  assert (Hiff : In (blockSelection img 0 0) (detectWatermarks img) <-> 308 <= n).
  { rewrite detect_block_flagged, (greyBlock_stats img n Hg), flagged_Z; [lia |].
    destruct Hg as (Hw & Hh & _). unfold blockOrigin. rewrite Hw, Hh.
    repeat split; try lia; reflexivity. }
  split; [exact Hiff |]. split; intros H; [apply Hiff | rewrite Hiff]; lia.
Qed.

Ltac grey_block := vm_compute; repeat split.

Lemma grey_block_reported_iff_308_witness :
  greyBlockWith (greyBlock 308) 308 /\
  In (blockSelection (greyBlock 308) 0 0) (detectWatermarks (greyBlock 308)).
Proof.
  assert (Hg : greyBlockWith (greyBlock 308) 308) by grey_block.
  split; [exact Hg |].
  destruct (grey_block_reported_iff_308 (greyBlock 308) 308 Hg) as (_ & H & _).
  exact (H eq_refl).
Defined.

(** C7 (counterexample). The block with exactly 307 pixels of alpha 150 is
    not reported: [detectWatermarks] returns no detection for it. *)
Lemma grey_block_307_not_reported :
  greyBlockWith (greyBlock 307) 307 /\
  detectWatermarks (greyBlock 307) = [] /\
  ~ In (blockSelection (greyBlock 307) 0 0) (detectWatermarks (greyBlock 307)).
Proof.
  assert (Hnone : detectWatermarks (greyBlock 307) = []) by (vm_compute; reflexivity).
  split; [grey_block |]. split; [exact Hnone |].
  rewrite Hnone. intros [].
Qed.

(** * Rounding to doubles *)

Lemma pow2_pos k : (0 < 2 ^ k)%Q.
Proof. apply Qpower_0_lt. reflexivity. Qed.

Lemma pow2_plus a b : (2 ^ (a + b) == 2 ^ a * 2 ^ b)%Q.
Proof. apply Qpower_plus. discriminate. Qed.

Lemma pow2_succ a : (2 ^ (a + 1) == 2 * 2 ^ a)%Q.
Proof. rewrite pow2_plus. change (2 ^ 1)%Q with 2%Q. ring. Qed.

Lemma pow2_le a b : a <= b -> (2 ^ a <= 2 ^ b)%Q.
Proof. intros H. apply Qpower_le_compat_l; [exact H | discriminate]. Qed.

Lemma pow2_lt a b : a < b -> (2 ^ a < 2 ^ b)%Q.
Proof. intros H. apply Qpower_lt_compat_l; [exact H | reflexivity]. Qed.

Lemma pow2_Z n : 0 <= n -> (2 ^ n == inject_Z (2 ^ n))%Q.
Proof. intros H. symmetry. apply (Zpower_Qpower 2 n H). Qed.

Lemma ilog2_spec q :
  (0 < q)%Q -> (2 ^ Double.ilog2 q <= q < 2 ^ (Double.ilog2 q + 1))%Q.
Proof.
  intros Hq. unfold Double.ilog2.
  destruct q as [n d]. cbn [Qnum Qden].
  assert (Hn : 0 < n) by (unfold Qlt in Hq; cbn in Hq; lia).
  set (ln := Z.log2 n). set (ld := Z.log2 (Z.pos d)).
  pose proof (Z.log2_spec n Hn) as [Hn1 Hn2]. fold ln in Hn1, Hn2.
  pose proof (Z.log2_spec (Z.pos d) ltac:(lia)) as [Hd1 Hd2]. fold ld in Hd1, Hd2.
  pose proof (Z.log2_nonneg n) as Hln. fold ln in Hln.
  pose proof (Z.log2_nonneg (Z.pos d)) as Hld. fold ld in Hld.
  assert (Hq' : (n # d == inject_Z n / inject_Z (Z.pos d))%Q) by apply Qmake_Qdiv.
  assert (HdQ : (0 < inject_Z (Z.pos d))%Q) by reflexivity.
  assert (En : (2 ^ ln <= inject_Z n < 2 ^ (ln + 1))%Q).
  { rewrite !pow2_Z by lia. rewrite <- Zle_Qle, <- Zlt_Qlt.
    replace (ln + 1) with (Z.succ ln) by lia. split; assumption. }
  assert (Ed : (2 ^ ld <= inject_Z (Z.pos d) < 2 ^ (ld + 1))%Q).
  { rewrite !pow2_Z by lia. rewrite <- Zle_Qle, <- Zlt_Qlt.
    replace (ld + 1) with (Z.succ ld) by lia. split; assumption. }
  assert (Hup : (n # d < 2 ^ (ln - ld + 1))%Q).
  { rewrite Hq'. apply Qlt_shift_div_r; [exact HdQ |].
    replace (ln - ld + 1) with ((ln + 1) + (- ld)) by lia.
    rewrite pow2_plus, Qpower_opp.
    pose proof (pow2_pos ld) as Hp. pose proof (pow2_pos (ln + 1)) as Hp'.
    assert (E : (2 ^ (ln + 1) * / 2 ^ ld * inject_Z (Z.pos d) ==
                 2 ^ (ln + 1) * (inject_Z (Z.pos d) / 2 ^ ld))%Q) by (field; lra).
    rewrite E.
    assert (H1 : (1 <= inject_Z (Z.pos d) / 2 ^ ld)%Q)
      by (apply Qle_shift_div_l; [exact Hp | lra]).
    nra. }
  assert (Hlo : (2 ^ (ln - ld - 1) < n # d)%Q).
  { rewrite Hq'. apply Qlt_shift_div_l; [exact HdQ |].
    replace (ln - ld - 1) with (ln + (- (ld + 1))) by lia.
    rewrite pow2_plus, Qpower_opp.
    pose proof (pow2_pos (ld + 1)) as Hp. pose proof (pow2_pos ln) as Hp'.
    assert (E : (2 ^ ln * / 2 ^ (ld + 1) * inject_Z (Z.pos d) ==
                 2 ^ ln * (inject_Z (Z.pos d) / 2 ^ (ld + 1)))%Q) by (field; lra).
    rewrite E.
    assert (H1 : (inject_Z (Z.pos d) / 2 ^ (ld + 1) < 1)%Q)
      by (apply Qlt_shift_div_r; [exact Hp | lra]).
    nra. }
  destruct (Num.Qltb (n # d) (2 ^ (ln - ld))%Q) eqn:E.
  - apply Qltb_lt in E. replace (ln - ld - 1 + 1) with (ln - ld) by lia.
    split; [apply Qlt_le_weak; exact Hlo | exact E].
  - apply not_true_iff_false in E. rewrite Qltb_lt in E. apply Qnot_lt_le in E.
    split; [exact E | exact Hup].
Qed.

Lemma ilog2_unique q k : (2 ^ k <= q < 2 ^ (k + 1))%Q -> Double.ilog2 q = k.
Proof.
  intros [H1 H2].
  assert (Hq : (0 < q)%Q) by (pose proof (pow2_pos k); lra).
  destruct (ilog2_spec q Hq) as [H3 H4].
  destruct (Z.lt_trichotomy (Double.ilog2 q) k) as [Hlt | [Heq | Hgt]]; [| exact Heq |].
  - pose proof (pow2_le (Double.ilog2 q + 1) k ltac:(lia)). lra.
  - pose proof (pow2_le (k + 1) (Double.ilog2 q) ltac:(lia)). lra.
Qed.

Lemma ilog2_comp q q' : (0 < q)%Q -> (q == q')%Q -> Double.ilog2 q = Double.ilog2 q'.
Proof.
  intros Hq E. symmetry. apply ilog2_unique. rewrite <- E. now apply ilog2_spec.
Qed.

Lemma ilog2_le a b : (0 < a)%Q -> (a <= b)%Q -> Double.ilog2 a <= Double.ilog2 b.
Proof.
  intros Ha Hab.
  destruct (ilog2_spec a Ha) as [H1 H2].
  destruct (ilog2_spec b ltac:(lra)) as [H3 H4].
  destruct (Z_le_gt_dec (Double.ilog2 a) (Double.ilog2 b)) as [| Hgt]; [assumption |].
  pose proof (pow2_le (Double.ilog2 b + 1) (Double.ilog2 a) ltac:(lia)). lra.
Qed.

Lemma round_half_even_Z n : Num.round_half_even (inject_Z n) = n.
Proof.
  pose proof (round_half_even_bounds (inject_Z n) n n) as H.
  assert (inject_Z n <= inject_Z n <= inject_Z n)%Q by (split; apply Qle_refl).
  specialize (H ltac:(assumption)). lia.
Qed.

Lemma round_half_even_comp q q' :
  (q == q')%Q -> Num.round_half_even q = Num.round_half_even q'.
Proof.
  intros E. unfold Num.round_half_even. rewrite (Qfloor_comp q q' E).
  assert (E' : (q - inject_Z (Qfloor q') == q' - inject_Z (Qfloor q'))%Q) by (rewrite E; reflexivity).
  now rewrite (Qcompare_comp _ _ E' (1 # 2) (1 # 2) (Qeq_refl _)).
Qed.

(** The rounded value is [floor q] or [floor q + 1], at a distance of at
    most 1/2. *)
Lemma round_half_even_near q :
  (inject_Z (Num.round_half_even q) - (1 # 2) <= q <=
   inject_Z (Num.round_half_even q) + (1 # 2))%Q.
Proof.
  unfold Num.round_half_even.
  pose proof (Qfloor_le q) as Hf. pose proof (Qlt_floor q) as Hc.
  rewrite inject_Z_plus in Hc. change (inject_Z 1) with 1%Q in Hc.
  destruct (Qcompare_spec (q - inject_Z (Qfloor q)) (1 # 2)) as [Heq | Hlt | Hgt].
  - destruct (Z.even (Qfloor q)).
    + split; lra.
    + rewrite inject_Z_plus. change (inject_Z 1) with 1%Q. split; lra.
  - split; lra.
  - rewrite inject_Z_plus. change (inject_Z 1) with 1%Q. split; lra.
Qed.

Lemma round_half_even_mono a b :
  (a <= b)%Q -> Num.round_half_even a <= Num.round_half_even b.
Proof.
  intros Hab. pose proof (Qfloor_resp_le a b Hab) as Hfl.
  destruct (Z.eq_dec (Qfloor a) (Qfloor b)) as [E | NE].
  - unfold Num.round_half_even. rewrite E.
    destruct (Qcompare_spec (a - inject_Z (Qfloor b)) (1 # 2)) as [Ha | Ha | Ha];
      destruct (Qcompare_spec (b - inject_Z (Qfloor b)) (1 # 2)) as [Hb | Hb | Hb];
      try destruct (Z.even (Qfloor b)); try lia; exfalso; lra.
  - assert (Ha : Num.round_half_even a <= Qfloor a + 1).
    { unfold Num.round_half_even.
      destruct (_ ?= _)%Q; try destruct (Z.even _); lia. }
    assert (Hb : Qfloor b <= Num.round_half_even b).
    { unfold Num.round_half_even.
      destruct (_ ?= _)%Q; try destruct (Z.even _); lia. }
    lia.
Qed.

(** ** Positive numbers *)

Lemma flpos_comp q q' : (0 < q)%Q -> (q == q')%Q -> (Double.flpos q == Double.flpos q')%Q.
Proof.
  intros Hq E. unfold Double.flpos. rewrite <- (ilog2_comp q q' Hq E).
  assert (E' : (q / 2 ^ (Double.ilog2 q - 52) == q' / 2 ^ (Double.ilog2 q - 52))%Q)
    by (apply Qdiv_comp; [exact E | reflexivity]).
  now rewrite (round_half_even_comp _ _ E').
Qed.

(** The significand lies in [[2^52, 2^53]]. *)
Lemma significand_range q :
  (0 < q)%Q ->
  2 ^ 52 <= Num.round_half_even (q / 2 ^ (Double.ilog2 q - 52)) <= 2 ^ 53.
Proof.
  intros Hq. destruct (ilog2_spec q Hq) as [H1 H2].
  set (k := Double.ilog2 q) in *.
  pose proof (pow2_pos (k - 52)) as Hp.
  apply round_half_even_bounds.
  assert (E1 : (2 ^ k == inject_Z (2 ^ 52) * 2 ^ (k - 52))%Q).
  { rewrite <- pow2_Z by lia. rewrite <- pow2_plus. now replace (52 + (k - 52)) with k by lia. }
  assert (E2 : (2 ^ (k + 1) == inject_Z (2 ^ 53) * 2 ^ (k - 52))%Q).
  { rewrite <- pow2_Z by lia. rewrite <- pow2_plus.
    now replace (53 + (k - 52)) with (k + 1) by lia. }
  split.
  - apply Qle_shift_div_l; [exact Hp |]. rewrite <- E1. exact H1.
  - apply Qle_shift_div_r; [exact Hp |]. rewrite <- E2. apply Qlt_le_weak. exact H2.
Qed.

Lemma flpos_range q :
  (0 < q)%Q -> (2 ^ Double.ilog2 q <= Double.flpos q <= 2 ^ (Double.ilog2 q + 1))%Q.
Proof.
  intros Hq. pose proof (significand_range q Hq) as [H1 H2].
  unfold Double.flpos. set (k := Double.ilog2 q) in *.
  set (m := Num.round_half_even (q / 2 ^ (k - 52))) in *.
  pose proof (pow2_pos (k - 52)) as Hp.
  assert (E1 : (2 ^ k == inject_Z (2 ^ 52) * 2 ^ (k - 52))%Q).
  { rewrite <- pow2_Z by lia. rewrite <- pow2_plus. now replace (52 + (k - 52)) with k by lia. }
  assert (E2 : (2 ^ (k + 1) == inject_Z (2 ^ 53) * 2 ^ (k - 52))%Q).
  { rewrite <- pow2_Z by lia. rewrite <- pow2_plus.
    now replace (53 + (k - 52)) with (k + 1) by lia. }
  rewrite E1, E2. rewrite Zle_Qle in H1, H2.
  split; apply Qmult_le_compat_r; (assumption || lra).
Qed.

Lemma flpos_pos q : (0 < q)%Q -> (0 < Double.flpos q)%Q.
Proof. intros Hq. pose proof (flpos_range q Hq). pose proof (pow2_pos (Double.ilog2 q)). lra. Qed.

Lemma flpos_mono a b : (0 < a)%Q -> (a <= b)%Q -> (Double.flpos a <= Double.flpos b)%Q.
Proof.
  intros Ha Hab. assert (Hb : (0 < b)%Q) by lra.
  pose proof (ilog2_le a b Ha Hab) as Hk.
  destruct (Z.eq_dec (Double.ilog2 a) (Double.ilog2 b)) as [E | NE].
  - unfold Double.flpos. rewrite E.
    pose proof (pow2_pos (Double.ilog2 b - 52)) as Hp.
    apply Qmult_le_compat_r; [| lra]. rewrite <- Zle_Qle.
    apply round_half_even_mono. apply Qmult_le_compat_r; [exact Hab |].
    apply Qlt_le_weak, Qinv_lt_0_compat, Hp.
  - pose proof (flpos_range a Ha) as [_ H1]. pose proof (flpos_range b Hb) as [H2 _].
    pose proof (pow2_le (Double.ilog2 a + 1) (Double.ilog2 b) ltac:(lia)). lra.
Qed.

(** A rounding moves a number by at most half a unit of its last place. *)
Lemma flpos_error q :
  (0 < q)%Q ->
  (q * (1 - Double.eps) <= Double.flpos q <= q * (1 + Double.eps))%Q.
Proof.
  intros Hq. destruct (ilog2_spec q Hq) as [H1 _].
  unfold Double.flpos. set (k := Double.ilog2 q) in *.
  pose proof (pow2_pos (k - 52)) as Hp.
  pose proof (round_half_even_near (q / 2 ^ (k - 52))) as [Hlo Hhi].
  set (m := inject_Z (Num.round_half_even (q / 2 ^ (k - 52)))) in *.
  assert (Hq' : (q == q / 2 ^ (k - 52) * 2 ^ (k - 52))%Q) by (field; lra).
  assert (Hu : (2 ^ (k - 52) * (1 # 2) <= q * Double.eps)%Q).
  { assert (E1 : (2 ^ k == inject_Z (2 ^ 52) * 2 ^ (k - 52))%Q).
    { rewrite <- pow2_Z by lia. rewrite <- pow2_plus.
      now replace (52 + (k - 52)) with k by lia. }
    rewrite E1 in H1. change (inject_Z (2 ^ 52)) with (4503599627370496 # 1)%Q in H1.
    unfold Double.eps. lra. }
  set (y := (q / 2 ^ (k - 52))%Q) in *.
  assert (H3 : ((m - (1 # 2)) * 2 ^ (k - 52) <= y * 2 ^ (k - 52))%Q)
    by (apply Qmult_le_compat_r; lra).
  assert (H4 : (y * 2 ^ (k - 52) <= (m + (1 # 2)) * 2 ^ (k - 52))%Q)
    by (apply Qmult_le_compat_r; lra).
  rewrite <- Hq' in H3, H4. split; lra.
Qed.

(** A number whose significand is an integer is a double. *)
Lemma flpos_exact q :
  (0 < q)%Q ->
  (exists m, q / 2 ^ (Double.ilog2 q - 52) == inject_Z m)%Q ->
  (Double.flpos q == q)%Q.
Proof.
  intros Hq [m Hm]. unfold Double.flpos.
  rewrite (round_half_even_comp _ _ Hm), round_half_even_Z, <- Hm.
  pose proof (pow2_pos (Double.ilog2 q - 52)). field. lra.
Qed.

Lemma flpos_Z n : 0 < n <= 2 ^ 53 -> (Double.flpos (inject_Z n) == inject_Z n)%Q.
Proof.
  intros Hn.
  assert (Hq : (0 < inject_Z n)%Q) by (unfold Qlt; cbn; lia).
  apply flpos_exact; [exact Hq |].
  destruct (ilog2_spec (inject_Z n) Hq) as [H1 H2].
  set (k := Double.ilog2 (inject_Z n)) in *.
  assert (Hk : k <= 53).
  { destruct (Z_le_gt_dec k 53) as [| Hgt]; [assumption |].
    pose proof (pow2_lt 53 k ltac:(lia)) as Hlt. rewrite (pow2_Z 53) in Hlt by lia.
    assert (inject_Z n <= inject_Z (2 ^ 53))%Q by (rewrite <- Zle_Qle; lia). lra. }
  destruct (Z_le_gt_dec k 52) as [Hle | Hgt].
  - exists (n * 2 ^ (52 - k)).
    rewrite inject_Z_mult, <- (pow2_Z (52 - k)) by lia.
    replace (52 - k) with (- (k - 52)) by lia. rewrite Qpower_opp.
    reflexivity.
  - assert (Hk53 : k = 53) by lia. exists (2 ^ 52).
    assert (En : n = 2 ^ 53).
    { rewrite Hk53 in H1. change (2 ^ 53)%Q with (inject_Z (2 ^ 53)) in H1.
      rewrite <- Zle_Qle in H1. lia. }
    rewrite Hk53, En. reflexivity.
Qed.

(** ** All numbers *)

Lemma fl_pos q : (0 < q)%Q -> Double.fl q = Double.flpos q.
Proof.
  intros H. unfold Double.fl.
  destruct (Qcompare_spec q 0); [exfalso; lra | exfalso; lra | reflexivity].
Qed.

Lemma fl_neg q : (q < 0)%Q -> Double.fl q = (- Double.flpos (- q))%Q.
Proof.
  intros H. unfold Double.fl.
  destruct (Qcompare_spec q 0); [exfalso; lra | reflexivity | exfalso; lra].
Qed.

Lemma fl_zero q : (q == 0)%Q -> Double.fl q = 0%Q.
Proof.
  intros H. unfold Double.fl.
  destruct (Qcompare_spec q 0); [reflexivity | exfalso; lra | exfalso; lra].
Qed.

Lemma fl_comp q q' : (q == q')%Q -> (Double.fl q == Double.fl q')%Q.
Proof.
  intros E. destruct (Q_dec q 0) as [[Hlt | Hgt] | Heq].
  - rewrite (fl_neg q Hlt), (fl_neg q') by (rewrite <- E; exact Hlt).
    apply Qopp_comp. apply flpos_comp; [lra | now rewrite E].
  - rewrite (fl_pos q Hgt), (fl_pos q') by (rewrite <- E; exact Hgt).
    now apply flpos_comp.
  - rewrite (fl_zero q Heq), (fl_zero q') by (rewrite <- E; exact Heq). reflexivity.
Qed.

#[global] Instance fl_proper : Proper (Qeq ==> Qeq) Double.fl.
Proof. intros q q' E. now apply fl_comp. Qed.

Lemma fl_opp q : (Double.fl (- q) == - Double.fl q)%Q.
Proof.
  destruct (Q_dec q 0) as [[Hlt | Hgt] | Heq].
  - rewrite (fl_neg q Hlt), (fl_pos (- q)) by lra. ring.
  - rewrite (fl_pos q Hgt), (fl_neg (- q)) by lra.
    apply Qopp_comp. apply flpos_comp; [lra | ring].
  - rewrite (fl_zero q Heq), (fl_zero (- q)) by lra. reflexivity.
Qed.

Lemma fl_nonneg q : (0 <= q)%Q -> (0 <= Double.fl q)%Q.
Proof.
  intros H. destruct (Qle_lt_or_eq _ _ H) as [Hlt | Heq].
  - rewrite fl_pos by assumption. apply Qlt_le_weak. now apply flpos_pos.
  - rewrite fl_zero by (symmetry; assumption). apply Qle_refl.
Qed.

Lemma fl_nonpos q : (q <= 0)%Q -> (Double.fl q <= 0)%Q.
Proof.
  intros H. pose proof (fl_nonneg (- q) ltac:(lra)) as H'. rewrite fl_opp in H'. lra.
Qed.

(** Rounding keeps the order. *)
Lemma fl_mono a b : (a <= b)%Q -> (Double.fl a <= Double.fl b)%Q.
Proof.
  intros Hab.
  destruct (Q_dec a 0) as [[Ha | Ha] | Ha]; destruct (Q_dec b 0) as [[Hb | Hb] | Hb];
    try (exfalso; lra).
  - rewrite (fl_neg a Ha), (fl_neg b Hb).
    pose proof (flpos_mono (- b) (- a) ltac:(lra) ltac:(lra)). lra.
  - pose proof (fl_nonpos a ltac:(lra)). pose proof (fl_nonneg b ltac:(lra)). lra.
  - pose proof (fl_nonpos a ltac:(lra)). pose proof (fl_nonneg b ltac:(lra)). lra.
  - rewrite (fl_pos a Ha), (fl_pos b Hb). now apply flpos_mono.
  - pose proof (fl_nonpos a ltac:(lra)). pose proof (fl_nonneg b ltac:(lra)). lra.
  - pose proof (fl_nonpos a ltac:(lra)). pose proof (fl_nonneg b ltac:(lra)). lra.
Qed.

(** The integers up to [2^53] are doubles. *)
Lemma fl_Z n : - 2 ^ 53 <= n <= 2 ^ 53 -> (Double.fl (inject_Z n) == inject_Z n)%Q.
Proof.
  intros Hn. destruct (Z.lt_trichotomy n 0) as [Hlt | [Heq | Hgt]].
  - rewrite fl_neg by (unfold Qlt; cbn; lia).
    rewrite <- inject_Z_opp, flpos_Z by lia. rewrite inject_Z_opp. ring.
  - subst n. reflexivity.
  - rewrite fl_pos by (unfold Qlt; cbn; lia). apply flpos_Z. lia.
Qed.

Lemma fl_error q :
  (0 <= q)%Q -> (q * (1 - Double.eps) <= Double.fl q <= q * (1 + Double.eps))%Q.
Proof.
  intros H. destruct (Qle_lt_or_eq _ _ H) as [Hlt | Heq].
  - rewrite fl_pos by assumption. now apply flpos_error.
  - rewrite fl_zero by (symmetry; assumption). rewrite <- Heq. split; lra.
Qed.

(** A number at or above a double rounds at or above it, and the same
    below. *)
Lemma fl_ge_double d q : Double.isDouble d -> (d <= q)%Q -> (d <= Double.fl q)%Q.
Proof.
  intros Hd H. unfold Double.isDouble in Hd. pose proof (fl_mono d q H). lra.
Qed.

Lemma fl_le_double d q : Double.isDouble d -> (q <= d)%Q -> (Double.fl q <= d)%Q.
Proof.
  intros Hd H. unfold Double.isDouble in Hd. pose proof (fl_mono q d H). lra.
Qed.

Lemma isDouble_Z n : - 2 ^ 53 <= n <= 2 ^ 53 -> Double.isDouble (inject_Z n).
Proof. apply fl_Z. Qed.

Lemma fl_idempotent q : Double.isDouble (Double.fl q).
Proof.
  unfold Double.isDouble.
  assert (Hpos : forall p, (0 < p)%Q -> (Double.flpos (Double.flpos p) == Double.flpos p)%Q).
  { intros p Hp. pose proof (flpos_pos p Hp) as Hfp.
    pose proof (flpos_range p Hp) as [R1 R2].
    pose proof (significand_range p Hp) as [S1 S2].
    set (k := Double.ilog2 p) in *.
    set (m := Num.round_half_even (p / 2 ^ (k - 52))) in *.
    assert (Efp : (Double.flpos p == inject_Z m * 2 ^ (k - 52))%Q) by reflexivity.
    pose proof (pow2_pos (k - 52)) as Hp2.
    apply flpos_exact; [exact Hfp |].
    destruct (Z.eq_dec m (2 ^ 53)) as [Em | NEm].
    - assert (Ek : Double.ilog2 (Double.flpos p) = k + 1).
      { apply ilog2_unique. rewrite Efp, Em, <- (pow2_Z 53), <- pow2_plus by lia.
        replace (53 + (k - 52)) with (k + 1) by lia.
        split; [apply Qle_refl | apply pow2_lt; lia]. }
      rewrite Ek. exists (2 ^ 52). rewrite Efp, Em.
      rewrite <- !pow2_Z by lia.
      replace (k + 1 - 52) with ((k - 52) + 1) by lia. rewrite pow2_succ.
      change (2 ^ 53)%Q with (2 * 2 ^ 52)%Q. field. lra.
    - assert (Ek : Double.ilog2 (Double.flpos p) = k).
      { apply ilog2_unique. split; [exact R1 |].
        rewrite Efp.
        assert (E2 : (2 ^ (k + 1) == inject_Z (2 ^ 53) * 2 ^ (k - 52))%Q).
        { rewrite <- pow2_Z by lia. rewrite <- pow2_plus.
          now replace (53 + (k - 52)) with (k + 1) by lia. }
        rewrite E2. apply Qmult_lt_compat_r; [exact Hp2 |]. rewrite <- Zlt_Qlt. lia. }
      rewrite Ek. exists m. rewrite Efp. field. lra. }
  destruct (Q_dec q 0) as [[Hlt | Hgt] | Heq].
  - rewrite (fl_neg q Hlt). rewrite fl_opp.
    rewrite (fl_pos (Double.flpos (- q))) by (apply flpos_pos; lra).
    rewrite Hpos by lra. reflexivity.
  - rewrite (fl_pos q Hgt). rewrite fl_pos by (now apply flpos_pos). now apply Hpos.
  - rewrite (fl_zero q Heq). reflexivity.
Qed.

(** The doubles below 1 end at [1 - 2^-53]. *)
Lemma double_below_one r :
  Double.isDouble r -> (0 <= r < 1)%Q -> (r <= 1 - Double.eps)%Q.
Proof.
  intros Hd [H0 H1]. unfold Double.eps.
  destruct (Qlt_le_dec (1 # 2) r) as [Hhalf | Hhalf]; [| lra].
  assert (Hk : Double.ilog2 r = -1)
    by (apply ilog2_unique; change (2 ^ (-1))%Q with (1 # 2)%Q;
        change (2 ^ (-1 + 1))%Q with 1%Q; split; lra).
  unfold Double.isDouble in Hd. rewrite fl_pos in Hd by lra.
  pose proof (significand_range r ltac:(lra)) as [_ Hm].
  unfold Double.flpos in Hd. rewrite Hk in *.
  set (m := Num.round_half_even (r / 2 ^ (-1 - 52))) in *.
  change (2 ^ (-1 - 52))%Q with (1 # 9007199254740992)%Q in Hd.
  assert (Hlt : m < 2 ^ 53).
  { apply Z.lt_nge. intros Hge. rewrite Zle_Qle in Hge.
    change (inject_Z (2 ^ 53)) with (9007199254740992 # 1)%Q in Hge. lra. }
  assert (Hle : (inject_Z m <= inject_Z (2 ^ 53 - 1))%Q) by (rewrite <- Zle_Qle; lia).
  change (inject_Z (2 ^ 53 - 1)) with (9007199254740991 # 1)%Q in Hle. lra.
Qed.

(** ** [Math.floor] of a product *)

Lemma floorTimes_comp v v' n : (v == v')%Q -> floorTimes v n = floorTimes v' n.
Proof. intros E. unfold floorTimes. now rewrite E. Qed.

Lemma floorTimes_nonneg v n : (0 <= v)%Q -> 0 <= n -> 0 <= floorTimes v n.
Proof.
  intros Hv Hn. unfold floorTimes. change 0 with (Qfloor 0). apply Qfloor_resp_le.
  apply fl_nonneg. apply Qmult_le_0_compat; [now apply fl_nonneg |].
  unfold Qle. cbn. lia.
Qed.

Lemma floorTimes_zero v n : (v == 0)%Q -> floorTimes v n = 0.
Proof.
  intros E. rewrite (floorTimes_comp v 0 n E). unfold floorTimes.
  rewrite (fl_zero 0) by reflexivity. rewrite fl_zero by ring. reflexivity.
Qed.

Lemma floorTimes_one v n : (v == 1)%Q -> - 2 ^ 53 <= n <= 2 ^ 53 -> floorTimes v n = n.
Proof.
  intros E Hn. rewrite (floorTimes_comp v 1 n E). unfold floorTimes.
  assert (E1 : (Double.fl 1 == 1)%Q) by (apply (fl_Z 1); lia).
  rewrite E1, Qmult_1_l, fl_Z by exact Hn. apply Qfloor_Z.
Qed.

(** With a double of [[0, 1)] the rounded product stays below the integer:
    the index is in range. *)
Lemma floorTimes_unit r n :
  Double.isDouble r -> (0 <= r < 1)%Q -> 0 < n -> 0 <= floorTimes r n < n.
Proof.
  intros Hd Hr Hn. split; [apply floorTimes_nonneg; [tauto | lia] |].
  pose proof (double_below_one r Hd Hr) as Hpred.
  unfold floorTimes. unfold Double.isDouble in Hd. rewrite Hd.
  assert (HnQ : (1 <= inject_Z n)%Q) by (unfold Qle; cbn; lia).
  assert (Hx : (0 <= r * inject_Z n)%Q) by (apply Qmult_le_0_compat; lra).
  pose proof (fl_error (r * inject_Z n) Hx) as [_ Hup].
  rewrite Zlt_Qlt. eapply Qle_lt_trans; [apply Qfloor_le |].
  eapply Qle_lt_trans; [exact Hup |].
  unfold Double.eps in *. nra.
Qed.

(** The index [j] is drawn when the exact product lies in [[j, j + 1)],
    except within a relative [2^-53] of the upper end, where the product
    rounds up to [j + 1]. *)
Lemma floorTimes_cell r n j :
  Double.isDouble r -> (0 <= r < 1)%Q -> 0 < n <= 2 ^ 53 ->
  ((inject_Z j <= r * inject_Z n /\ r * inject_Z n * (1 + Double.eps) < inject_Z (j + 1))%Q ->
   floorTimes r n = j) /\
  (floorTimes r n = j ->
   (inject_Z j <= r * inject_Z n * (1 + Double.eps) /\ r * inject_Z n < inject_Z (j + 1))%Q).
Proof.
  intros Hd Hr Hn.
  pose proof (floorTimes_unit r n Hd Hr ltac:(lia)) as Hrange.
  unfold floorTimes in *. unfold Double.isDouble in Hd.
  rewrite Hd in Hrange. rewrite Hd.
  assert (HnQ : (1 <= inject_Z n)%Q) by (unfold Qle; cbn; lia).
  assert (Hx : (0 <= r * inject_Z n)%Q) by (apply Qmult_le_0_compat; lra).
  set (x := (r * inject_Z n)%Q) in *.
  assert (Hxn : (x < inject_Z n)%Q) by (unfold x; nra).
  pose proof (fl_error x Hx) as [_ Hup].
  pose proof (Qfloor_le (Double.fl x)) as Hfl. pose proof (Qlt_floor (Double.fl x)) as Hlt.
  split.
  - intros [Hlo Hhi].
    assert (Hj : 0 <= j).
    { apply Z.lt_succ_r. rewrite Zlt_Qlt. replace (Z.succ j) with (j + 1) by lia.
      change (inject_Z 0) with 0%Q. unfold Double.eps in *. nra. }
    assert (Hjn : j <= 2 ^ 53).
    { assert (H : (inject_Z j < inject_Z n)%Q) by lra. rewrite <- Zlt_Qlt in H. lia. }
    pose proof (fl_ge_double (inject_Z j) x (isDouble_Z j ltac:(lia)) Hlo) as Hge.
    assert (H1 : j <= Qfloor (Double.fl x)).
    { rewrite <- (Qfloor_Z j). now apply Qfloor_resp_le. }
    assert (H2 : Qfloor (Double.fl x) < j + 1) by (rewrite Zlt_Qlt; lra).
    lia.
  - intros <-. split; [lra |].
    apply Qnot_le_lt. intros Hge.
    pose proof (fl_ge_double (inject_Z (Qfloor (Double.fl x) + 1)) x
                  (isDouble_Z (Qfloor (Double.fl x) + 1) ltac:(lia)) Hge). lra.
Qed.

(** ** The byte of a quotient *)

(** The range of the exponent is not bounded, so rounding commutes with a
    scaling by a power of 2. *)
Lemma flpos_scale q k : (0 < q)%Q -> (Double.flpos (q * 2 ^ k) == Double.flpos q * 2 ^ k)%Q.
Proof.
  intros Hq. destruct (ilog2_spec q Hq) as [H1 H2].
  pose proof (pow2_pos k) as Hk.
  assert (Hi : Double.ilog2 (q * 2 ^ k) = Double.ilog2 q + k).
  { apply ilog2_unique.
    replace (Double.ilog2 q + k + 1) with ((Double.ilog2 q + 1) + k) by lia.
    rewrite (pow2_plus (Double.ilog2 q) k), (pow2_plus (Double.ilog2 q + 1) k). split.
    - apply Qmult_le_compat_r; [exact H1 | lra].
    - apply Qmult_lt_compat_r; [exact Hk | exact H2]. }
  unfold Double.flpos. rewrite Hi.
  replace (Double.ilog2 q + k - 52) with ((Double.ilog2 q - 52) + k) by lia.
  pose proof (pow2_pos (Double.ilog2 q - 52)) as Hp.
  assert (E : (q * 2 ^ k / 2 ^ (Double.ilog2 q - 52 + k) == q / 2 ^ (Double.ilog2 q - 52))%Q).
  { rewrite pow2_plus. field. split; lra. }
  rewrite (round_half_even_comp _ _ E), pow2_plus. ring.
Qed.

Lemma fl_scale q k : (Double.fl (q * 2 ^ k) == Double.fl q * 2 ^ k)%Q.
Proof.
  pose proof (pow2_pos k) as Hk.
  destruct (Q_dec q 0) as [[Hlt | Hgt] | Heq].
  - assert (H : (q * 2 ^ k < 0)%Q) by nra.
    rewrite (fl_neg q Hlt), (fl_neg _ H).
    assert (E : (- (q * 2 ^ k) == (- q) * 2 ^ k)%Q) by ring.
    assert (Hp : (0 < - (q * 2 ^ k))%Q) by lra.
    rewrite (flpos_comp _ _ Hp E), flpos_scale by lra. ring.
  - assert (H : (0 < q * 2 ^ k)%Q) by nra.
    rewrite (fl_pos q Hgt), (fl_pos _ H). now apply flpos_scale.
  - rewrite (fl_zero q Heq), fl_zero by (rewrite Heq; ring). ring.
Qed.

(** A half-integer is a double. *)
Lemma isDouble_half n : 0 <= n < 2 ^ 52 -> Double.isDouble (inject_Z n + (1 # 2)).
Proof.
  intros Hn. unfold Double.isDouble.
  assert (E : (inject_Z n + (1 # 2) == inject_Z (2 * n + 1) * 2 ^ (-1))%Q).
  { rewrite inject_Z_plus, inject_Z_mult. change (2 ^ (-1))%Q with (1 # 2)%Q.
    change (inject_Z 2) with 2%Q. change (inject_Z 1) with 1%Q. ring. }
  rewrite (fl_comp _ _ E), fl_scale, fl_Z by lia. rewrite E. reflexivity.
Qed.

(** The integer nearest to [x] when [x] is not halfway. *)
Lemma round_half_even_below x f :
  (inject_Z f <= x < inject_Z f + (1 # 2))%Q -> Num.round_half_even x = f.
Proof.
  intros [H1 H2].
  assert (Hf : Qfloor x = f).
  { pose proof (Qfloor_le x) as Ha. pose proof (Qlt_floor x) as Hb.
    rewrite inject_Z_plus in Hb. change (inject_Z 1) with 1%Q in Hb.
    assert (Hlo : f <= Qfloor x) by (rewrite <- (Qfloor_Z f); now apply Qfloor_resp_le).
    assert (Hhi : Qfloor x < f + 1).
    { rewrite Zlt_Qlt, inject_Z_plus. change (inject_Z 1) with 1%Q. lra. }
    lia. }
  unfold Num.round_half_even. rewrite Hf.
  destruct (Qcompare_spec (x - inject_Z f) (1 # 2)); [exfalso; lra | reflexivity | exfalso; lra].
Qed.

Lemma round_half_even_above x f :
  (inject_Z f + (1 # 2) < x <= inject_Z f + 1)%Q -> Num.round_half_even x = f + 1.
Proof.
  intros [H1 H2].
  destruct (Qle_lt_or_eq _ _ H2) as [Hlt | Heq].
  - assert (Hf : Qfloor x = f).
    { pose proof (Qfloor_le x) as Ha. pose proof (Qlt_floor x) as Hb.
      rewrite inject_Z_plus in Hb. change (inject_Z 1) with 1%Q in Hb.
      assert (Hlo : f <= Qfloor x)
        by (rewrite <- (Qfloor_Z f); apply Qfloor_resp_le; lra).
      assert (Hhi : Qfloor x < f + 1).
      { rewrite Zlt_Qlt, inject_Z_plus. change (inject_Z 1) with 1%Q. lra. }
      lia. }
    unfold Num.round_half_even. rewrite Hf.
    destruct (Qcompare_spec (x - inject_Z f) (1 # 2)); [exfalso; lra | exfalso; lra | reflexivity].
  - assert (E : (x == inject_Z (f + 1))%Q)
      by (rewrite inject_Z_plus; change (inject_Z 1) with 1%Q; exact Heq).
    rewrite (round_half_even_comp _ _ E). apply round_half_even_Z.
Qed.

(** Rounding a quotient of integers to a double first does not change the
    integer it rounds to. *)
Lemma round_half_even_fl s c :
  0 <= s < 2 ^ 52 -> 0 < c ->
  Num.round_half_even (Double.fl (inject_Z s / inject_Z c)) =
  Num.round_half_even (inject_Z s / inject_Z c).
Proof.
  intros Hs Hc.
  set (q := (inject_Z s / inject_Z c)%Q).
  assert (HcQ : (0 < inject_Z c)%Q) by (unfold Qlt; cbn; lia).
  assert (Hc1 : (1 <= inject_Z c)%Q) by (unfold Qle; cbn; lia).
  assert (HsQ : (0 <= inject_Z s)%Q) by (unfold Qle; cbn; lia).
  assert (Hs52 : (inject_Z s < inject_Z (2 ^ 52))%Q) by (rewrite <- Zlt_Qlt; lia).
  assert (Hq0 : (0 <= q)%Q) by (apply Qle_shift_div_l; [exact HcQ | lra]).
  assert (Hqc : (q * inject_Z c == inject_Z s)%Q) by (unfold q; field; lra).
  set (f := Qfloor q).
  pose proof (Qfloor_le q) as Hf1. pose proof (Qlt_floor q) as Hf2. fold f in Hf1, Hf2.
  rewrite inject_Z_plus in Hf2. change (inject_Z 1) with 1%Q in Hf2.
  assert (Hf0 : 0 <= f).
  { subst f. change 0 with (Qfloor 0). now apply Qfloor_resp_le. }
  assert (Hfs : f <= s) by (rewrite Zle_Qle; nra).
  pose proof (fl_error q Hq0) as [He1 He2].
  assert (Hfd : Double.isDouble (inject_Z f)) by (apply isDouble_Z; lia).
  assert (Hf1d : Double.isDouble (inject_Z (f + 1))) by (apply isDouble_Z; lia).
  pose proof (fl_ge_double _ q Hfd Hf1) as Hlo.
  pose proof (fl_le_double (inject_Z (f + 1)) q Hf1d) as Hhi.
  rewrite inject_Z_plus in Hhi. change (inject_Z 1) with 1%Q in Hhi.
  specialize (Hhi ltac:(lra)).
  (* the integers 2 s and (2 f + 1) c *)
  destruct (Z.lt_trichotomy (2 * s) ((2 * f + 1) * c)) as [Hlt | [Heq | Hgt]].
  - (* below the half *)
    assert (H : (2 * inject_Z s + 1 <= (2 * inject_Z f + 1) * inject_Z c)%Q).
    { change 2%Q with (inject_Z 2). change 1%Q with (inject_Z 1).
      rewrite <- !inject_Z_mult, <- !inject_Z_plus, <- inject_Z_mult, <- Zle_Qle. lia. }
    assert (Hq : (q < inject_Z f + (1 # 2))%Q) by nra.
    rewrite (round_half_even_below q f) by lra.
    apply round_half_even_below. split; [exact Hlo |].
    unfold Double.eps in He2. change (inject_Z (2 ^ 52)) with 4503599627370496%Q in Hs52. nra.
  - (* halfway *)
    assert (E : (q == inject_Z f + (1 # 2))%Q).
    { assert (H : (2 * inject_Z s == (2 * inject_Z f + 1) * inject_Z c)%Q).
      { change 2%Q with (inject_Z 2). change 1%Q with (inject_Z 1).
        rewrite <- !inject_Z_mult, <- !inject_Z_plus, <- inject_Z_mult. now rewrite Heq. }
      nra. }
    apply round_half_even_comp. rewrite (fl_comp _ _ E). rewrite E.
    apply isDouble_half. lia.
  - (* above the half *)
    assert (H : ((2 * inject_Z f + 1) * inject_Z c + 1 <= 2 * inject_Z s)%Q).
    { change 2%Q with (inject_Z 2). change 1%Q with (inject_Z 1).
      rewrite <- !inject_Z_mult, <- !inject_Z_plus, <- inject_Z_mult, <- inject_Z_plus, <- Zle_Qle. lia. }
    assert (Hq : (inject_Z f + (1 # 2) < q)%Q) by nra.
    rewrite (round_half_even_above q f) by lra.
    apply round_half_even_above. split; [| exact Hhi].
    unfold Double.eps in He1. change (inject_Z (2 ^ 52)) with 4503599627370496%Q in Hs52. nra.
Qed.

(** The byte stored for a quotient [s / c] of the fill or the blur is the
    byte of the double that holds the quotient. *)
Lemma ToUint8Clamp_on_doubles s c :
  0 <= s < 2 ^ 52 -> 0 <= c ->
  Num.ToUint8Clamp (option_map Double.fl (Num.div (Some s) c)) =
  Num.ToUint8Clamp (Num.div (Some s) c).
Proof.
  intros Hs Hc. unfold Num.div. destruct (Z.eqb_spec c 0) as [E | NE]; [reflexivity |].
  cbn [option_map Num.ToUint8Clamp]. rewrite round_half_even_fl by lia. reflexivity.
Qed.

(** ** The double [0.01] *)

Lemma d0_01_value : (Preview.d0_01 == 5764607523034235 # 576460752303423488)%Q.
Proof. vm_compute. reflexivity. Qed.

Lemma d0_01_above : (1 # 100 < Preview.d0_01)%Q.
Proof. rewrite d0_01_value. reflexivity. Qed.

(** * The canvas *)

Lemma length_flat_map_const {A B : Type} (f : A -> list B) n l :
  (forall a, length (f a) = n) -> length (flat_map f l) = (n * length l)%nat.
Proof.
  intros H. induction l as [| a l IH]; cbn [flat_map length]; [lia |].
  rewrite length_app, H, IH. lia.
Qed.

Lemma getImageData_zero c sx sy sw sh :
  sw = 0 \/ sh = 0 -> getImageData c sx sy sw sh = inl IndexSizeError.
Proof.
  intros H. unfold getImageData.
  replace ((sw =? 0) || (sh =? 0)) with true; [reflexivity |].
  symmetry. apply orb_true_iff. rewrite !Z.eqb_eq. exact H.
Qed.

Lemma getImageData_ok c sx sy sw sh :
  sw <> 0 -> sh <> 0 ->
  exists img,
    getImageData c sx sy sw sh = inr img /\
    id_width img = Z.abs sw /\ id_height img = Z.abs sh /\
    dataLength (id_data img) = 4 * (Z.abs sw * Z.abs sh).
Proof.
  intros Hw Hh. unfold getImageData.
  replace ((sw =? 0) || (sh =? 0)) with false
    by (symmetry; apply orb_false_iff; rewrite !Z.eqb_neq; tauto).
  eexists. split; [reflexivity |]. cbn [id_width id_height id_data].
  split; [reflexivity |]. split; [reflexivity |].
  unfold dataLength. rewrite (length_flat_map_const _ 4%nat) by reflexivity.
  rewrite length_nest. pose proof (length_zrange (sy + Z.min 0 sh) (sy + Z.min 0 sh + Z.abs sh)).
  pose proof (length_zrange (sx + Z.min 0 sw) (sx + Z.min 0 sw + Z.abs sw)). nia.
Qed.

Lemma canvasPixel_putImageData c img dx dy px py :
  canvasPixel (putImageData c img dx dy) px py =
  if inCanvas c px py then
    if inRect dx dy (id_width img) (id_height img) px py
    then imagePixel img (px - dx) (py - dy)
    else cv_pixel c px py
  else transparentBlack.
Proof. reflexivity. Qed.

Lemma inRect_true x y w h px py :
  inRect x y w h px py = true <-> x <= px < x + w /\ y <= py < y + h.
Proof. unfold inRect. rewrite !andb_true_iff, !Z.leb_le, !Z.ltb_lt. lia. Qed.

Lemma inCanvas_true c px py :
  inCanvas c px py = true <-> 0 <= px < cv_width c /\ 0 <= py < cv_height c.
Proof. unfold inCanvas. rewrite !andb_true_iff, !Z.leb_le, !Z.ltb_lt. lia. Qed.

(** * The white fill *)

Lemma fillWhite_stores data :
  fillWhite data =
  storeLoop (fun i => i) (fun _ _ => Some 255%Q)
    (steps 0 4 (Z.to_nat ((dataLength data + 3) / 4))) data.
Proof.
  unfold fillWhite. rewrite For_steps by lia.
  replace (dataLength data - 0 + 4 - 1) with (dataLength data + 3) by lia.
  reflexivity.
Qed.

Lemma rd_fillWhite data n i :
  dataLength data = 4 * n -> 0 <= i < 4 * n -> rd (fillWhite data) i = Some 255.
Proof.
  intros Hlen Hi. rewrite fillWhite_stores, Hlen.
  replace ((4 * n + 3) / 4) with n by (apply Z.div_unique with 3; lia).
  pose proof (Z.div_mod i 4 ltac:(lia)) as Hdm.
  pose proof (Z.mod_pos_bound i 4 ltac:(lia)) as Hm.
  replace i with (4 * (i / 4) + i mod 4) at 1 by lia.
  rewrite (rd_store_loop (fun i => i) (fun _ _ => Some 255%Q) _ (4 * (i / 4))).
  - reflexivity.
  - apply in_steps. exists (Z.to_nat (i / 4)). lia.
  - reflexivity.
  - intros a Ha. apply in_steps in Ha as (j & Hj & ->). lia.
  - lia.
  - lia.
  - lia.
Qed.

Lemma imagePixel_fillWhite w h data ix iy :
  dataLength data = 4 * (w * h) -> 0 <= ix < w -> 0 <= iy < h ->
  imagePixel {| id_width := w; id_height := h; id_data := fillWhite data |} ix iy = opaqueWhite.
Proof.
  intros Hlen Hx Hy. unfold imagePixel, byteAt. cbn [id_width id_data].
  rewrite !(rd_fillWhite data (w * h)) by (assumption || nia). reflexivity.
Qed.

(** * inpaintRegion *)

Lemma inpaintRegion_zero random c k x y width height :
  width = 0 \/ height = 0 ->
  inpaintRegion random c k x y width height = inl IndexSizeError.
Proof. intros H. unfold inpaintRegion. now rewrite getImageData_zero. Qed.

(** With a width and a height other than 0 the call returns, and what it
    puts back is the block of [inpaintData]. *)
Lemma inpaintRegion_ok random c k x y width height :
  width <> 0 -> height <> 0 ->
  exists img,
    getImageData c x y width height = inr img /\
    dataLength (id_data img) = 4 * (Z.abs width * Z.abs height) /\
    inpaintRegion random c k x y width height =
    inr (putImageData c
           {| id_width := Z.abs width; id_height := Z.abs height;
              id_data := fst (inpaintData random c k x y width height (id_data img)) |} x y,
         snd (inpaintData random c k x y width height (id_data img))).
Proof.
  intros Hw Hh. destruct (getImageData_ok c x y width height Hw Hh) as (img & Hg & Hiw & Hih & Hlen).
  exists img. split; [assumption |]. split; [assumption |].
  unfold inpaintRegion. rewrite Hg, Hiw, Hih.
  destruct (inpaintData random c k x y width height (id_data img)). reflexivity.
Qed.

Lemma inpaintRegion_size random c k x y width height :
  cv_width (canvasAfter c (inpaintRegion random c k x y width height)) = cv_width c /\
  cv_height (canvasAfter c (inpaintRegion random c k x y width height)) = cv_height c.
Proof.
  unfold inpaintRegion. destruct (getImageData c x y width height); [now split |].
  destruct (inpaintData _ _ _ _ _ _ _ _). now split.
Qed.

(** Only the rectangle of the call can change. *)
Lemma inpaintRegion_frame random c k x y width height px py :
  0 <= width -> 0 <= height ->
  inRect x y width height px py = false ->
  canvasPixel (canvasAfter c (inpaintRegion random c k x y width height)) px py =
  canvasPixel c px py.
Proof.
  intros Hw Hh Hout.
  destruct (Z.eq_dec width 0) as [Hw0 | Hw0];
    [rewrite inpaintRegion_zero by (left; exact Hw0); reflexivity |].
  destruct (Z.eq_dec height 0) as [Hh0 | Hh0];
    [rewrite inpaintRegion_zero by (right; exact Hh0); reflexivity |].
  destruct (inpaintRegion_ok random c k x y width height Hw0 Hh0) as (img & _ & _ & ->).
  cbn [canvasAfter]. rewrite canvasPixel_putImageData. cbn [id_width id_height].
  rewrite !Z.abs_eq by lia. rewrite Hout. reflexivity.
Qed.

(** With an empty pool the rectangle of the call becomes opaque white. *)
Lemma inpaintRegion_white random c k x y width height :
  surroundingPixelsOf c x y width height = [] ->
  (width <> 0 -> height <> 0 ->
   exists c', inpaintRegion random c k x y width height = inr (c', k)) /\
  (forall px py,
     inRect x y width height px py = true -> inCanvas c px py = true ->
     canvasPixel (canvasAfter c (inpaintRegion random c k x y width height)) px py =
     opaqueWhite).
Proof.
  intros Hpool.
  assert (Hdata : forall data, inpaintData random c k x y width height data = (fillWhite data, k)).
  { intros data. unfold inpaintData. now rewrite Hpool. }
  split.
  - intros Hw Hh. destruct (inpaintRegion_ok random c k x y width height Hw Hh) as (img & _ & _ & ->).
    rewrite Hdata. eexists. reflexivity.
  - intros px py Hin Hcv. apply inRect_true in Hin.
    destruct (inpaintRegion_ok random c k x y width height ltac:(lia) ltac:(lia))
      as (img & _ & Hlen & ->).
    cbn [canvasAfter]. rewrite canvasPixel_putImageData, Hcv. cbn [id_width id_height].
    rewrite Hdata. cbn [fst]. rewrite !Z.abs_eq in * by lia.
    replace (inRect x y width height px py) with true by (symmetry; apply inRect_true; lia).
    apply imagePixel_fillWhite; [assumption | lia | lia].
Qed.

(** * The context pool *)

Lemma samplePixel_fold c x y l :
  forall pool,
    fold_left (fun s p => samplePixel c x y (fst p) (snd p) s) l pool =
    pool ++ map (canvasPixelP c)
              (List.filter (inCanvasP c) (map (fun p => (x + fst p, y + snd p)) l)).
Proof.
  induction l as [| p l IH]; intros pool; cbn [fold_left map List.filter].
  - now rewrite app_nil_r.
  - rewrite IH. unfold samplePixel, inCanvasP at 2, inCanvas. cbn [fst snd].
    destruct ((0 <=? x + fst p) && (x + fst p <? cv_width c) &&
              (0 <=? y + snd p) && (y + snd p <? cv_height c)).
    + cbn [map]. rewrite <- app_assoc. reflexivity.
    + reflexivity.
Qed.

(** One sampling loop appends the in-canvas pixels of its strip. *)
Lemma sampling_loop c x y lo hi lo' hi' pool :
  For lo hi 1 (fun i => For lo' hi' 1 (samplePixel c x y i)) pool =
  pool ++ map (canvasPixelP c)
            (List.filter (inCanvasP c)
               (map (fun p => (x + fst p, y + snd p)) (nest (zrange lo hi) (zrange lo' hi')))).
Proof.
  rewrite For_zrange. erewrite iterate_ext by (intros; apply For_zrange).
  rewrite (iterate_nest (samplePixel c x y)). apply samplePixel_fold.
Qed.

(** The pool holds the in-canvas pixels of the four strips, in the order of
    the loops. *)
Lemma surroundingPixelsOf_ring c x y width height :
  surroundingPixelsOf c x y width height =
  map (canvasPixelP c) (List.filter (inCanvasP c) (ring x y width height)).
Proof.
  unfold surroundingPixelsOf, ring. rewrite !sampling_loop. cbn [app].
  rewrite !filter_app, !map_app, <- !app_assoc. reflexivity.
Qed.

Lemma sampleRadiusOf_pos width height :
  0 < sampleRadiusOf width height ->
  4 * sampleRadiusOf width height <= width /\ 4 * sampleRadiusOf width height <= height.
Proof.
  unfold sampleRadiusOf. intros H.
  pose proof (Z.mul_div_le (Z.min width height) 4 ltac:(lia)). lia.
Qed.

Lemma sampleRadiusOf_small width height :
  0 <= width -> 0 <= height -> width < 4 \/ height < 4 -> sampleRadiusOf width height = 0.
Proof.
  intros Hw Hh Hs. unfold sampleRadiusOf.
  rewrite Z.div_small by lia. reflexivity.
Qed.

Lemma in_strip x y lo hi lo' hi' px py :
  In (px, py) (map (fun p => (x + fst p, y + snd p)) (nest (zrange lo hi) (zrange lo' hi'))) <->
  x + lo <= px < x + hi /\ y + lo' <= py < y + hi'.
Proof.
  rewrite in_map_iff. split.
  - intros ([i j] & Heq & Hin). cbn [fst snd] in Heq. inversion Heq; subst.
    apply in_nest in Hin. rewrite !in_zrange in Hin. lia.
  - intros H. exists (px - x, py - y). cbn [fst snd]. split; [f_equal; lia |].
    apply in_nest. rewrite !in_zrange. lia.
Qed.

Lemma NoDup_strip x y lo hi lo' hi' :
  NoDup (map (fun p => (x + fst p, y + snd p)) (nest (zrange lo hi) (zrange lo' hi'))).
Proof.
  apply Finite.Injective_map_NoDup.
  - intros [a b] [a' b'] H. cbn [fst snd] in H. inversion H. f_equal; lia.
  - apply NoDup_nest; apply NoDup_zrange.
Qed.

(** The loops visit exactly the border of thickness [sampleRadius], corners
    included. *)
Lemma in_ring x y width height px py :
  In (px, py) (ring x y width height) <->
  inRing x y width height (sampleRadiusOf width height) px py.
Proof.
  unfold ring, inRing, stripTop, stripBottom, stripLeft, stripRight.
  rewrite !in_app_iff, !in_strip.
  pose proof (sampleRadiusOf_pos width height). lia.
Qed.

(** No pixel is visited twice. *)
Lemma NoDup_ring x y width height : NoDup (ring x y width height).
Proof.
  unfold ring, stripTop, stripBottom, stripLeft, stripRight.
  pose proof (sampleRadiusOf_pos width height) as Hr.
  repeat apply NoDup_app; try apply NoDup_strip;
    intros [px py]; rewrite ?in_app_iff, !in_strip; lia.
Qed.

Lemma ring_small x y width height :
  0 <= width -> 0 <= height -> width < 4 \/ height < 4 -> ring x y width height = [].
Proof.
  intros Hw Hh Hs. destruct (ring x y width height) as [| [px py] l] eqn:E; [reflexivity |].
  assert (Hin : In (px, py) (ring x y width height)) by (rewrite E; now left).
  apply in_ring in Hin. unfold inRing in Hin.
  rewrite (sampleRadiusOf_small width height Hw Hh Hs) in Hin. lia.
Qed.

Lemma filter_nil_iff {A : Type} (f : A -> bool) l :
  List.filter f l = [] <-> forall a, In a l -> f a = false.
Proof.
  induction l as [| a l IH]; cbn [List.filter].
  - split; [intros _ ? [] | reflexivity].
  - destruct (f a) eqn:E.
    + split; [discriminate |]. intros H. specialize (H a (or_introl eq_refl)). congruence.
    + rewrite IH. split.
      * intros H b [<- | Hb]; [assumption | now apply H].
      * intros H b Hb. apply H. now right.
Qed.

(** The pool is empty exactly when no pixel of the border lies on the
    canvas. *)
Lemma pool_empty_iff c x y width height :
  surroundingPixelsOf c x y width height = [] <->
  forall px py,
    inRing x y width height (sampleRadiusOf width height) px py -> inCanvas c px py = false.
Proof.
  rewrite surroundingPixelsOf_ring. split.
  - intros H px py Hin. apply in_ring in Hin.
    destruct (List.filter (inCanvasP c) (ring x y width height)) eqn:E; [| discriminate].
    exact (proj1 (filter_nil_iff _ _) E (px, py) Hin).
  - intros H. replace (List.filter (inCanvasP c) (ring x y width height)) with (@nil (Z * Z));
      [reflexivity |].
    symmetry. apply filter_nil_iff. intros [px py] Hin. apply in_ring in Hin.
    exact (H px py Hin).
Qed.

(** A region that covers the whole canvas has an empty pool. *)
Lemma pool_empty_whole_canvas c :
  surroundingPixelsOf c 0 0 (cv_width c) (cv_height c) = [].
Proof.
  apply pool_empty_iff. intros px py (Hx & Hy & Hout).
  destruct (inCanvas c px py) eqn:E; [| reflexivity].
  apply inCanvas_true in E. lia.
Qed.

(** C6 (amended). [inpaintRegion] computes
    [sampleRadius = min(20, floor(min(width, height) / 4))] and builds its
    pool from exactly the in-canvas pixels of the border of thickness
    [sampleRadius] around the region, corners included, each of them once:
    the top and the bottom strip reach [sampleRadius] past the horizontal
    extent of the region and so hold the corners; the left and the right
    strip span the vertical extent of the region only. *)
Theorem context_pool_is_border_ring c x y width height :
  sampleRadiusOf width height =
    Z.min 20 (Qfloor (inject_Z (Z.min width height) / inject_Z 4)) /\
  surroundingPixelsOf c x y width height =
    map (canvasPixelP c) (List.filter (inCanvasP c) (ring x y width height)) /\
  (forall px py,
     In (px, py) (ring x y width height) <->
     inRing x y width height (sampleRadiusOf width height) px py) /\
  NoDup (ring x y width height) /\
  (forall px py,
     In (px, py) (stripTop x y width height (sampleRadiusOf width height) ++
                  stripBottom x y width height (sampleRadiusOf width height)) <->
     x - sampleRadiusOf width height <= px < x + width + sampleRadiusOf width height /\
     (y - sampleRadiusOf width height <= py < y \/
      y + height <= py < y + height + sampleRadiusOf width height)) /\
  (forall px py,
     In (px, py) (stripLeft x y width height (sampleRadiusOf width height) ++
                  stripRight x y width height (sampleRadiusOf width height)) <->
     (x - sampleRadiusOf width height <= px < x \/
      x + width <= px < x + width + sampleRadiusOf width height) /\
     y <= py < y + height).
Proof.
  split; [unfold sampleRadiusOf; now rewrite Zdiv_Qdiv |].
  split; [apply surroundingPixelsOf_ring |].
  split; [intros; apply in_ring |].
  split; [apply NoDup_ring |].
  split; intros px py.
  - unfold stripTop, stripBottom. rewrite in_app_iff, !in_strip. lia.
  - unfold stripLeft, stripRight. rewrite in_app_iff, !in_strip. lia.
Qed.

(** C6 (counterexample). Around the 4x4 region at (1, 1) of a 6x6 canvas the
    sample radius is 1; the pool of the source has the 20 pixels of the
    border, while four strips that all reach past the region would give 24
    entries, the corners twice. *)
Lemma pool_is_not_four_extended_strips :
  ~ Permutation (surroundingPixelsOf canvas6 1 1 4 4) (contextPoolExtended canvas6 1 1 4 4).
Proof. intros H. apply Permutation_length in H. vm_compute in H. discriminate. Qed.

(** * gaussianBlur *)

Lemma rd_byteAt data i : 0 <= i < dataLength data -> rd data i = Some (byteAt data i).
Proof.
  intros H. destruct (rd_in_range data i H) as (v & Hv & _).
  unfold byteAt. now rewrite Hv.
Qed.

Lemma byteAt_in data i : 0 <= i < dataLength data -> In (byteAt data i) data.
Proof.
  intros H. destruct (rd_in_range data i H) as (v & Hv & Hin).
  unfold byteAt. now rewrite Hv.
Qed.

Lemma filter_map_comm {A B : Type} (f : B -> bool) (g : A -> B) l :
  List.filter f (map g l) = map g (List.filter (fun a => f (g a)) l).
Proof.
  induction l as [| a l IH]; [reflexivity |].
  cbn [map List.filter]. destruct (f (g a)); cbn [map]; now rewrite IH.
Qed.

Lemma kernel_loop {St : Type} (body : Z -> St -> St) radius s :
  for_loop (Z.to_nat (2 * radius + 1)) (fun d => d <=? radius) 1 body (- radius) s =
  iterate body (zrange (- radius) (radius + 1)) s.
Proof.
  unfold zrange. replace (radius + 1 - - radius) with (2 * radius + 1) by lia.
  apply for_loop_steps; [lia | intros j Hj; apply Z.leb_le; lia | apply Z.leb_gt; lia].
Qed.

Lemma sumZ_cons v l : sumZ (v :: l) = v + sumZ l.
Proof. reflexivity. Qed.

Lemma tuple5_eq {A B C D E : Type} (a a' : A) (b b' : B) (c c' : C) (d d' : D) (e e' : E) :
  a = a' -> b = b' -> c = c' -> d = d' -> e = e' -> (a, b, c, d, e) = (a', b', c', d', e').
Proof. now intros -> -> -> -> ->. Qed.

(** The sums after a pass over the offsets [l], when every read is in
    range. *)
Lemma blurTap_fold tempData width height x y l :
  (forall t, In t l -> tapInBlock width height x y t = true ->
     0 <= ((y + fst t) * width + (x + snd t)) * 4 /\
     ((y + fst t) * width + (x + snd t)) * 4 + 3 < dataLength tempData) ->
  forall r g b a count,
    fold_left (fun acc t => blurTap tempData width height x y (fst t) (snd t) acc) l
      (Some r, Some g, Some b, Some a, count) =
    let taps := List.filter (tapInBlock width height x y) l in
    let value ch t := byteAt tempData (((y + fst t) * width + (x + snd t)) * 4 + ch) in
    (Some (r + sumZ (map (value 0) taps)), Some (g + sumZ (map (value 1) taps)),
     Some (b + sumZ (map (value 2) taps)), Some (a + sumZ (map (value 3) taps)),
     count + Z.of_nat (length taps)).
Proof.
  induction l as [| t l IH]; intros Hrange r g b a count.
  - cbn. apply tuple5_eq; [f_equal; lia | f_equal; lia | f_equal; lia | f_equal; lia | lia].
  - cbn [fold_left List.filter]. unfold blurTap at 2.
    change ((0 <=? x + snd t) && (x + snd t <? width) && (0 <=? y + fst t) && (y + fst t <? height))
      with (tapInBlock width height x y t).
    assert (Hl : forall t', In t' l -> tapInBlock width height x y t' = true ->
              0 <= ((y + fst t') * width + (x + snd t')) * 4 /\
              ((y + fst t') * width + (x + snd t')) * 4 + 3 < dataLength tempData)
      by (intros; apply Hrange; [now right | assumption]).
    destruct (tapInBlock width height x y t) eqn:Hin.
    + destruct (Hrange t (or_introl eq_refl) Hin) as [H0 H3].
      rewrite !rd_byteAt by lia. cbn [Num.add]. rewrite (IH Hl).
      cbn zeta. cbn [map length]. rewrite !sumZ_cons, !Z.add_0_r.
      apply tuple5_eq; [f_equal; lia | f_equal; lia | f_equal; lia | f_equal; lia | lia].
    + apply (IH Hl).
Qed.

Lemma neighbours_taps width height radius x y :
  neighbours width height radius x y =
  map (fun t => (y + fst t, x + snd t))
    (List.filter (tapInBlock width height x y)
       (nest (zrange (- radius) (radius + 1)) (zrange (- radius) (radius + 1)))).
Proof.
  unfold neighbours.
  replace (zrange (y - radius) (y + radius + 1))
    with (map (fun a => y + a) (zrange (- radius) (radius + 1))).
  2: { replace (y - radius) with (- radius + y) by lia.
       replace (y + radius + 1) with (radius + 1 + y) by lia.
       rewrite zrange_shift. apply map_ext. intros; lia. }
  replace (zrange (x - radius) (x + radius + 1))
    with (map (fun a => x + a) (zrange (- radius) (radius + 1))).
  2: { replace (x - radius) with (- radius + x) by lia.
       replace (x + radius + 1) with (radius + 1 + x) by lia.
       rewrite zrange_shift. apply map_ext. intros; lia. }
  rewrite nest_map, filter_map_comm. reflexivity.
Qed.

(** The accumulators of the blur hold the sums of the neighbour values and
    their number. *)
Lemma blurSums_neighbours tempData width height radius x y :
  dataLength tempData = 4 * (width * height) ->
  blurSums tempData width height radius x y =
  (Some (sumZ (neighbourValues tempData width height radius x y 0)),
   Some (sumZ (neighbourValues tempData width height radius x y 1)),
   Some (sumZ (neighbourValues tempData width height radius x y 2)),
   Some (sumZ (neighbourValues tempData width height radius x y 3)),
   Z.of_nat (length (neighbours width height radius x y))).
Proof.
  intros Hlen. unfold blurSums. rewrite kernel_loop.
  erewrite iterate_ext by (intros; apply kernel_loop).
  rewrite (iterate_nest (blurTap tempData width height x y)), blurTap_fold.
  - cbn zeta. unfold neighbourValues. rewrite neighbours_taps, !map_map, length_map.
    cbn [fst snd]. reflexivity.
  - intros t _ Hin. unfold tapInBlock in Hin.
    rewrite !andb_true_iff, !Z.leb_le, !Z.ltb_lt in Hin. nia.
Qed.

Lemma blurPixel_store tempData width height radius y x data :
  blurPixel tempData width height radius y x data =
  store4 data ((y * width + x) * 4) (blurValue tempData width height radius (y, x)).
Proof.
  unfold blurPixel, blurValue, store4. cbn [fst snd].
  destruct (blurSums tempData width height radius x y) as [[[[r g] b] a] count].
  reflexivity.
Qed.

Lemma fold_left_pointwise {A B : Type} (f g : A -> B -> A) l s :
  (forall s' b, f s' b = g s' b) -> fold_left f l s = fold_left g l s.
Proof.
  intros H. revert s. induction l as [| b l IH]; intros s; [reflexivity |].
  cbn [fold_left]. now rewrite H, IH.
Qed.

(** The blur is one store per pixel of the block, of values computed from
    the snapshot. *)
Lemma gaussianBlur_stores data width height radius :
  gaussianBlur data width height radius =
  storeLoop (fun p => (fst p * width + snd p) * 4) (blurValue data width height radius)
    (nest (zrange 0 height) (zrange 0 width)) data.
Proof.
  unfold gaussianBlur. rewrite For_zrange.
  erewrite iterate_ext by (intros; apply For_zrange).
  rewrite (iterate_nest (blurPixel data width height radius)). unfold storeLoop.
  apply fold_left_pointwise. intros d [py px]. apply blurPixel_store.
Qed.

Lemma row_major_inj width x y x' y' :
  0 <= x < width -> 0 <= x' < width ->
  (y * width + x) * 4 = (y' * width + x') * 4 -> y = y' /\ x = x'.
Proof. intros Hx Hx' H. assert (y = y') by nia. subst. lia. Qed.

Lemma rd_gaussianBlur data width height radius x y ch :
  dataLength data = 4 * (width * height) ->
  0 <= x < width -> 0 <= y < height -> 0 <= ch < 4 ->
  rd (gaussianBlur data width height radius) ((y * width + x) * 4 + ch) =
  Some (Num.ToUint8Clamp (blurValue data width height radius (y, x) ch)).
Proof.
  intros Hlen Hx Hy Hch. rewrite gaussianBlur_stores.
  apply (rd_store_loop (fun p => (fst p * width + snd p) * 4)
           (blurValue data width height radius) _ (y, x)).
  - apply in_nest. rewrite !in_zrange. lia.
  - intros [y' x'] Hin Heq c. cbn [fst snd] in Heq.
    apply in_nest in Hin. rewrite !in_zrange in Hin.
    apply row_major_inj in Heq as [-> ->]; [reflexivity | lia | lia].
  - intros [y' x'] _. cbn [fst snd]. lia.
  - cbn [fst snd]. nia.
  - cbn [fst snd]. nia.
  - assumption.
Qed.

Lemma neighbours_self width height radius x y :
  0 <= radius -> 0 <= x < width -> 0 <= y < height ->
  In (y, x) (neighbours width height radius x y).
Proof.
  intros Hr Hx Hy. unfold neighbours. apply filter_In. split.
  - apply in_nest. rewrite !in_zrange. lia.
  - cbn [fst snd]. rewrite !andb_true_iff, !Z.leb_le, !Z.ltb_lt. lia.
Qed.

Lemma neighbourValues_bytes data width height radius x y ch v :
  dataLength data = 4 * (width * height) -> (forall u, In u data -> isByte u) ->
  0 <= ch < 4 ->
  In v (neighbourValues data width height radius x y ch) -> isByte v.
Proof.
  intros Hlen Hbytes Hch Hv. unfold neighbourValues in Hv.
  apply in_map_iff in Hv as ([ny nx] & <- & Hin). cbn [fst snd].
  unfold neighbours in Hin. apply filter_In in Hin as [_ Hin]. cbn [fst snd] in Hin.
  rewrite !andb_true_iff, !Z.leb_le, !Z.ltb_lt in Hin.
  apply Hbytes, byteAt_in. nia.
Qed.

(** C5. For every pixel of the blurred block and every channel, the value
    after the blur is the byte of the mean of the values that the snapshot
    taken before the blur holds at the pixel's neighbours inside the block
    within the 5x5 kernel, and so lies between their minimum and their
    maximum. *)
Theorem blur_stays_in_neighbour_range data width height x y ch :
  dataLength data = 4 * (width * height) ->
  (forall v, In v data -> isByte v) ->
  0 <= x < width -> 0 <= y < height -> 0 <= ch < 4 ->
  let values := neighbourValues data width height 2 x y ch in
  exists v,
    rd (gaussianBlur data width height 2) ((y * width + x) * 4 + ch) = Some v /\
    v = Num.ToUint8Clamp (Num.div (Some (sumZ values)) (Z.of_nat (length values))) /\
    minimum values <= v <= maximum values.
Proof.
  intros Hlen Hbytes Hx Hy Hch values. eexists. split; [| split; [reflexivity |]].
  - rewrite rd_gaussianBlur by assumption. unfold blurValue. cbn [fst snd].
    rewrite blurSums_neighbours by assumption.
    assert (Hl : length values = length (neighbours width height 2 x y))
      by (subst values; unfold neighbourValues; apply length_map).
    rewrite Hl. subst values.
    assert (Hc : ch = 0 \/ ch = 1 \/ ch = 2 \/ ch = 3) by lia.
    destruct Hc as [-> | [-> | [-> | ->]]]; reflexivity.
  - apply mean_byte_between.
    + subst values. unfold neighbourValues.
      pose proof (neighbours_self width height 2 x y ltac:(lia) Hx Hy) as Hself.
      destruct (neighbours width height 2 x y); [destruct Hself | discriminate].
    + intros v Hv. eapply neighbourValues_bytes; eassumption.
Qed.


Lemma blur_stays_in_neighbour_range_witness :
  exists v,
    rd (gaussianBlur twoPixels 2 1 2) ((0 * 2 + 1) * 4 + 0) = Some v /\
    v = Num.ToUint8Clamp
          (Num.div (Some (sumZ (neighbourValues twoPixels 2 1 2 1 0 0)))
             (Z.of_nat (length (neighbourValues twoPixels 2 1 2 1 0 0)))) /\
    minimum (neighbourValues twoPixels 2 1 2 1 0 0) <= v
      <= maximum (neighbourValues twoPixels 2 1 2 1 0 0).
Proof.
  apply (blur_stays_in_neighbour_range twoPixels 2 1 1 0 0).
  - reflexivity.
  - intros v Hv. unfold isByte.
    repeat (destruct Hv as [<- | Hv]; [lia |]). destruct Hv.
  - lia.
  - lia.
  - lia.
Defined.

(** * The random fill *)

Lemma randomIndex_range random k n :
  unitRandom random -> (0 < n)%nat -> 0 <= randomIndex random k n < Z.of_nat n.
Proof.
  intros Hu Hn. destruct (Hu k) as [Hd Hr]. unfold randomIndex.
  apply floorTimes_unit; [assumption | assumption | lia].
Qed.

(** Every index has a cell of the same width [1/n] in [[0, 1)], up to the
    rounding of the product at its upper end. *)
Lemma randomIndex_cell random k n j :
  unitRandom random -> (0 < n)%nat -> Z.of_nat n <= 2 ^ 53 ->
  ((inject_Z j <= random k * inject_Z (Z.of_nat n) /\
    random k * inject_Z (Z.of_nat n) * (1 + Double.eps) < inject_Z (j + 1))%Q ->
   randomIndex random k n = j) /\
  (randomIndex random k n = j ->
   (inject_Z j <= random k * inject_Z (Z.of_nat n) * (1 + Double.eps) /\
    random k * inject_Z (Z.of_nat n) < inject_Z (j + 1))%Q).
Proof.
  intros Hu Hn Hmax. destruct (Hu k) as [Hd Hr]. unfold randomIndex.
  apply floorTimes_cell; [assumption | assumption | lia].
Qed.

Lemma draw_in_pool random pool k :
  unitRandom random -> pool <> [] -> In (draw random pool k) pool.
Proof.
  intros Hu Hne. unfold draw. apply nth_In.
  assert (Hn : (0 < length pool)%nat) by (destruct pool; [contradiction | cbn; lia]).
  pose proof (randomIndex_range random k (length pool) Hu Hn). lia.
Qed.

Lemma drawSums_eq random pool k :
  drawSums random pool k =
  let draws := map (fun s => draw random pool (k + s)%nat) (seq 0 5) in
  (sumZ (map red draws), sumZ (map green draws), sumZ (map blue draws),
   sumZ (map alpha draws), (k + 5)%nat).
Proof.
  unfold drawSums. rewrite For_zrange.
  change (zrange 0 samples) with [0; 1; 2; 3; 4].
  cbn [iterate fold_left drawSample seq map sumZ fold_right]. unfold draw.
  rewrite <- !plus_n_Sm, <- !plus_n_O.
  apply tuple5_eq; lia.
Qed.

Lemma fillPixel_store random pool i data k :
  fillPixel random pool i (data, k) =
  (store4 data i
     (fun ch =>
        Num.div
          (Some (sumZ (map (channel ch) (map (fun s => draw random pool (k + s)%nat) (seq 0 5)))))
          samples),
   (k + 5)%nat).
Proof.
  unfold fillPixel. rewrite drawSums_eq. reflexivity.
Qed.

(** The fill loop is one store per pixel; the pixel number [j] uses the
    calls [k0 + 5 j], ..., [k0 + 5 j + 4] of [Math.random]. *)
Lemma fillPixel_fold random pool k0 n :
  forall a data,
    fold_left (fun st i => fillPixel random pool i st)
      (map (fun j => 0 + Z.of_nat j * 4) (seq a n)) (data, (k0 + 5 * a)%nat) =
    (storeLoop (fun j => 0 + Z.of_nat j * 4) (fillValue random pool k0) (seq a n) data,
     (k0 + 5 * (a + n))%nat).
Proof.
  induction n as [| n IH]; intros a data.
  - cbn. f_equal. lia.
  - cbn [seq map fold_left]. rewrite fillPixel_store.
    replace (k0 + 5 * a + 5)%nat with (k0 + 5 * S a)%nat by lia.
    rewrite IH. unfold storeLoop. cbn [fold_left]. f_equal; [| lia].
    f_equal. unfold fillValue, drawsOf. rewrite Nat2Z.id. reflexivity.
Qed.

Lemma fillRandom_stores random pool data k :
  fillRandom random pool data k =
  let n := Z.to_nat ((dataLength data + 3) / 4) in
  (storeLoop (fun j => 0 + Z.of_nat j * 4) (fillValue random pool k) (seq 0 n) data,
   (k + 5 * n)%nat).
Proof.
  unfold fillRandom. rewrite For_steps by lia.
  replace (dataLength data - 0 + 4 - 1) with (dataLength data + 3) by lia.
  cbn zeta. unfold iterate, steps.
  replace k with (k + 5 * 0)%nat at 1 by lia.
  rewrite fillPixel_fold. reflexivity.
Qed.

(** After the fill, before the blur, every byte of the block is the byte of
    the mean of the channel over the five draws of its pixel. *)
Lemma rd_fillRandom random pool data k n p ch :
  dataLength data = 4 * n -> 0 <= p < n -> 0 <= ch < 4 ->
  fillRandom random pool data k =
    (fst (fillRandom random pool data k), (k + 5 * Z.to_nat n)%nat) /\
  rd (fst (fillRandom random pool data k)) (4 * p + ch) =
    Some (meanByte ch (drawsOf random pool k p)).
Proof.
  intros Hlen Hp Hch. rewrite fillRandom_stores, Hlen. cbn zeta. cbn [fst].
  replace ((4 * n + 3) / 4) with n by (apply Z.div_unique with 3; lia).
  split; [reflexivity |].
  replace (4 * p) with ((fun j => 0 + Z.of_nat j * 4) (Z.to_nat p)) by lia.
  rewrite (rd_store_loop (fun j => 0 + Z.of_nat j * 4) (fillValue random pool k)).
  - unfold fillValue, meanByte. rewrite Z2Nat.id by lia. reflexivity.
  - apply in_seq. lia.
  - intros j _ Hj. assert (j = Z.to_nat p) by lia. now subst.
  - intros j _. lia.
  - lia.
  - lia.
  - assumption.
Qed.

Lemma drawsOf_in_pool random pool k p :
  unitRandom random -> pool <> [] -> Forall (fun d => In d pool) (drawsOf random pool k p).
Proof.
  intros Hu Hne. unfold drawsOf. apply Forall_forall. intros d Hd.
  apply in_map_iff in Hd as (s & <- & _). now apply draw_in_pool.
Qed.

(** A pool that is not empty comes from a region at least 4 pixels wide and
    high. *)
Lemma pool_nonempty_size c x y width height :
  surroundingPixelsOf c x y width height <> [] -> 4 <= width /\ 4 <= height.
Proof.
  intros Hne. rewrite surroundingPixelsOf_ring in Hne.
  destruct (ring x y width height) as [| [px py] l] eqn:E; [contradiction |].
  assert (Hin : In (px, py) (ring x y width height)) by (rewrite E; now left).
  apply in_ring in Hin. unfold inRing in Hin.
  pose proof (sampleRadiusOf_pos width height). lia.
Qed.

Lemma inpaintData_blur random c k x y width height data :
  surroundingPixelsOf c x y width height <> [] ->
  inpaintData random c k x y width height data =
  (gaussianBlur (fst (fillRandom random (surroundingPixelsOf c x y width height) data k))
     width height 2,
   snd (fillRandom random (surroundingPixelsOf c x y width height) data k)).
Proof.
  intros Hne. unfold inpaintData.
  destruct (surroundingPixelsOf c x y width height) as [| d pool]; [contradiction |].
  cbn [length Nat.eqb]. destruct (fillRandom random (d :: pool) data k). reflexivity.
Qed.

(** The fill loop of a selection with a pool that is not empty: each byte
    of the filled block is the mean, stored as a byte, of a channel of the
    five samples of its pixel; the block is then blurred and put back. *)
Lemma inpaintSelection_fill random c k s :
  unitRandom random ->
  let x := pixelX c s in
  let y := pixelY c s in
  let width := pixelWidth c s in
  let height := pixelHeight c s in
  let pool := surroundingPixelsOf c x y width height in
  pool <> [] ->
  exists img filled,
    getImageData c x y width height = inr img /\
    fillRandom random pool (id_data img) k =
      (filled, (k + 5 * Z.to_nat (width * height))%nat) /\
    inpaintSelection random c k s =
      inr (putImageData c
             {| id_width := width; id_height := height;
                id_data := gaussianBlur filled width height 2 |} x y,
           (k + 5 * Z.to_nat (width * height))%nat) /\
    forall p ch,
      0 <= p < width * height -> 0 <= ch < 4 ->
      Forall (fun d => In d pool) (drawsOf random pool k p) /\
      rd filled (4 * p + ch) = Some (meanByte ch (drawsOf random pool k p)).
Proof.
  intros Hu x y width height pool Hne.
  destruct (pool_nonempty_size c x y width height Hne) as [Hw Hh].
  destruct (inpaintRegion_ok random c k x y width height ltac:(lia) ltac:(lia))
    as (img & Hget & Hlen & Hrun).
  rewrite !Z.abs_eq in * by lia.
  exists img, (fst (fillRandom random pool (id_data img) k)).
  assert (Hfill : fillRandom random pool (id_data img) k =
                  (fst (fillRandom random pool (id_data img) k),
                   (k + 5 * Z.to_nat (width * height))%nat)).
  { apply (rd_fillRandom random pool (id_data img) k (width * height) 0 0); [assumption | nia | lia]. }
  split; [exact Hget |]. split; [exact Hfill |]. split.
  - unfold inpaintSelection. fold x y width height. rewrite Hrun.
    rewrite inpaintData_blur by assumption. fold pool. rewrite Hfill. reflexivity.
  - intros p ch Hp Hch. split; [now apply drawsOf_in_pool |].
    apply (rd_fillRandom random pool (id_data img) k (width * height) p ch); assumption.
Qed.

(** * Selections *)

(** C2. For every canvas and every selection, [inpaint] changes no pixel
    outside the rectangle [[x, x+width) x [y, y+height)] obtained by
    flooring each field of the selection times the image dimension: every
    such pixel has the same four bytes before and after the call (and the
    canvas keeps its size). *)
Theorem inpaint_changes_nothing_outside random c k s px py :
  0 <= cv_width c -> 0 <= cv_height c ->
  (0 <= sel_width s)%Q -> (0 <= sel_height s)%Q ->
  inRect (pixelX c s) (pixelY c s) (pixelWidth c s) (pixelHeight c s) px py = false ->
  canvasPixel (canvasAfter c (inpaintSelection random c k s)) px py = canvasPixel c px py /\
  cv_width (canvasAfter c (inpaintSelection random c k s)) = cv_width c /\
  cv_height (canvasAfter c (inpaintSelection random c k s)) = cv_height c.
Proof.
  intros Hcw Hch Hw Hh Hout. unfold inpaintSelection. split.
  - apply inpaintRegion_frame; [apply floorTimes_nonneg | apply floorTimes_nonneg |];
      assumption.
  - apply inpaintRegion_size.
Qed.

Lemma inpaint_changes_nothing_outside_witness :
  canvasPixel (canvasAfter canvas6 (inpaintSelection zeroRandom canvas6 0 innerSelection)) 5 2 =
  canvasPixel canvas6 5 2.
Proof.
  apply (inpaint_changes_nothing_outside zeroRandom canvas6 0 innerSelection 5 2).
  - vm_compute; discriminate.
  - vm_compute; discriminate.
  - vm_compute; discriminate.
  - vm_compute; discriminate.
  - vm_compute; reflexivity.
Defined.

(** C3. When the context pool of a selection is empty, [inpaint] returns
    normally (for a width and a height other than 0) and every pixel of the
    selection's rectangle that lies on the canvas is opaque white
    afterwards. *)
Theorem empty_pool_fills_white random c k s :
  surroundingPixelsOf c (pixelX c s) (pixelY c s) (pixelWidth c s) (pixelHeight c s) = [] ->
  (pixelWidth c s <> 0 -> pixelHeight c s <> 0 ->
   exists c', inpaintSelection random c k s = inr (c', k)) /\
  (forall px py,
     inRect (pixelX c s) (pixelY c s) (pixelWidth c s) (pixelHeight c s) px py = true ->
     inCanvas c px py = true ->
     canvasPixel (canvasAfter c (inpaintSelection random c k s)) px py = opaqueWhite).
Proof. intros Hpool. unfold inpaintSelection. now apply inpaintRegion_white. Qed.

Lemma empty_pool_fills_white_witness :
  canvasPixel (canvasAfter canvas1 (inpaintSelection zeroRandom canvas1 0 wholeImage)) 0 0 =
  opaqueWhite.
Proof.
  apply (empty_pool_fills_white zeroRandom canvas1 0 wholeImage); reflexivity.
Defined.

(** C9. A selection whose width or height is 0 after flooring makes
    [inpaint] fail: the first canvas call throws [IndexSizeError] (the
    out-of-bounds failure of the specification), the canvas is left as it
    was, and [removeWatermark] rejects with that exception. *)
Theorem degenerate_selection_fails random c k s :
  pixelWidth c s = 0 \/ pixelHeight c s = 0 ->
  inpaintSelection random c k s = inl IndexSizeError /\
  canvasAfter c (inpaintSelection random c k s) = c /\
  (forall rest onProgress,
     snd (removeWatermark random c (s :: rest) onProgress) = Some IndexSizeError).
Proof.
  intros H.
  assert (Hfail : forall k', inpaintSelection random c k' s = inl IndexSizeError).
  { intros k'. unfold inpaintSelection. now apply inpaintRegion_zero. }
  split; [apply Hfail |]. split; [now rewrite Hfail |].
  intros rest onProgress. unfold removeWatermark. cbn [processSelections run_canvas run_calls].
  now rewrite Hfail.
Qed.

Lemma degenerate_selection_fails_witness :
  inpaintSelection zeroRandom canvas6 0 thinSelection = inl IndexSizeError.
Proof.
  apply (degenerate_selection_fails zeroRandom canvas6 0 thinSelection).
  left. reflexivity.
Defined.

(** C10. For a selection whose rectangle is not empty and is less than 4
    pixels wide or high, the sample radius is 0, the four sampling loops
    visit no pixel, the pool is empty, and [inpaint] fills the rectangle
    with opaque white whatever the canvas holds around it. *)
Theorem small_selection_fills_white random c k s :
  0 < pixelWidth c s -> 0 < pixelHeight c s ->
  pixelWidth c s < 4 \/ pixelHeight c s < 4 ->
  sampleRadiusOf (pixelWidth c s) (pixelHeight c s) = 0 /\
  ring (pixelX c s) (pixelY c s) (pixelWidth c s) (pixelHeight c s) = [] /\
  surroundingPixelsOf c (pixelX c s) (pixelY c s) (pixelWidth c s) (pixelHeight c s) = [] /\
  (exists c', inpaintSelection random c k s = inr (c', k)) /\
  (forall px py,
     inRect (pixelX c s) (pixelY c s) (pixelWidth c s) (pixelHeight c s) px py = true ->
     inCanvas c px py = true ->
     canvasPixel (canvasAfter c (inpaintSelection random c k s)) px py = opaqueWhite).
Proof.
  intros Hw Hh Hs.
  assert (Hring : ring (pixelX c s) (pixelY c s) (pixelWidth c s) (pixelHeight c s) = [])
    by (apply ring_small; lia).
  assert (Hpool : surroundingPixelsOf c (pixelX c s) (pixelY c s)
                    (pixelWidth c s) (pixelHeight c s) = [])
    by (rewrite surroundingPixelsOf_ring, Hring; reflexivity).
  split; [apply sampleRadiusOf_small; lia |]. split; [exact Hring |]. split; [exact Hpool |].
  unfold inpaintSelection.
  destruct (inpaintRegion_white random c k _ _ _ _ Hpool) as [Hret Hwhite].
  split; [apply Hret; lia | exact Hwhite].
Qed.

Lemma small_selection_fills_white_witness :
  canvasPixel (canvasAfter canvas6 (inpaintSelection zeroRandom canvas6 0 narrowSelection)) 2 3 =
  opaqueWhite.
Proof.
  apply (small_selection_fills_white zeroRandom canvas6 0 narrowSelection);
    try reflexivity.
  left. reflexivity.
Defined.

(** * The loop of removeWatermark *)

Lemma coversPixels_same_size c c' s :
  cv_width c' = cv_width c -> cv_height c' = cv_height c ->
  coversPixels c s -> coversPixels c' s.
Proof. unfold coversPixels, pixelWidth, pixelHeight. now intros -> ->. Qed.

(** When every selection covers pixels, no call throws and the callback
    receives one value per selection, in order. *)
Lemma processSelections_progress random total rest :
  forall i st,
    Forall (coversPixels (run_canvas st)) rest ->
    exists st',
      processSelections random true total i rest st = (st', None) /\
      run_progress st' =
        run_progress st ++ map (fun j => progressValue j total) (steps i 1 (length rest)).
Proof.
  induction rest as [| s rest IH]; intros i st Hall.
  - exists st. cbn. now rewrite app_nil_r.
  - inversion Hall as [| ? ? [Hw Hh] Hrest]; subst.
    cbn [processSelections]. unfold inpaintSelection.
    destruct (inpaintRegion_ok random (run_canvas st) (run_calls st)
                (pixelX (run_canvas st) s) (pixelY (run_canvas st) s)
                (pixelWidth (run_canvas st) s) (pixelHeight (run_canvas st) s) Hw Hh)
      as (img & _ & _ & ->).
    match goal with
    | |- context [processSelections _ _ _ _ _ ?st1] =>
        destruct (IH (i + 1) st1) as (st' & Hrun & Hlog)
    end.
    + cbn [run_canvas]. eapply Forall_impl; [| exact Hrest].
      intros s'. apply coversPixels_same_size; reflexivity.
    + exists st'. split; [exact Hrun |]. rewrite Hlog. cbn [run_progress length].
      rewrite steps_succ, <- app_assoc. reflexivity.
Qed.

(** The two roundings of [(i + 1) / total * 100] move the value by less
    than [3 * 2^-53] of it. *)
Lemma progressValue_near i total :
  0 < total -> 0 <= i ->
  let exact := (inject_Z (i + 1) / inject_Z total * 100)%Q in
  (exact * (1 - 3 * Double.eps) <= progressValue i total <= exact * (1 + 3 * Double.eps))%Q.
Proof.
  intros Ht Hi. cbn zeta. unfold progressValue.
  assert (HtQ : (0 < inject_Z total)%Q) by (unfold Qlt; cbn; lia).
  assert (Ha : (0 < inject_Z (i + 1) / inject_Z total)%Q).
  { apply Qlt_shift_div_l; [exact HtQ |]. rewrite Qmult_0_l. unfold Qlt. cbn. lia. }
  set (a := (inject_Z (i + 1) / inject_Z total)%Q) in *.
  pose proof (fl_error a ltac:(lra)) as [H1 H2].
  pose proof (fl_nonneg a ltac:(lra)) as H0.
  pose proof (fl_error (Double.fl a * 100) ltac:(lra)) as [H3 H4].
  unfold Double.eps in *. split; nra.
Qed.

(** The values grow with the index as long as there are at most [2^32]
    selections, the limit of the length of an array. *)
Lemma progressValue_lt i j total :
  0 < total <= 2 ^ 32 -> 0 <= i -> i < j < total ->
  (progressValue i total < progressValue j total)%Q.
Proof.
  intros Ht Hi Hij.
  pose proof (progressValue_near i total ltac:(lia) Hi) as [_ Hup].
  pose proof (progressValue_near j total ltac:(lia) ltac:(lia)) as [Hlo _].
  cbn zeta in Hup, Hlo.
  assert (HtQ : (0 < inject_Z total)%Q) by (unfold Qlt; cbn; lia).
  set (u := (/ inject_Z total)%Q).
  assert (Hu : (1 # 4294967296 <= u)%Q).
  { unfold u. apply Qle_shift_inv_l; [exact HtQ |].
    assert (inject_Z total <= 4294967296)%Q by (unfold Qle; cbn; lia). lra. }
  assert (Ei : (inject_Z (i + 1) / inject_Z total == inject_Z (i + 1) * u)%Q) by reflexivity.
  assert (Ej : (inject_Z (j + 1) / inject_Z total == inject_Z (j + 1) * u)%Q) by reflexivity.
  rewrite Ei in Hup. rewrite Ej in Hlo.
  assert (Hgap : (inject_Z (i + 1) + 1 <= inject_Z (j + 1))%Q).
  { unfold Qle. cbn. lia. }
  assert (Hj1 : (inject_Z (j + 1) * u <= 1)%Q).
  { unfold u. apply Qle_shift_div_r; [exact HtQ |]. rewrite Qmult_1_l, <- Zle_Qle. lia. }
  assert (Hi0 : (0 < inject_Z (i + 1))%Q) by (unfold Qlt; cbn; lia).
  unfold Double.eps in *. nra.
Qed.

Lemma progressValue_last total : 0 < total -> (progressValue (total - 1) total == 100)%Q.
Proof.
  intros Ht. unfold progressValue. replace (total - 1 + 1) with total by lia.
  assert (E : (inject_Z total / inject_Z total == 1)%Q).
  { apply Qmult_inv_r. unfold Qeq. cbn. lia. }
  rewrite E. assert (E1 : (Double.fl 1 == 1)%Q) by (apply (fl_Z 1); lia).
  rewrite E1, Qmult_1_l. apply (fl_Z 100). lia.
Qed.

Lemma progress_sorted total i n :
  0 < total <= 2 ^ 32 -> 0 <= i -> i + Z.of_nat n <= total ->
  StronglySorted Qlt (map (fun j => progressValue j total) (steps i 1 n)).
Proof.
  intros Ht. revert i. induction n as [| n IH]; intros i Hi Hn; [constructor |].
  rewrite steps_succ. cbn [map]. constructor; [apply IH; lia |].
  apply Forall_forall. intros v Hv. apply in_map_iff in Hv as (j & <- & Hj).
  apply in_steps in Hj as (m & Hm & ->). apply progressValue_lt; lia.
Qed.

Lemma steps_snoc lo step n :
  steps lo step (S n) = steps lo step n ++ [lo + Z.of_nat n * step].
Proof. unfold steps. now rewrite seq_S, map_app. Qed.

Lemma last_steps (f : Z -> Q) i n d :
  last (map f (steps i 1 (S n))) d = f (i + Z.of_nat n).
Proof.
  rewrite steps_snoc, map_app. cbn [map]. rewrite last_last. f_equal. lia.
Qed.

(** C8 (amended). For every sequence of N >= 1 selections none of which
    floors to a width or a height of 0, the callback is invoked exactly N
    times, once after each selection, with the double [(index+1)/N * 100];
    the values are strictly increasing (N being at most [2^32], the limit
    of the length of an array) and the last one is 100. *)
Theorem progress_once_per_selection random img selections :
  selections <> [] ->
  Z.of_nat (length selections) <= 2 ^ 32 ->
  Forall (coversPixels img) selections ->
  let N := Z.of_nat (length selections) in
  let run := removeWatermark random img selections true in
  snd run = None /\
  run_progress (fst run) = map (fun i => progressValue i N) (zrange 0 N) /\
  length (run_progress (fst run)) = length selections /\
  StronglySorted Qlt (run_progress (fst run)) /\
  (last (run_progress (fst run)) 0 == 100)%Q.
Proof.
  intros Hne Hmax Hall N run.
  assert (HN : 0 < N) by (subst N; destruct selections; [contradiction | cbn [length]; lia]).
  destruct (processSelections_progress random N selections 0
              {| run_canvas := img; run_calls := O; run_progress := [] |} Hall)
    as (st' & Hrun & Hlog).
  cbn [run_progress app] in Hlog.
  assert (Hsteps : steps 0 1 (length selections) = zrange 0 N)
    by (unfold zrange; f_equal; lia).
  subst run. unfold removeWatermark. fold N. rewrite Hrun. cbn [fst snd].
  rewrite Hlog. split; [reflexivity |]. split; [now rewrite Hsteps |].
  split; [now rewrite length_map, length_steps |].
  split; [apply progress_sorted; lia |].
  destruct (length selections) as [| n] eqn:Hlen; [lia |].
  rewrite last_steps. rewrite <- (progressValue_last N HN).
  replace (0 + Z.of_nat n) with (N - 1) by lia. reflexivity.
Qed.

Lemma progress_once_per_selection_witness :
  run_progress (fst (removeWatermark zeroRandom canvas6 [innerSelection; narrowSelection] true)) =
  map (fun i => progressValue i 2) (zrange 0 2).
Proof.
  apply (progress_once_per_selection zeroRandom canvas6 [innerSelection; narrowSelection]).
  - discriminate.
  - vm_compute. discriminate.
  - repeat constructor; vm_compute; discriminate.
Defined.

(** C8 (counterexample). Of two selections the second of which floors to a
    width of 0, only the first is reported: the callback is invoked once,
    not twice, its last value is 50, and the run is rejected. *)
Lemma progress_stops_at_degenerate_selection :
  length mixedSelections = 2%nat /\
  run_progress (fst (removeWatermark zeroRandom canvas6 mixedSelections true)) =
    [progressValue 0 2] /\
  (progressValue 0 2 == 50)%Q /\
  snd (removeWatermark zeroRandom canvas6 mixedSelections true) = Some IndexSizeError.
Proof. split; [reflexivity |]. repeat split; vm_compute; reflexivity. Qed.

(** * Ranges kept by the inpainting *)

Lemma ToUint8Clamp_byte v : isByte (Num.ToUint8Clamp v).
Proof. unfold isByte, Num.ToUint8Clamp. destruct v; lia. Qed.

(** The byte stored for the mean of values of [[lo, hi]] lies in
    [[lo, hi]]. *)
Lemma mean_between l lo hi :
  l <> [] -> (forall v, In v l -> lo <= v <= hi) -> 0 <= lo -> hi <= 255 ->
  lo <= Num.ToUint8Clamp (Num.div (Some (sumZ l)) (Z.of_nat (length l))) <= hi.
Proof.
  intros Hne Hin H0 H255.
  assert (Hlen : 0 < Z.of_nat (length l)) by (destruct l; [contradiction | cbn [length]; lia]).
  unfold Num.div. replace (Z.of_nat (length l) =? 0) with false by (symmetry; apply Z.eqb_neq; lia).
  apply ToUint8Clamp_bounds; [assumption | assumption |].
  pose proof (sumZ_bounds l lo hi Hin) as [Hlo Hhi].
  assert (HlenQ : (0 < inject_Z (Z.of_nat (length l)))%Q)
    by (change (inject_Z 0 < inject_Z (Z.of_nat (length l)))%Q; now rewrite <- Zlt_Qlt).
  split.
  - apply Qle_shift_div_l; [assumption |]. rewrite <- inject_Z_mult, <- Zle_Qle. assumption.
  - apply Qle_shift_div_r; [assumption |]. rewrite <- inject_Z_mult, <- Zle_Qle. assumption.
Qed.

Lemma dataLength_fillRandom random pool data k :
  dataLength (fst (fillRandom random pool data k)) = dataLength data.
Proof. rewrite fillRandom_stores. cbn zeta. cbn [fst]. apply dataLength_store_loop. Qed.

Lemma dataLength_gaussianBlur data width height radius :
  dataLength (gaussianBlur data width height radius) = dataLength data.
Proof. rewrite gaussianBlur_stores. apply dataLength_store_loop. Qed.

Lemma dataLength_fillWhite data : dataLength (fillWhite data) = dataLength data.
Proof. rewrite fillWhite_stores. apply dataLength_store_loop. Qed.

(** After the fill every byte of a channel lies in the range of that
    channel over the pool. *)
Lemma fill_in_range random pool data k n p ch lo hi :
  unitRandom random -> pool <> [] ->
  (forall d, In d pool -> lo <= channel ch d <= hi) -> 0 <= lo -> hi <= 255 ->
  dataLength data = 4 * n -> 0 <= p < n -> 0 <= ch < 4 ->
  lo <= byteAt (fst (fillRandom random pool data k)) (4 * p + ch) <= hi.
Proof.
  intros Hu Hne Hpool H0 H255 Hlen Hp Hch.
  destruct (rd_fillRandom random pool data k n p ch Hlen Hp Hch) as [_ Hrd].
  unfold byteAt. rewrite Hrd. unfold meanByte.
  pose proof (mean_between (map (channel ch) (drawsOf random pool k p)) lo hi) as Hm.
  unfold Num.div in Hm. rewrite length_map in Hm.
  change (Z.of_nat (length (drawsOf random pool k p)) =? 0) with false in Hm.
  apply Hm; try assumption.
  - discriminate.
  - intros v Hv. apply in_map_iff in Hv as (d & <- & Hd). apply Hpool.
    pose proof (drawsOf_in_pool random pool k p Hu Hne) as Hall.
    rewrite Forall_forall in Hall. now apply Hall.
Qed.

(** The byte the blur stores: the byte of the mean of the neighbour
    values. *)
Lemma rd_gaussianBlur_mean data width height x y ch :
  dataLength data = 4 * (width * height) ->
  0 <= x < width -> 0 <= y < height -> 0 <= ch < 4 ->
  rd (gaussianBlur data width height 2) ((y * width + x) * 4 + ch) =
  Some (Num.ToUint8Clamp
          (Num.div (Some (sumZ (neighbourValues data width height 2 x y ch)))
             (Z.of_nat (length (neighbourValues data width height 2 x y ch))))).
Proof.
  intros Hlen Hx Hy Hch. rewrite rd_gaussianBlur by assumption.
  unfold blurValue. cbn [fst snd]. rewrite blurSums_neighbours by assumption.
  assert (Hl : length (neighbourValues data width height 2 x y ch) =
               length (neighbours width height 2 x y))
    by (unfold neighbourValues; apply length_map).
  rewrite Hl.
  assert (Hc : ch = 0 \/ ch = 1 \/ ch = 2 \/ ch = 3) by lia.
  destruct Hc as [-> | [-> | [-> | ->]]]; reflexivity.
Qed.

Lemma neighbourValues_nonempty data width height x y ch :
  0 <= x < width -> 0 <= y < height ->
  neighbourValues data width height 2 x y ch <> [].
Proof.
  intros Hx Hy. unfold neighbourValues.
  pose proof (neighbours_self width height 2 x y ltac:(lia) Hx Hy) as Hself.
  destruct (neighbours width height 2 x y); [destruct Hself | discriminate].
Qed.

(** The blur keeps every channel in the range it has over the block. *)
Lemma blur_in_range data width height x y ch lo hi :
  dataLength data = 4 * (width * height) ->
  0 <= x < width -> 0 <= y < height -> 0 <= ch < 4 ->
  0 <= lo -> hi <= 255 ->
  (forall p, 0 <= p < width * height -> lo <= byteAt data (4 * p + ch) <= hi) ->
  lo <= byteAt (gaussianBlur data width height 2) ((y * width + x) * 4 + ch) <= hi.
Proof.
  intros Hlen Hx Hy Hch H0 H255 Hall. unfold byteAt at 1 2.
  rewrite rd_gaussianBlur_mean by assumption.
  apply mean_between; try assumption.
  - now apply neighbourValues_nonempty.
  - intros v Hv. unfold neighbourValues in Hv.
    apply in_map_iff in Hv as ([ny nx] & <- & Hin). cbn [fst snd].
    unfold neighbours in Hin. apply filter_In in Hin as [_ Hin]. cbn [fst snd] in Hin.
    rewrite !andb_true_iff, !Z.leb_le, !Z.ltb_lt in Hin.
    replace ((ny * width + nx) * 4 + ch) with (4 * (ny * width + nx) + ch) by lia.
    apply Hall. nia.
Qed.

Lemma channel_imagePixel img ix iy ch :
  0 <= ch < 4 ->
  channel ch (imagePixel img ix iy) =
  byteAt (id_data img) ((iy * id_width img + ix) * 4 + ch).
Proof.
  intros Hch. unfold imagePixel.
  assert (Hc : ch = 0 \/ ch = 1 \/ ch = 2 \/ ch = 3) by lia.
  destruct Hc as [-> | [-> | [-> | ->]]]; cbn; rewrite ?Z.add_0_r; reflexivity.
Qed.

(** The pixel that [inpaintRegion] leaves at a place of its rectangle on the
    canvas, for a pool that is not empty. *)
Lemma inpaintRegion_blurred random c k x y width height px py :
  surroundingPixelsOf c x y width height <> [] ->
  inRect x y width height px py = true -> inCanvas c px py = true ->
  exists img,
    getImageData c x y width height = inr img /\
    dataLength (id_data img) = 4 * (width * height) /\
    canvasPixel (canvasAfter c (inpaintRegion random c k x y width height)) px py =
    imagePixel
      {| id_width := width; id_height := height;
         id_data :=
           gaussianBlur
             (fst (fillRandom random (surroundingPixelsOf c x y width height) (id_data img) k))
             width height 2 |} (px - x) (py - y).
Proof.
  intros Hne Hin Hcv.
  destruct (pool_nonempty_size c x y width height Hne) as [Hw Hh].
  destruct (inpaintRegion_ok random c k x y width height ltac:(lia) ltac:(lia))
    as (img & Hget & Hlen & ->).
  rewrite !Z.abs_eq in * by lia. exists img. split; [assumption |]. split; [assumption |].
  cbn [canvasAfter]. rewrite canvasPixel_putImageData, Hcv. cbn [id_width id_height].
  rewrite Hin, inpaintData_blur by assumption. reflexivity.
Qed.

Lemma inpaintRegion_in_range random c k x y width height ch lo hi px py :
  unitRandom random ->
  surroundingPixelsOf c x y width height <> [] ->
  (forall d, In d (surroundingPixelsOf c x y width height) -> lo <= channel ch d <= hi) ->
  0 <= lo -> hi <= 255 -> 0 <= ch < 4 ->
  inRect x y width height px py = true -> inCanvas c px py = true ->
  lo <= channel ch (canvasPixel (canvasAfter c (inpaintRegion random c k x y width height)) px py)
     <= hi.
Proof.
  intros Hu Hne Hpool H0 H255 Hch Hin Hcv.
  destruct (inpaintRegion_blurred random c k x y width height px py Hne Hin Hcv)
    as (img & _ & Hlen & ->).
  apply inRect_true in Hin.
  rewrite channel_imagePixel by assumption. cbn [id_width id_data].
  apply blur_in_range; try assumption; try lia.
  - now rewrite dataLength_fillRandom.
  - intros p Hp. eapply fill_in_range; eassumption.
Qed.


(** X1. With a pool that is not empty, every channel of every pixel that
    [inpaintRegion] writes lies in the range that channel has over the pool:
    the fill takes means of pool entries and the blur takes means of the
    fill. *)
Theorem inpaint_stays_in_pool_range random c k x y width height ch lo hi px py :
  unitRandom random ->
  surroundingPixelsOf c x y width height <> [] ->
  (forall d, In d (surroundingPixelsOf c x y width height) -> lo <= channel ch d <= hi) ->
  0 <= lo -> hi <= 255 -> 0 <= ch < 4 ->
  inRect x y width height px py = true -> inCanvas c px py = true ->
  lo <= channel ch (canvasPixel (canvasAfter c (inpaintRegion random c k x y width height)) px py)
     <= hi.
Proof. intros. now apply inpaintRegion_in_range. Qed.

Lemma cycleRandom_unit : unitRandom cycleRandom.
Proof.
  intros k. unfold cycleRandom.
  pose proof (Nat.mod_upper_bound k 8 ltac:(discriminate)) as Hm.
  set (m := (k mod 8)%nat) in *. clearbody m.
  destruct m as [| [| [| [| [| [| [| [| m]]]]]]]]; [| | | | | | | | lia];
    (vm_compute; split; [reflexivity | split; [discriminate | reflexivity]]).
Qed.

Lemma zeroRandom_unit : unitRandom zeroRandom.
Proof. intros k. split; [reflexivity | split; [apply Qle_refl | reflexivity]]. Qed.

(** C4 (amended). For every selection with a context pool of [n > 0]
    entries, [Math.random] being a double of [[0, 1)]:
    - each call of [Math.random] selects one pool entry, the one of index
      [floor (random * n)]; for [n] up to [2^53] the index is [j] whenever
      [random * n] lies in [[j, j + 1)], up to the rounding of the product
      at the upper end, and only then, so that the [n] entries have cells
      of the same width [1/n] and a uniform random number draws uniformly;
    - the fill loop stores for the pixel number [p] of the block, in each
      of its four channels, the byte of the mean of that channel over the
      same five entries, those selected by the calls [k + 5 p], ...,
      [k + 5 p + 4] of [Math.random], which no other pixel uses;
    - the pixel that [inpaint] leaves on the canvas is not that mean: it is
      the byte of the mean of the filled bytes of the channel over the
      neighbours of the pixel in the block, the blur of radius 2 of
      line 175. *)
Theorem inpaint_blurs_means_of_five_draws random c k s :
  unitRandom random ->
  let x := pixelX c s in
  let y := pixelY c s in
  let width := pixelWidth c s in
  let height := pixelHeight c s in
  let pool := surroundingPixelsOf c x y width height in
  let n := length pool in
  let entry t := nth (Z.to_nat (randomIndex random t n)) pool transparentBlack in
  let entries p := map (fun i => entry (k + 5 * Z.to_nat p + i)%nat) (seq 0 5) in
  pool <> [] ->
  (forall t, 0 <= randomIndex random t n < Z.of_nat n /\ In (entry t) pool) /\
  (Z.of_nat n <= 2 ^ 53 ->
   forall t j,
     ((inject_Z j <= random t * inject_Z (Z.of_nat n) /\
       random t * inject_Z (Z.of_nat n) * (1 + Double.eps) < inject_Z (j + 1))%Q ->
      randomIndex random t n = j) /\
     (randomIndex random t n = j ->
      (inject_Z j <= random t * inject_Z (Z.of_nat n) * (1 + Double.eps) /\
       random t * inject_Z (Z.of_nat n) < inject_Z (j + 1))%Q)) /\
  exists img filled,
    getImageData c x y width height = inr img /\
    fillRandom random pool (id_data img) k =
      (filled, (k + 5 * Z.to_nat (width * height))%nat) /\
    (forall p ch,
       0 <= p < width * height -> 0 <= ch < 4 ->
       rd filled (4 * p + ch) = Some (meanByte ch (entries p))) /\
    inpaintSelection random c k s =
      inr (putImageData c
             {| id_width := width; id_height := height;
                id_data := gaussianBlur filled width height 2 |} x y,
           (k + 5 * Z.to_nat (width * height))%nat) /\
    forall px py ch,
      inRect x y width height px py = true -> inCanvas c px py = true -> 0 <= ch < 4 ->
      channel ch (canvasPixel (canvasAfter c (inpaintSelection random c k s)) px py) =
      Num.ToUint8Clamp
        (Num.div (Some (sumZ (neighbourValues filled width height 2 (px - x) (py - y) ch)))
           (Z.of_nat (length (neighbourValues filled width height 2 (px - x) (py - y) ch)))).
Proof.
  intros Hu x y width height pool n entry entries Hne.
  assert (Hn : (0 < n)%nat) by (subst n; destruct pool; [contradiction | cbn; lia]).
  split; [| split].
  - intros t. split; [now apply randomIndex_range | exact (draw_in_pool random pool t Hu Hne)].
  - intros Hmax t j. now apply randomIndex_cell.
  - destruct (inpaintSelection_fill random c k s Hu Hne)
      as (img & filled & Hget & Hfill & Hrun & Hmean).
    fold x y width height pool in Hget, Hfill, Hrun, Hmean.
    exists img, filled.
    split; [exact Hget |]. split; [exact Hfill |].
    split; [intros p ch Hp Hch; exact (proj2 (Hmean p ch Hp Hch)) |].
    split; [exact Hrun |].
    intros px py ch Hin Hcv Hch.
    destruct (inpaintRegion_blurred random c k x y width height px py Hne Hin Hcv)
      as (img' & Hget' & Hlen & Hpix).
    fold pool in Hpix.
    assert (img' = img) by congruence. subst img'.
    unfold inpaintSelection. fold x y width height. rewrite Hpix, Hfill. cbn [fst].
    apply inRect_true in Hin.
    rewrite channel_imagePixel by assumption. cbn [id_width id_data].
    unfold byteAt. rewrite rd_gaussianBlur_mean; [reflexivity | | lia | lia | assumption].
    apply (f_equal fst) in Hfill. cbn [fst] in Hfill. rewrite <- Hfill.
    now rewrite dataLength_fillRandom.
Qed.

Lemma inpaint_blurs_means_of_five_draws_witness :
  randomIndex cycleRandom 1 (length (surroundingPixelsOf canvas6 1 1 4 4)) = 2.
Proof.
  destruct (inpaint_blurs_means_of_five_draws cycleRandom canvas6 0 innerSelection
              cycleRandom_unit) as (_ & Hcell & _).
  - vm_compute. discriminate.
  - apply (Hcell ltac:(vm_compute; discriminate) 1%nat 2).
    vm_compute. split; [discriminate | reflexivity].
Defined.

(** C4 (counterexample). On [canvas6], with the selection of the rows and
    columns 1-4 and the random numbers 0, 1/8, 2/8, ..., the five draws of
    the first pixel of the block have the reds 0, 20, 50, 10 and 40, of
    mean 24; after [inpaint] the pixel holds the red 20. *)
Lemma blurred_pixel_is_not_the_mean_of_its_draws :
  let pool := surroundingPixelsOf canvas6 1 1 4 4 in
  let after := canvasAfter canvas6 (inpaintSelection cycleRandom canvas6 0 innerSelection) in
  pool <> [] /\
  pixelX canvas6 innerSelection = 1 /\ pixelY canvas6 innerSelection = 1 /\
  map red (drawsOf cycleRandom pool 0 0) = [0; 20; 50; 10; 40] /\
  meanByte 0 (drawsOf cycleRandom pool 0 0) = 24 /\
  red (canvasPixel after 1 1) = 20.
Proof. vm_compute. repeat split; discriminate. Qed.

Lemma inpaint_stays_in_pool_range_witness :
  0 <= channel 1
         (canvasPixel (canvasAfter canvas6 (inpaintRegion zeroRandom canvas6 0 1 1 4 4)) 2 2)
    <= 50.
Proof.
  apply (inpaint_stays_in_pool_range zeroRandom canvas6 0 1 1 4 4 1 0 50 2 2).
  - intros k. split; [reflexivity | split; [apply Qle_refl | reflexivity]].
  - vm_compute. discriminate.
  - intros d Hd. vm_compute in Hd.
    repeat (destruct Hd as [<- | Hd]; [vm_compute; split; discriminate |]). destruct Hd.
  - lia.
  - lia.
  - lia.
  - reflexivity.
  - reflexivity.
Defined.

Lemma rgba_eq p q :
  (forall ch, 0 <= ch < 4 -> channel ch p = channel ch q) -> p = q.
Proof.
  intros H. destruct p as [r g b a], q as [r' g' b' a'].
  pose proof (H 0 ltac:(lia)) as H0. pose proof (H 1 ltac:(lia)) as H1.
  pose proof (H 2 ltac:(lia)) as H2. pose proof (H 3 ltac:(lia)) as H3.
  cbn in H0, H1, H2, H3. congruence.
Qed.

(** X2. When every pixel of the pool has the same colour, [inpaintRegion]
    fills the region with exactly that colour; in particular an opaque
    surrounding gives an opaque region. *)
Theorem uniform_pool_is_reproduced random c k x y width height v px py :
  unitRandom random ->
  surroundingPixelsOf c x y width height <> [] ->
  (forall d, In d (surroundingPixelsOf c x y width height) -> d = v) ->
  (forall ch, 0 <= ch < 4 -> isByte (channel ch v)) ->
  inRect x y width height px py = true -> inCanvas c px py = true ->
  canvasPixel (canvasAfter c (inpaintRegion random c k x y width height)) px py = v.
Proof.
  intros Hu Hne Hsame Hbyte Hin Hcv. apply rgba_eq. intros ch Hch.
  pose proof (Hbyte ch Hch) as [Hlo Hhi].
  pose proof (inpaintRegion_in_range random c k x y width height ch
                (channel ch v) (channel ch v) px py Hu Hne) as Hr.
  assert (Hpool : forall d, In d (surroundingPixelsOf c x y width height) ->
                    channel ch v <= channel ch d <= channel ch v)
    by (intros d Hd; rewrite (Hsame d Hd); lia).
  specialize (Hr Hpool Hlo Hhi Hch Hin Hcv). lia.
Qed.

Lemma uniform_pool_is_reproduced_witness :
  canvasPixel (canvasAfter greyCanvas (inpaintRegion zeroRandom greyCanvas 0 1 1 4 4)) 3 2 =
  RGBA 128 128 128 255.
Proof.
  apply (uniform_pool_is_reproduced zeroRandom greyCanvas 0 1 1 4 4 (RGBA 128 128 128 255) 3 2).
  - intros k. split; [reflexivity | split; [apply Qle_refl | reflexivity]].
  - vm_compute. discriminate.
  - intros d Hd. vm_compute in Hd.
    repeat (destruct Hd as [<- | Hd]; [reflexivity |]). destruct Hd.
  - intros ch Hch. unfold isByte, channel.
    destruct (ch =? 0), (ch =? 1), (ch =? 2); cbn; lia.
  - reflexivity.
  - reflexivity.
Defined.

(** * Bytes *)

Lemma byteAt_byte data i :
  (forall j v, rd data j = Some v -> isByte v) -> isByte (byteAt data i).
Proof.
  intros H. unfold byteAt. destruct (rd data i) as [v |] eqn:E; [eauto | unfold isByte; lia].
Qed.

(** What [inpaintData] returns holds bytes at the places of the block. *)
Lemma inpaintData_bytes random c k x y width height data px py ch :
  dataLength data = 4 * (width * height) ->
  0 <= px < width -> 0 <= py < height -> 0 <= ch < 4 ->
  isByte (byteAt (fst (inpaintData random c k x y width height data))
            ((py * width + px) * 4 + ch)).
Proof.
  intros Hlen Hx Hy Hch. unfold inpaintData.
  destruct (surroundingPixelsOf c x y width height) as [| d pool] eqn:Hpool; cbn [length Nat.eqb].
  - cbn [fst]. unfold byteAt. rewrite (rd_fillWhite data (width * height)) by (assumption || nia).
    unfold isByte. lia.
  - destruct (fillRandom random (d :: pool) data k) as [filled k'] eqn:Hfill. cbn [fst].
    unfold byteAt. rewrite rd_gaussianBlur by
      (try assumption; replace filled with (fst (fillRandom random (d :: pool) data k))
         by (now rewrite Hfill); now rewrite dataLength_fillRandom).
    apply ToUint8Clamp_byte.
Qed.

Lemma inpaintRegion_keeps_bytes random c k x y width height :
  0 <= width -> 0 <= height ->
  canvasBytes c -> canvasBytes (canvasAfter c (inpaintRegion random c k x y width height)).
Proof.
  intros Hw Hh Hc px py ch Hch.
  destruct (inRect x y width height px py) eqn:Hin.
  - apply inRect_true in Hin.
    destruct (inpaintRegion_ok random c k x y width height ltac:(lia) ltac:(lia))
      as (img & _ & Hlen & ->).
    rewrite !Z.abs_eq in * by lia.
    cbn [canvasAfter]. rewrite canvasPixel_putImageData. cbn [id_width id_height].
    destruct (inCanvas c px py); [| cbn; unfold isByte, channel; repeat destruct (_ =? _); cbn; lia].
    replace (inRect x y width height px py) with true by (symmetry; apply inRect_true; lia).
    rewrite channel_imagePixel by assumption. cbn [id_width id_data].
    apply inpaintData_bytes; (assumption || lia).
  - rewrite inpaintRegion_frame by assumption. now apply Hc.
Qed.


Lemma forwardSelection_pixels c s :
  0 <= cv_width c -> 0 <= cv_height c -> forwardSelection s ->
  0 <= pixelWidth c s /\ 0 <= pixelHeight c s.
Proof.
  intros Hw Hh [Hsw Hsh]. split; apply floorTimes_nonneg; assumption.
Qed.

Lemma pixels_same_size c c' s :
  cv_width c' = cv_width c -> cv_height c' = cv_height c ->
  pixelX c' s = pixelX c s /\ pixelY c' s = pixelY c s /\
  pixelWidth c' s = pixelWidth c s /\ pixelHeight c' s = pixelHeight c s.
Proof. unfold pixelX, pixelY, pixelWidth, pixelHeight. now intros -> ->. Qed.

(** An invariant of the canvas that every call of [inpaintSelection] on a
    forward selection keeps is kept by the loop, whether it ends or
    throws; so is the size of the canvas. *)
Lemma processSelections_invariant (P : Canvas -> Prop) random onProgress total :
  (forall c k s, 0 <= cv_width c -> 0 <= cv_height c -> forwardSelection s ->
     P c -> P (canvasAfter c (inpaintSelection random c k s))) ->
  forall rest i st,
    0 <= cv_width (run_canvas st) -> 0 <= cv_height (run_canvas st) ->
    Forall forwardSelection rest -> P (run_canvas st) ->
    let st' := fst (processSelections random onProgress total i rest st) in
    P (run_canvas st') /\
    cv_width (run_canvas st') = cv_width (run_canvas st) /\
    cv_height (run_canvas st') = cv_height (run_canvas st).
Proof.
  intros Hstep. induction rest as [| s rest IH]; intros i st Hw Hh Hall HP; cbn zeta.
  - cbn. tauto.
  - inversion Hall as [| ? ? Hs Hrest]; subst. cbn [processSelections].
    pose proof (Hstep (run_canvas st) (run_calls st) s Hw Hh Hs HP) as HP'.
    pose proof (inpaintRegion_size random (run_canvas st) (run_calls st)
                  (pixelX (run_canvas st) s) (pixelY (run_canvas st) s)
                  (pixelWidth (run_canvas st) s) (pixelHeight (run_canvas st) s)) as [Hw' Hh'].
    fold (inpaintSelection random (run_canvas st) (run_calls st) s) in Hw', Hh'.
    destruct (inpaintSelection random (run_canvas st) (run_calls st) s) as [e | [c' k']].
    + cbn. tauto.
    + cbn [canvasAfter] in HP', Hw', Hh'.
      match goal with
      | |- context [processSelections _ _ _ _ _ ?st1] =>
          specialize (IH (i + 1) st1); cbn [run_canvas] in IH
      end.
      rewrite Hw', Hh' in IH. specialize (IH Hw Hh Hrest HP'). cbn zeta in IH. exact IH.
Qed.

(** X3. A run of [removeWatermark] over forward selections leaves a canvas
    of bytes a canvas of bytes, and never changes its size, whether the run
    ends or throws. *)
Theorem removeWatermark_keeps_bytes random img selections onProgress :
  0 <= cv_width img -> 0 <= cv_height img ->
  Forall forwardSelection selections ->
  canvasBytes img ->
  let after := run_canvas (fst (removeWatermark random img selections onProgress)) in
  canvasBytes after /\ cv_width after = cv_width img /\ cv_height after = cv_height img.
Proof.
  intros Hw Hh Hall Hb. unfold removeWatermark.
  apply (processSelections_invariant canvasBytes); try assumption.
  intros c k s Hcw Hch Hs Hc. unfold inpaintSelection.
  destruct (forwardSelection_pixels c s Hcw Hch Hs).
  now apply inpaintRegion_keeps_bytes.
Qed.

Lemma greyCanvas_bytes : canvasBytes greyCanvas.
Proof.
  intros px py ch Hch. unfold canvasPixel. unfold isByte, channel.
  destruct (inCanvas greyCanvas px py); repeat destruct (_ =? _); cbn; lia.
Qed.

Lemma removeWatermark_keeps_bytes_witness :
  canvasBytes (run_canvas (fst (removeWatermark zeroRandom greyCanvas mixedSelections true))).
Proof.
  apply (removeWatermark_keeps_bytes zeroRandom greyCanvas mixedSelections true).
  - vm_compute; discriminate.
  - vm_compute; discriminate.
  - repeat constructor; vm_compute; discriminate.
  - intros px py ch Hch. unfold canvasPixel. unfold isByte, channel.
    destruct (inCanvas greyCanvas px py); repeat destruct (_ =? _); cbn; lia.
Defined.

(** * Calls of Math.random *)

Lemma inpaintRegion_calls random c k x y width height :
  width <> 0 -> height <> 0 ->
  exists c',
    inpaintRegion random c k x y width height =
    inr (c', (k + randomCalls c x y width height)%nat).
Proof.
  intros Hw Hh.
  destruct (inpaintRegion_ok random c k x y width height Hw Hh) as (img & _ & Hlen & ->).
  eexists. f_equal. f_equal. unfold randomCalls.
  destruct (surroundingPixelsOf c x y width height) as [| d pool] eqn:Hpool.
  - unfold inpaintData. rewrite Hpool. cbn. lia.
  - assert (Hne : surroundingPixelsOf c x y width height <> []) by (rewrite Hpool; discriminate).
    destruct (pool_nonempty_size c x y width height Hne) as [Hw4 Hh4].
    rewrite inpaintData_blur by assumption. cbn [snd]. rewrite Hpool.
    rewrite !Z.abs_eq in Hlen by lia.
    destruct (rd_fillRandom random (d :: pool) (id_data img) k (width * height) 0 0 Hlen
                ltac:(nia) ltac:(lia)) as [-> _].
    reflexivity.
Qed.

(** * The white fallback *)

Lemma inpaintSelection_whole_image random c k s :
  0 < cv_width c <= 2 ^ 53 -> 0 < cv_height c <= 2 ^ 53 ->
  (sel_x s == 0)%Q -> (sel_y s == 0)%Q -> (sel_width s == 1)%Q -> (sel_height s == 1)%Q ->
  exists c',
    inpaintSelection random c k s = inr (c', k) /\
    cv_width c' = cv_width c /\ cv_height c' = cv_height c /\
    forall px py, inCanvas c px py = true -> canvasPixel c' px py = opaqueWhite.
Proof.
  intros Hw Hh Hx Hy Hsw Hsh.
  assert (HX : pixelX c s = 0) by (now apply floorTimes_zero).
  assert (HY : pixelY c s = 0) by (now apply floorTimes_zero).
  assert (HW : pixelWidth c s = cv_width c) by (apply floorTimes_one; [assumption | lia]).
  assert (HH : pixelHeight c s = cv_height c) by (apply floorTimes_one; [assumption | lia]).
  unfold inpaintSelection. rewrite HX, HY, HW, HH.
  destruct (inpaintRegion_white random c k 0 0 (cv_width c) (cv_height c)
              (pool_empty_whole_canvas c)) as [Hret Hwhite].
  destruct (Hret ltac:(lia) ltac:(lia)) as (c' & Hrun).
  pose proof (inpaintRegion_size random c k 0 0 (cv_width c) (cv_height c)) as [Hcw Hch].
  rewrite Hrun in Hwhite, Hcw, Hch. cbn [canvasAfter] in Hwhite, Hcw, Hch.
  exists c'. split; [assumption |]. split; [assumption |]. split; [assumption |].
  intros px py Hin. apply Hwhite; [| assumption].
  apply inCanvas_true in Hin. apply inRect_true. lia.
Qed.

(** X4. A selection that covers the whole image ([x = y = 0],
    [width = height = 1]) turns every pixel of a canvas of positive size
    opaque white, without a call of [Math.random].  The sides of the canvas
    are integers that a double holds exactly (at most [2^53]; a canvas has
    fewer than [2^32] pixels a side). *)
Theorem whole_image_becomes_white random c k s :
  0 < cv_width c <= 2 ^ 53 -> 0 < cv_height c <= 2 ^ 53 ->
  (sel_x s == 0)%Q -> (sel_y s == 0)%Q -> (sel_width s == 1)%Q -> (sel_height s == 1)%Q ->
  exists c',
    inpaintSelection random c k s = inr (c', k) /\
    cv_width c' = cv_width c /\ cv_height c' = cv_height c /\
    forall px py, inCanvas c px py = true -> canvasPixel c' px py = opaqueWhite.
Proof. apply inpaintSelection_whole_image. Qed.

Lemma whole_image_becomes_white_witness :
  exists c',
    inpaintSelection zeroRandom canvas6 0 wholeImage = inr (c', O) /\
    cv_width c' = 6 /\ cv_height c' = 6 /\
    forall px py, inCanvas canvas6 px py = true -> canvasPixel c' px py = opaqueWhite.
Proof.
  apply (whole_image_becomes_white zeroRandom canvas6 0 wholeImage);
    first [reflexivity | vm_compute; split; [reflexivity | discriminate]].
Defined.

(** X5. The pool is empty, which is the test of line 145 for the white
    fallback, exactly when no pixel of the border of thickness
    [sampleRadius] around the region lies on the canvas. *)
Theorem white_fallback_iff_border_off_canvas c x y width height :
  surroundingPixelsOf c x y width height = [] <->
  forall px py,
    inRing x y width height (sampleRadiusOf width height) px py -> inCanvas c px py = false.
Proof. apply pool_empty_iff. Qed.

(** * Size of the pool *)

Lemma length_strip x y lo hi lo' hi' :
  Z.of_nat (length (map (fun p => (x + fst p, y + snd p)) (nest (zrange lo hi) (zrange lo' hi')))) =
  Z.max 0 (hi - lo) * Z.max 0 (hi' - lo').
Proof.
  rewrite length_map, length_nest, Nat2Z.inj_mul, !length_zrange. reflexivity.
Qed.

Lemma length_ring x y width height :
  0 <= width -> 0 <= height ->
  Z.of_nat (length (ring x y width height)) =
  2 * sampleRadiusOf width height * (width + height + 2 * sampleRadiusOf width height).
Proof.
  intros Hw Hh. unfold ring, stripTop, stripBottom, stripLeft, stripRight.
  rewrite !length_app, !Nat2Z.inj_add, !length_strip.
  assert (Hr : 0 <= sampleRadiusOf width height).
  { unfold sampleRadiusOf. pose proof (Z.div_pos (Z.min width height) 4). lia. }
  nia.
Qed.

Lemma filter_all {A : Type} (f : A -> bool) l :
  (forall a, In a l -> f a = true) -> List.filter f l = l.
Proof.
  induction l as [| a l IH]; intros H; [reflexivity |].
  cbn [List.filter]. rewrite (H a (or_introl eq_refl)), IH; [reflexivity |].
  intros; apply H; now right.
Qed.

(** X6. The pool has at most [2 r (width + height + 2 r)] entries, [r]
    being the sample radius (at most 20), and exactly that many when the
    border around the region lies on the canvas. *)
Theorem pool_size c x y width height :
  0 <= width -> 0 <= height ->
  let r := sampleRadiusOf width height in
  0 <= r <= 20 /\
  Z.of_nat (length (surroundingPixelsOf c x y width height)) <= 2 * r * (width + height + 2 * r) /\
  (0 <= x - r -> 0 <= y - r -> x + width + r <= cv_width c -> y + height + r <= cv_height c ->
   Z.of_nat (length (surroundingPixelsOf c x y width height)) = 2 * r * (width + height + 2 * r)).
Proof.
  intros Hw Hh r. rewrite surroundingPixelsOf_ring, length_map.
  pose proof (length_ring x y width height Hw Hh) as Hlen. fold r in Hlen.
  split; [| split].
  - subst r. unfold sampleRadiusOf. pose proof (Z.div_pos (Z.min width height) 4). lia.
  - rewrite <- Hlen. apply inj_le, filter_length_le.
  - intros Hx Hy Hx' Hy'. rewrite filter_all; [exact Hlen |].
    intros [px py] Hin. apply in_ring in Hin. fold r in Hin. unfold inRing in Hin.
    unfold inCanvasP. cbn [fst snd]. apply inCanvas_true. lia.
Qed.

Lemma pool_size_witness :
  Z.of_nat (length (surroundingPixelsOf canvas6 1 1 4 4)) =
  2 * sampleRadiusOf 4 4 * (4 + 4 + 2 * sampleRadiusOf 4 4).
Proof.
  apply (pool_size canvas6 1 1 4 4); vm_compute; discriminate.
Defined.

(** * The random index *)

(** X7. With [Math.random] a double of [[0, 1)] and a pool of [n] entries,
    [0 < n <= 2^53], the index [Math.floor(Math.random() * n)], computed on
    doubles, is an index of the pool and the sample drawn is an entry of the
    pool.  The index is [j] whenever the exact product lies in
    [[j, (j + 1) / (1 + 2^-53))], and when the index is [j] the exact
    product lies in [[j / (1 + 2^-53), j + 1)]: every entry has a cell of
    width [1/n], up to the rounding of the product at the upper end of the
    cell. *)
Theorem random_index_is_uniform_cell random pool k j :
  unitRandom random -> pool <> [] -> Z.of_nat (length pool) <= 2 ^ 53 ->
  let n := inject_Z (Z.of_nat (length pool)) in
  0 <= randomIndex random k (length pool) < Z.of_nat (length pool) /\
  In (draw random pool k) pool /\
  ((inject_Z j <= random k * n /\ random k * n * (1 + Double.eps) < inject_Z (j + 1))%Q ->
   randomIndex random k (length pool) = j) /\
  (randomIndex random k (length pool) = j ->
   (inject_Z j <= random k * n * (1 + Double.eps) /\ random k * n < inject_Z (j + 1))%Q).
Proof.
  intros Hu Hne Hmax. cbn zeta.
  assert (Hn : (0 < length pool)%nat) by (destruct pool; [contradiction | cbn; lia]).
  split; [now apply randomIndex_range |]. split; [now apply draw_in_pool |].
  now apply randomIndex_cell.
Qed.

Lemma random_index_is_uniform_cell_witness :
  randomIndex cycleRandom 3 (length (surroundingPixelsOf canvas6 1 1 4 4)) = 7.
Proof.
  destruct (random_index_is_uniform_cell cycleRandom (surroundingPixelsOf canvas6 1 1 4 4) 3 7)
    as (_ & _ & H & _).
  - exact cycleRandom_unit.
  - vm_compute. discriminate.
  - vm_compute. discriminate.
  - apply H. vm_compute. split; [discriminate | reflexivity].
Defined.

(** * More on the blur *)

Lemma in_neighbours width height radius x y ny nx :
  In (ny, nx) (neighbours width height radius x y) <->
  Z.max 0 (y - radius) <= ny < Z.min height (y + radius + 1) /\
  Z.max 0 (x - radius) <= nx < Z.min width (x + radius + 1).
Proof.
  unfold neighbours. rewrite filter_In, in_nest, !in_zrange. cbn [fst snd].
  rewrite !andb_true_iff, !Z.leb_le, !Z.ltb_lt. lia.
Qed.

Lemma length_neighbours width height radius x y :
  Z.of_nat (length (neighbours width height radius x y)) =
  Z.max 0 (Z.min height (y + radius + 1) - Z.max 0 (y - radius)) *
  Z.max 0 (Z.min width (x + radius + 1) - Z.max 0 (x - radius)).
Proof.
  transitivity
    (Z.of_nat (length (nest (zrange (Z.max 0 (y - radius)) (Z.min height (y + radius + 1)))
                            (zrange (Z.max 0 (x - radius)) (Z.min width (x + radius + 1)))))).
  - f_equal. apply Permutation_length, NoDup_Permutation.
    + unfold neighbours. apply NoDup_filter, NoDup_nest; apply NoDup_zrange.
    + apply NoDup_nest; apply NoDup_zrange.
    + intros [ny nx]. rewrite in_neighbours, in_nest, !in_zrange. reflexivity.
  - rewrite length_nest, Nat2Z.inj_mul, !length_zrange. reflexivity.
Qed.

(** X8. For a pixel of the block, the divisor [count] of the blur is the
    number of pixels of the 5x5 kernel that lie in the block: the product of
    the numbers of columns and of rows the kernel covers.  It is at least 1
    and at most 25, so the blur never divides by 0. *)
Theorem blur_divisor_counts_neighbours tempData width height x y :
  dataLength tempData = 4 * (width * height) ->
  0 <= x < width -> 0 <= y < height ->
  let '(_, _, _, _, count) := blurSums tempData width height 2 x y in
  count = (Z.min (width - 1) (x + 2) - Z.max 0 (x - 2) + 1) *
          (Z.min (height - 1) (y + 2) - Z.max 0 (y - 2) + 1) /\
  1 <= count <= 25.
Proof.
  intros Hlen Hx Hy. rewrite blurSums_neighbours by assumption.
  rewrite length_neighbours. split; nia.
Qed.

Lemma blur_divisor_counts_neighbours_witness :
  let '(_, _, _, _, count) := blurSums twoPixels 2 1 2 1 0 in
  count = (Z.min (2 - 1) (1 + 2) - Z.max 0 (1 - 2) + 1) *
          (Z.min (1 - 1) (0 + 2) - Z.max 0 (0 - 2) + 1) /\
  1 <= count <= 25.
Proof.
  apply (blur_divisor_counts_neighbours twoPixels 2 1 1 0); [reflexivity | lia | lia].
Defined.

Lemma rd_of_nat (data : Uint8ClampedArray) (i : nat) : rd data (Z.of_nat i) = data !! i.
Proof.
  unfold rd. destruct (Z.ltb_spec (Z.of_nat i) 0); [lia |]. now rewrite Nat2Z.id.
Qed.

(** X9. A block of one colour is a fixed point of the blur. *)
Theorem blur_fixes_uniform_block data width height v :
  0 <= width -> 0 <= height ->
  dataLength data = 4 * (width * height) ->
  (forall ch, 0 <= ch < 4 -> isByte (channel ch v)) ->
  (forall p ch, 0 <= p < width * height -> 0 <= ch < 4 ->
     rd data (4 * p + ch) = Some (channel ch v)) ->
  gaussianBlur data width height 2 = data.
Proof.
  intros Hw Hh Hlen Hbyte Hsame. apply list_eq. intros i.
  destruct (Nat.lt_ge_cases i (length data)) as [Hlt | Hge].
  - unfold dataLength in Hlen.
    pose proof (Z.div_mod (Z.of_nat i) 4 ltac:(lia)) as Hdm.
    pose proof (Z.mod_pos_bound (Z.of_nat i) 4 ltac:(lia)) as Hm.
    set (p := Z.of_nat i / 4) in *. set (ch := Z.of_nat i mod 4) in *.
    assert (Hp : 0 <= p < width * height) by (subst p; pose proof (Z.div_pos (Z.of_nat i) 4); nia).
    assert (Hwpos : 0 < width) by nia.
    pose proof (Z.div_mod p width ltac:(lia)) as Hdm'.
    pose proof (Z.mod_pos_bound p width Hwpos) as Hm'.
    assert (Hy : 0 <= p / width < height)
      by (split; [apply Z.div_pos; lia | apply Z.div_lt_upper_bound; nia]).
    rewrite <- !rd_of_nat.
    replace (Z.of_nat i) with ((p / width * width + p mod width) * 4 + ch) by nia.
    pose proof (Hbyte ch Hm) as [Hlo Hhi].
    pose proof (blur_in_range data width height (p mod width) (p / width) ch
                  (channel ch v) (channel ch v) Hlen Hm' Hy Hm Hlo Hhi) as Hr.
    assert (Hall : forall q, 0 <= q < width * height ->
                     channel ch v <= byteAt data (4 * q + ch) <= channel ch v).
    { intros q Hq. unfold byteAt. rewrite (Hsame q ch Hq Hm). lia. }
    specialize (Hr Hall). unfold byteAt in Hr.
    rewrite rd_gaussianBlur_mean in * by assumption.
    replace ((p / width * width + p mod width) * 4 + ch) with (4 * p + ch) by nia.
    rewrite (Hsame p ch Hp Hm). f_equal. lia.
  - rewrite !(proj2 (lookup_ge_None _ _)); [reflexivity | lia |].
    pose proof (dataLength_gaussianBlur data width height 2) as Hl.
    unfold dataLength in Hl. lia.
Qed.


Lemma blur_fixes_uniform_block_witness : gaussianBlur greyBlock4 2 2 2 = greyBlock4.
Proof.
  apply (blur_fixes_uniform_block greyBlock4 2 2 (RGBA 128 128 128 255)).
  - lia.
  - lia.
  - reflexivity.
  - intros ch Hch. unfold isByte, channel. repeat destruct (_ =? _); cbn; lia.
  - intros p ch Hp Hch.
    assert (Hp' : p = 0 \/ p = 1 \/ p = 2 \/ p = 3) by lia.
    assert (Hch' : ch = 0 \/ ch = 1 \/ ch = 2 \/ ch = 3) by lia.
    destruct Hp' as [-> | [-> | [-> | ->]]]; destruct Hch' as [-> | [-> | [-> | ->]]];
      reflexivity.
Defined.

(** * More on the detector *)

Lemma flat_map_emit img l :
  flat_map (emit img) l =
  map (fun p => blockSelection img (snd p) (fst p)) (List.filter (blockFlagged img) l).
Proof.
  induction l as [| p l IH]; [reflexivity |].
  cbn [flat_map List.filter]. unfold emit at 1, blockFlagged at 1.
  destruct (flagged (blockStats img (snd p) (fst p))); cbn [map app]; now rewrite IH.
Qed.

Lemma in_blockOrigins img y x :
  In (y, x) (blockOrigins img) <-> blockOrigin img x y.
Proof.
  unfold blockOrigins, blockOrigin. rewrite in_nest, !in_blockStarts. tauto.
Qed.

Lemma NoDup_blockOrigins img : NoDup (blockOrigins img).
Proof. apply NoDup_nest; apply NoDup_steps; discriminate. Qed.

(** X10. The detections are the selections of the flagged blocks in the
    order of the scan, rows top to bottom and blocks left to right; no
    selection occurs twice and there are at most as many as blocks. *)
Theorem detections_in_scan_order img :
  detectWatermarks img =
    map (fun p => blockSelection img (snd p) (fst p))
      (List.filter (blockFlagged img) (blockOrigins img)) /\
  NoDup (detectWatermarks img) /\
  (length (detectWatermarks img) <= length (blockOrigins img))%nat.
Proof.
  rewrite detectWatermarks_blocks, flat_map_emit. fold (blockOrigins img).
  split; [reflexivity |]. split.
  - apply Finite.Injective_map_NoDup_in; [| apply NoDup_filter, NoDup_blockOrigins].
    intros [y x] [y' x'] Hin Hin' Heq. cbn [fst snd] in Heq.
    apply filter_In in Hin as [Hin _]. apply in_blockOrigins in Hin as (Hx & Hy & _).
    apply blockSelection_inj in Heq as [-> ->]; [reflexivity | lia | lia].
  - rewrite length_map. apply filter_length_le.
Qed.

Lemma blockStarts_single n : 0 < n <= gridSize -> blockStarts n = [0].
Proof.
  intros Hn. unfold blockStarts, gridSize in *.
  replace ((n + 32 - 1) / 32) with 1 by (apply Z.div_unique with (n - 1); lia).
  reflexivity.
Qed.

Lemma detectWatermarks_one_block img :
  0 < id_width img <= gridSize -> 0 < id_height img <= gridSize ->
  detectWatermarks img =
    (if flagged (blockStats img 0 0) then [blockSelection img 0 0] else []) /\
  totalCount img 0 0 = id_width img * id_height img /\
  (sel_x (blockSelection img 0 0) == 0)%Q /\ (sel_y (blockSelection img 0 0) == 0)%Q /\
  (sel_width (blockSelection img 0 0) == 1)%Q /\ (sel_height (blockSelection img 0 0) == 1)%Q.
Proof.
  intros Hw Hh. split; [| split].
  - rewrite detectWatermarks_blocks, (blockStarts_single _ Hw), (blockStarts_single _ Hh).
    cbn [nest flat_map map app]. unfold emit. cbn [fst snd]. now rewrite app_nil_r.
  - unfold totalCount, blockPixels. rewrite length_nest, Nat2Z.inj_mul, !length_zrange.
    unfold gridSize in *.
    replace (Z.max 0 (Z.min (0 + 32) (id_height img) - 0)) with (id_height img) by lia.
    replace (Z.max 0 (Z.min (0 + 32) (id_width img) - 0)) with (id_width img) by lia.
    lia.
  - unfold blockSelection. cbn [sel_x sel_y sel_width sel_height].
    assert (HwQ : ~ (inject_Z (id_width img) == 0)%Q).
    { unfold Qeq. cbn. lia. }
    assert (HhQ : ~ (inject_Z (id_height img) == 0)%Q).
    { unfold Qeq. cbn. lia. }
    replace (Z.min gridSize (id_width img - 0)) with (id_width img) by lia.
    replace (Z.min gridSize (id_height img - 0)) with (id_height img) by lia.
    repeat split; field; assumption.
Qed.

(** X11. An image that is not larger than one block has one block, the whole
    image: the result is empty or the single selection with [x = y = 0] and
    [width = height = 1]. *)
Theorem small_image_is_one_block img :
  0 < id_width img <= gridSize -> 0 < id_height img <= gridSize ->
  detectWatermarks img =
    (if flagged (blockStats img 0 0) then [blockSelection img 0 0] else []) /\
  totalCount img 0 0 = id_width img * id_height img /\
  (sel_x (blockSelection img 0 0) == 0)%Q /\ (sel_y (blockSelection img 0 0) == 0)%Q /\
  (sel_width (blockSelection img 0 0) == 1)%Q /\ (sel_height (blockSelection img 0 0) == 1)%Q.
Proof. apply detectWatermarks_one_block. Qed.

Lemma small_image_is_one_block_witness :
  detectWatermarks whitePair =
  (if flagged (blockStats whitePair 0 0) then [blockSelection whitePair 0 0] else []).
Proof.
  apply (small_image_is_one_block whitePair); vm_compute; split; (reflexivity || discriminate).
Defined.

Lemma in_blockPixels img x y p :
  In p (blockPixels img x y) <->
  y <= fst p < Z.min (y + gridSize) (id_height img) /\
  x <= snd p < Z.min (x + gridSize) (id_width img).
Proof. destruct p as [py px]. unfold blockPixels. now rewrite in_nest, !in_zrange. Qed.

Lemma countIf_all {A : Type} (f : A -> bool) l :
  (forall a, In a l -> f a = true) -> countIf f l = Z.of_nat (length l).
Proof.
  induction l as [| a l IH]; intros H; [reflexivity |].
  rewrite countIf_cons, (H a (or_introl eq_refl)), IH; [cbn [length]; lia |].
  intros; apply H; now right.
Qed.

Lemma midTone_plain img p :
  midTone img p -> isTransparent img p = false /\ isExtreme img p = false.
Proof.
  intros (r & g & b & a & Hr & Hg & Hb & Ha & Hal & Hlo & Hhi).
  unfold isTransparent, isExtreme, alphaAt, luminanceAt.
  rewrite Ha, Hr, Hg, Hb. cbn [Num.ilt Num.add Num.div Z.eqb Num.gt Num.lt].
  split; [apply Z.ltb_ge; lia |].
  apply orb_false_iff. unfold Num.Qltb. cbn. split; apply Z.ltb_ge; lia.
Qed.

(** X12. An image all of whose pixels are opaque (alpha at least 200) and of
    middle brightness ([150 <= R + G + B <= 600]) yields no detection. *)
Theorem plain_image_has_no_detection img :
  (forall py px, 0 <= py < id_height img -> 0 <= px < id_width img ->
     midTone img (py, px)) ->
  detectWatermarks img = [].
Proof.
  intros Hmid. rewrite detectWatermarks_blocks, flat_map_emit. fold (blockOrigins img).
  replace (List.filter (blockFlagged img) (blockOrigins img)) with (@nil (Z * Z));
    [reflexivity |].
  symmetry. apply filter_nil_iff. intros [y x] Hin.
  apply in_blockOrigins in Hin as (Hx & Hy & _).
  unfold blockFlagged. cbn [fst snd]. rewrite blockStats_counts.
  unfold transparentCount, extremeCount.
  rewrite !countIf_none.
  - apply not_true_is_false. rewrite flagged_Z. unfold totalCount. lia.
  - intros [py px] Hp. apply in_blockPixels in Hp. cbn [fst snd] in Hp.
    apply midTone_plain, Hmid; lia.
  - intros [py px] Hp. apply in_blockPixels in Hp. cbn [fst snd] in Hp.
    apply midTone_plain, Hmid; lia.
Qed.

Lemma greyRow_midTone py px :
  0 <= py < id_height greyRow -> 0 <= px < id_width greyRow -> midTone greyRow (py, px).
Proof.
  cbn [id_height id_width greyRow]. intros Hy Hx.
  assert (py = 0) as -> by lia.
  assert (Hpx : px = 0 \/ px = 1 \/ px = 2) by lia.
  destruct Hpx as [-> | [-> | ->]];
    exists 128, 128, 128, 255; repeat split; discriminate.
Qed.

Lemma plain_image_has_no_detection_witness : detectWatermarks greyRow = [].
Proof. apply (plain_image_has_no_detection greyRow). exact greyRow_midTone. Defined.

Lemma totalCount_pos img x y : blockOrigin img x y -> 0 < totalCount img x y.
Proof.
  intros (Hx & Hy & _). unfold totalCount.
  assert (Hin : In (y, x) (blockPixels img x y))
    by (apply in_blockPixels; cbn [fst snd]; unfold gridSize; lia).
  destruct (blockPixels img x y); [contradiction | cbn [length]; lia].
Qed.

(** X13. When every pixel of the image has alpha below 200, or every pixel
    is extreme (brightness above 200 or below 50), every block of the
    partition is reported: there are as many detections as blocks. *)
Theorem marked_image_reports_every_block img :
  (forall py px, 0 <= py < id_height img -> 0 <= px < id_width img ->
     isTransparent img (py, px) = true) \/
  (forall py px, 0 <= py < id_height img -> 0 <= px < id_width img ->
     isExtreme img (py, px) = true) ->
  detectWatermarks img =
    map (fun p => blockSelection img (snd p) (fst p)) (blockOrigins img) /\
  length (detectWatermarks img) =
    (Z.to_nat ((id_height img + gridSize - 1) / gridSize) *
     Z.to_nat ((id_width img + gridSize - 1) / gridSize))%nat.
Proof.
  intros Hall.
  assert (Heq : detectWatermarks img =
    map (fun p => blockSelection img (snd p) (fst p)) (blockOrigins img)).
  { rewrite detectWatermarks_blocks, flat_map_emit. fold (blockOrigins img).
    f_equal. apply filter_all. intros [y x] Hin.
    apply in_blockOrigins in Hin as Hb. pose proof (totalCount_pos _ _ _ Hb) as Hpos.
    destruct Hb as (Hx & Hy & _).
    unfold blockFlagged. cbn [fst snd]. rewrite blockStats_counts. apply flagged_Z.
    destruct Hall as [Ht | He].
    - left. unfold transparentCount. rewrite countIf_all; [fold (totalCount img x y); lia |].
      intros [py px] Hp. apply in_blockPixels in Hp. cbn [fst snd] in Hp. apply Ht; lia.
    - right. unfold extremeCount. rewrite countIf_all; [fold (totalCount img x y); lia |].
      intros [py px] Hp. apply in_blockPixels in Hp. cbn [fst snd] in Hp. apply He; lia. }
  split; [exact Heq |].
  rewrite Heq, length_map. unfold blockOrigins, blockStarts.
  now rewrite length_nest, !length_steps.
Qed.

Lemma clearRow_transparent py px :
  0 <= py < id_height clearRow -> 0 <= px < id_width clearRow ->
  isTransparent clearRow (py, px) = true.
Proof.
  cbn [id_height id_width clearRow]. intros Hy Hx.
  assert (py = 0) as -> by lia.
  assert (Hin : In px (zrange 0 40)) by (apply in_zrange; lia).
  revert Hin. generalize px. apply Forall_forall. vm_compute.
  repeat (constructor; [reflexivity |]). constructor.
Qed.

Lemma marked_image_reports_every_block_witness :
  length (detectWatermarks clearRow) = 2%nat.
Proof.
  apply (marked_image_reports_every_block clearRow). left. exact clearRow_transparent.
Defined.

Lemma Zdiv_Q_range a b :
  0 < b -> (0 <= a -> (0 <= inject_Z a / inject_Z b)%Q) /\
           (0 < a -> (0 < inject_Z a / inject_Z b)%Q) /\
           (a < b -> (inject_Z a / inject_Z b < 1)%Q) /\
           (a <= b -> (inject_Z a / inject_Z b <= 1)%Q).
Proof.
  intros Hb.
  assert (HbQ : (0 < inject_Z b)%Q) by (unfold Qlt; cbn; lia).
  repeat split; intros Ha.
  - apply Qle_shift_div_l; [exact HbQ |]. unfold Qle. cbn. lia.
  - apply Qlt_shift_div_l; [exact HbQ |]. unfold Qlt. cbn. lia.
  - apply Qlt_shift_div_r; [exact HbQ |]. unfold Qlt. cbn. lia.
  - apply Qle_shift_div_r; [exact HbQ |]. unfold Qle. cbn. lia.
Qed.

(** X14. The coordinates of a detection are normalised: its corner lies in
    [[0, 1)] in both directions, and its width and height lie in [(0, 1]]. *)
Theorem detections_are_normalised img s :
  In s (detectWatermarks img) ->
  (0 <= sel_x s < 1 /\ 0 <= sel_y s < 1 /\
   0 < sel_width s <= 1 /\ 0 < sel_height s <= 1)%Q.
Proof.
  intros Hin. apply detect_only_blocks in Hin as (x & y & (Hx & Hy & _) & ->).
  unfold blockSelection, gridSize. cbn [sel_x sel_y sel_width sel_height].
  destruct (Zdiv_Q_range x (id_width img) ltac:(lia)) as (X1 & _ & X3 & _).
  destruct (Zdiv_Q_range y (id_height img) ltac:(lia)) as (Y1 & _ & Y3 & _).
  destruct (Zdiv_Q_range (Z.min 32 (id_width img - x)) (id_width img) ltac:(lia))
    as (_ & W2 & _ & W4).
  destruct (Zdiv_Q_range (Z.min 32 (id_height img - y)) (id_height img) ltac:(lia))
    as (_ & H2 & _ & H4).
  repeat split; first [apply X1 | apply X3 | apply Y1 | apply Y3
                      | apply W2 | apply W4 | apply H2 | apply H4]; lia.
Qed.

Lemma detections_are_normalised_witness :
  (0 <= sel_x (blockSelection whitePair 0 0) < 1 /\
   0 <= sel_y (blockSelection whitePair 0 0) < 1 /\
   0 < sel_width (blockSelection whitePair 0 0) <= 1 /\
   0 < sel_height (blockSelection whitePair 0 0) <= 1)%Q.
Proof.
  apply (detections_are_normalised whitePair). vm_compute. left. reflexivity.
Defined.

Lemma sumZ_app l1 l2 : sumZ (l1 ++ l2) = sumZ l1 + sumZ l2.
Proof. induction l1 as [| a l1 IH]; [reflexivity |]. cbn [app]. rewrite !sumZ_cons, IH. lia. Qed.

Lemma sumZ_nest_product (a b : Z -> Z) l1 l2 :
  sumZ (map (fun p => a (fst p) * b (snd p)) (nest l1 l2)) =
  sumZ (map a l1) * sumZ (map b l2).
Proof.
  induction l1 as [| u l1 IH]; [reflexivity |].
  cbn [nest flat_map]. fold (nest l1 l2).
  rewrite map_app, sumZ_app, IH, map_map. cbn [map fst snd]. rewrite sumZ_cons.
  assert (E : sumZ (map (fun x => a u * b x) l2) = a u * sumZ (map b l2)).
  { clear. induction l2 as [| v l2 IH]; [cbn; lia |]. cbn [map]. rewrite !sumZ_cons, IH. lia. }
  rewrite E. lia.
Qed.

Lemma block_sides_sum n (m : nat) :
  0 <= n -> gridSize * Z.of_nat m < n + gridSize ->
  sumZ (map (fun y => Z.max 0 (Z.min (y + gridSize) n - y)) (steps 0 gridSize m)) =
  Z.min (gridSize * Z.of_nat m) n.
Proof.
  unfold gridSize. intros Hn. induction m as [| m IH]; intros Hm; [cbn; lia |].
  rewrite steps_snoc, map_app, sumZ_app, IH by lia. cbn [map]. rewrite sumZ_cons.
  cbn [sumZ fold_right]. lia.
Qed.

Lemma block_sides_total n :
  sumZ (map (fun y => Z.max 0 (Z.min (y + gridSize) n - y)) (blockStarts n)) = Z.max 0 n.
Proof.
  unfold blockStarts.
  pose proof (Z.div_mod (n + gridSize - 1) gridSize ltac:(discriminate)) as Hd.
  pose proof (Z.mod_pos_bound (n + gridSize - 1) gridSize ltac:(reflexivity)) as Hm.
  unfold gridSize in *.
  destruct (Z.le_gt_cases n 0) as [Hn | Hn].
  - replace (Z.to_nat ((n + 32 - 1) / 32)) with O by lia. cbn. lia.
  - rewrite (block_sides_sum n) by (unfold gridSize; lia). unfold gridSize. lia.
Qed.

(** X15. The blocks partition the image: the pixel counts [totalPixels] of
    all the blocks scanned add up to the number of pixels of the image. *)
Theorem blocks_cover_image_once img :
  sumZ (map (totalPixelsOf img) (blockOrigins img)) =
  Z.max 0 (id_height img) * Z.max 0 (id_width img).
Proof.
  rewrite <- (block_sides_total (id_height img)), <- (block_sides_total (id_width img)).
  unfold blockOrigins. rewrite <- sumZ_nest_product. f_equal. apply map_ext.
  intros [y x]. unfold totalPixelsOf. cbn [fst snd]. rewrite blockStats_counts. cbn [snd].
  unfold totalCount, blockPixels.
  rewrite length_nest, Nat2Z.inj_mul, !length_zrange. reflexivity.
Qed.

(** * Whole runs of removeWatermark *)

(** A property of the canvas that every selection of the list keeps is kept
    by the loop, whether it ends or throws. *)
Lemma processSelections_preserves (P : Canvas -> Prop) (Q : WatermarkSelection -> Prop)
    random onProgress total :
  (forall c k s, Q s -> P c -> P (canvasAfter c (inpaintSelection random c k s))) ->
  forall rest i st,
    Forall Q rest -> P (run_canvas st) ->
    P (run_canvas (fst (processSelections random onProgress total i rest st))).
Proof.
  intros Hstep. induction rest as [| s rest IH]; intros i st Hall HP; [exact HP |].
  inversion Hall as [| ? ? Hs Hrest]; subst. cbn [processSelections].
  pose proof (Hstep (run_canvas st) (run_calls st) s Hs HP) as HP'.
  destruct (inpaintSelection random (run_canvas st) (run_calls st) s) as [e | [c' k']].
  - exact HP.
  - apply IH; assumption.
Qed.

Lemma processSelections_size random onProgress total rest i st :
  cv_width (run_canvas (fst (processSelections random onProgress total i rest st))) =
    cv_width (run_canvas st) /\
  cv_height (run_canvas (fst (processSelections random onProgress total i rest st))) =
    cv_height (run_canvas st).
Proof.
  apply (processSelections_preserves
           (fun c => cv_width c = cv_width (run_canvas st) /\
                     cv_height c = cv_height (run_canvas st))
           (fun _ => True)).
  - intros c k s _ [Hw Hh]. unfold inpaintSelection.
    destruct (inpaintRegion_size random c k (pixelX c s) (pixelY c s)
                (pixelWidth c s) (pixelHeight c s)) as [Hw' Hh'].
    split; congruence.
  - apply Forall_forall. trivial.
  - split; reflexivity.
Qed.

(** X16. A pixel that lies in the rectangle of no selection has after a run
    of [removeWatermark] the colour it had before, whether the run ends or
    throws. *)
Theorem run_changes_nothing_outside random img selections onProgress px py :
  0 <= cv_width img -> 0 <= cv_height img ->
  Forall forwardSelection selections ->
  Forall (outsideSelection img px py) selections ->
  canvasPixel (run_canvas (fst (removeWatermark random img selections onProgress))) px py =
  canvasPixel img px py.
Proof.
  intros Hw Hh Hfw Hout. unfold removeWatermark.
  apply (processSelections_preserves
           (fun c => (cv_width c = cv_width img /\ cv_height c = cv_height img) /\
                     canvasPixel c px py = canvasPixel img px py)
           (fun s => forwardSelection s /\ outsideSelection img px py s)).
  - intros c k s [Hs Ho] [[Hcw Hch] Hpx].
    destruct (pixels_same_size img c s Hcw Hch) as (HX & HY & HW & HH).
    destruct (forwardSelection_pixels c s ltac:(lia) ltac:(lia) Hs) as [Hpw Hph].
    unfold inpaintSelection.
    destruct (inpaintRegion_size random c k (pixelX c s) (pixelY c s)
                (pixelWidth c s) (pixelHeight c s)) as [Hw' Hh'].
    split; [split; congruence |].
    rewrite <- Hpx. apply inpaintRegion_frame; [assumption | assumption |].
    unfold outsideSelection in Ho. now rewrite HX, HY, HW, HH.
  - apply Forall_forall. intros s Hin. split.
    + exact (proj1 (Forall_forall _ _) Hfw s Hin).
    + exact (proj1 (Forall_forall _ _) Hout s Hin).
  - cbn. tauto.
Qed.

Lemma run_changes_nothing_outside_witness :
  canvasPixel (run_canvas (fst (removeWatermark zeroRandom canvas6 mixedSelections true))) 5 5 =
  canvasPixel canvas6 5 5.
Proof.
  apply (run_changes_nothing_outside zeroRandom canvas6 mixedSelections true 5 5).
  - vm_compute; discriminate.
  - vm_compute; discriminate.
  - repeat constructor; vm_compute; discriminate.
  - repeat constructor; vm_compute; reflexivity.
Defined.

Lemma processSelections_app random onProgress total l1 l2 :
  forall i st,
    processSelections random onProgress total i (l1 ++ l2) st =
    match processSelections random onProgress total i l1 st with
    | (st', None) =>
        processSelections random onProgress total (i + Z.of_nat (length l1)) l2 st'
    | (st', Some e) => (st', Some e)
    end.
Proof.
  induction l1 as [| s l1 IH]; intros i st.
  - cbn [app processSelections length]. now rewrite Z.add_0_r.
  - cbn [app processSelections].
    destruct (inpaintSelection random (run_canvas st) (run_calls st) s) as [e | [c' k']];
      [reflexivity |].
    rewrite IH. cbn [length]. now replace (i + 1 + Z.of_nat (length l1))
      with (i + Z.of_nat (S (length l1))) by lia.
Qed.

(** The canvas, the calls of [Math.random] and the exception do not depend
    on the callback, the index or the values reported so far. *)
Lemma processSelections_canvas random rest :
  forall onProgress onProgress' total total' i i' st st',
    run_canvas st = run_canvas st' -> run_calls st = run_calls st' ->
    let r := processSelections random onProgress total i rest st in
    let r' := processSelections random onProgress' total' i' rest st' in
    run_canvas (fst r) = run_canvas (fst r') /\ run_calls (fst r) = run_calls (fst r') /\
    snd r = snd r'.
Proof.
  induction rest as [| s rest IH]; intros op op' total total' i i' st st' Hc Hk; cbn zeta.
  - cbn. tauto.
  - cbn [processSelections]. rewrite <- Hc, <- Hk.
    destruct (inpaintSelection random (run_canvas st) (run_calls st) s) as [e | [c' k']].
    + cbn. rewrite Hc, Hk. tauto.
    + apply IH; reflexivity.
Qed.

Lemma removeWatermark_stops random img before s rest :
  Forall (coversPixels img) before ->
  pixelWidth img s = 0 \/ pixelHeight img s = 0 ->
  let N := Z.of_nat (length (before ++ s :: rest)) in
  let run := removeWatermark random img (before ++ s :: rest) true in
  let prefix := removeWatermark random img before true in
  snd run = Some IndexSizeError /\
  snd prefix = None /\
  run_progress (fst run) =
    map (fun i => progressValue i N) (zrange 0 (Z.of_nat (length before))) /\
  run_canvas (fst run) = run_canvas (fst prefix) /\
  run_calls (fst run) = run_calls (fst prefix).
Proof.
  intros Hcov Hdeg. cbn zeta. unfold removeWatermark.
  set (N := Z.of_nat (length (before ++ s :: rest))).
  set (st0 := {| run_canvas := img; run_calls := O; run_progress := [] |}).
  destruct (processSelections_progress random N before 0 st0 Hcov) as (st1 & Hrun & Hprog).
  destruct (processSelections_progress random (Z.of_nat (length before)) before 0 st0 Hcov)
    as (st1' & Hrun' & _).
  destruct (processSelections_canvas random before true true N (Z.of_nat (length before))
              0 0 st0 st0 eq_refl eq_refl) as (Hc & Hk & _).
  rewrite Hrun, Hrun' in Hc, Hk. cbn [fst] in Hc, Hk.
  destruct (processSelections_size random true N before 0 st0) as [Hw Hh].
  rewrite Hrun in Hw, Hh. cbn [fst] in Hw, Hh.
  rewrite processSelections_app, Hrun, Hrun'. cbn [processSelections].
  assert (Hfail : inpaintSelection random (run_canvas st1) (run_calls st1) s = inl IndexSizeError).
  { unfold inpaintSelection. apply inpaintRegion_zero.
    destruct (pixels_same_size img (run_canvas st1) s Hw Hh) as (_ & _ & -> & ->).
    exact Hdeg. }
  rewrite Hfail. cbn [fst snd].
  repeat split; try assumption.
  rewrite Hprog. cbn [run_progress st0 app]. unfold zrange. now rewrite Z.sub_0_r, Nat2Z.id.
Qed.

(** X18. The run stops at the first selection that floors to a width or a
    height of 0: the promise is rejected with the exception of
    [getImageData], the callback has been invoked once for each selection
    before it and never after, and the canvas is the one those selections
    left; the selections after it are not looked at. *)
Theorem run_stops_at_first_degenerate_selection random img before s rest :
  Forall (coversPixels img) before ->
  pixelWidth img s = 0 \/ pixelHeight img s = 0 ->
  let N := Z.of_nat (length (before ++ s :: rest)) in
  let run := removeWatermark random img (before ++ s :: rest) true in
  let prefix := removeWatermark random img before true in
  snd run = Some IndexSizeError /\
  snd prefix = None /\
  run_progress (fst run) =
    map (fun i => progressValue i N) (zrange 0 (Z.of_nat (length before))) /\
  run_canvas (fst run) = run_canvas (fst prefix) /\
  run_calls (fst run) = run_calls (fst prefix).
Proof. apply removeWatermark_stops. Qed.

Lemma run_stops_at_first_degenerate_selection_witness :
  snd (removeWatermark zeroRandom canvas6 ([innerSelection] ++ thinSelection :: [innerSelection])
         true) = Some IndexSizeError.
Proof.
  apply (run_stops_at_first_degenerate_selection zeroRandom canvas6 [innerSelection]
           thinSelection [innerSelection]).
  - repeat constructor; vm_compute; discriminate.
  - left. reflexivity.
Defined.

Lemma randomCalls_same_size c c' x y width height :
  cv_width c' = cv_width c -> cv_height c' = cv_height c ->
  randomCalls c' x y width height = randomCalls c x y width height.
Proof.
  intros Hw Hh. unfold randomCalls.
  assert (Hiff : surroundingPixelsOf c' x y width height = [] <->
                 surroundingPixelsOf c x y width height = []).
  { rewrite !pool_empty_iff. unfold inCanvas. now rewrite Hw, Hh. }
  destruct (surroundingPixelsOf c' x y width height), (surroundingPixelsOf c x y width height);
    try reflexivity.
  - destruct Hiff as [H _]. specialize (H eq_refl). discriminate.
  - destruct Hiff as [_ H]. specialize (H eq_refl). discriminate.
Qed.

Lemma processSelections_calls random onProgress total img rest :
  forall i st,
    cv_width (run_canvas st) = cv_width img -> cv_height (run_canvas st) = cv_height img ->
    Forall (coversPixels img) rest ->
    run_calls (fst (processSelections random onProgress total i rest st)) =
    (run_calls st + list_sum (map (selectionCalls img) rest))%nat.
Proof.
  induction rest as [| s rest IH]; intros i st Hw Hh Hall.
  - cbn. lia.
  - inversion Hall as [| ? ? [Hsw Hsh] Hrest]; subst. cbn [processSelections].
    destruct (pixels_same_size img (run_canvas st) s Hw Hh) as (HX & HY & HW & HH).
    unfold inpaintSelection.
    destruct (inpaintRegion_calls random (run_canvas st) (run_calls st)
                (pixelX (run_canvas st) s) (pixelY (run_canvas st) s)
                (pixelWidth (run_canvas st) s) (pixelHeight (run_canvas st) s)
                ltac:(congruence) ltac:(congruence)) as (c' & Hrun).
    pose proof (inpaintRegion_size random (run_canvas st) (run_calls st)
                (pixelX (run_canvas st) s) (pixelY (run_canvas st) s)
                (pixelWidth (run_canvas st) s) (pixelHeight (run_canvas st) s)) as [Hw' Hh'].
    rewrite Hrun in *. cbn [canvasAfter] in Hw', Hh'.
    rewrite IH by (cbn [run_canvas]; congruence). cbn [run_calls map list_sum].
    rewrite HX, HY, HW, HH, (randomCalls_same_size img (run_canvas st)) by assumption.
    unfold selectionCalls, list_sum. cbn [fold_right]. lia.
Qed.

(** X19. The calls of [Math.random] of a run that ends are fixed by the
    geometry alone: five for each pixel of each selection whose border has
    a pixel on the canvas, none for the others, whatever the colours. *)
Theorem run_random_calls random img selections onProgress :
  Forall (coversPixels img) selections ->
  run_calls (fst (removeWatermark random img selections onProgress)) =
  list_sum (map (selectionCalls img) selections).
Proof.
  intros Hall. unfold removeWatermark.
  now rewrite (processSelections_calls random onProgress _ img) by (assumption || reflexivity).
Qed.

Lemma run_random_calls_witness :
  run_calls (fst (removeWatermark zeroRandom canvas6 [innerSelection; narrowSelection] true)) =
  80%nat.
Proof.
  apply (run_random_calls zeroRandom canvas6 [innerSelection; narrowSelection] true).
  repeat constructor; vm_compute; discriminate.
Defined.

(** * Detection followed by removal *)

(** X20. On an image that is not larger than one block, removing what the
    detector reports turns every pixel opaque white, without a call of
    [Math.random]: the one selection there can be covers the whole image,
    so its border has no pixel on the canvas. *)
Theorem detected_small_image_is_whitened random c img s onProgress :
  0 < cv_width c <= gridSize -> 0 < cv_height c <= gridSize ->
  getImageData c 0 0 (cv_width c) (cv_height c) = inr img ->
  In s (detectWatermarks img) ->
  let run := removeWatermark random c [s] onProgress in
  snd run = None /\ run_calls (fst run) = O /\
  forall px py, inCanvas c px py = true ->
    canvasPixel (run_canvas (fst run)) px py = opaqueWhite.
Proof.
  intros Hw Hh Himg Hin. cbn zeta.
  assert (Hiw : id_width img = cv_width c /\ id_height img = cv_height c).
  { unfold getImageData in Himg.
    destruct ((cv_width c =? 0) || (cv_height c =? 0)); [discriminate |].
    injection Himg as <-. cbn [id_width id_height]. lia. }
  destruct Hiw as [Hiw Hih].
  destruct (detectWatermarks_one_block img ltac:(lia) ltac:(lia))
    as (Hdet & _ & Hx & Hy & Hsw & Hsh).
  rewrite Hdet in Hin. destruct (flagged (blockStats img 0 0)); [| contradiction].
  destruct Hin as [<- | []].
  destruct (inpaintSelection_whole_image random c O (blockSelection img 0 0)
              ltac:(unfold gridSize in *; lia) ltac:(unfold gridSize in *; lia) Hx Hy Hsw Hsh)
    as (c' & Hrun & _ & _ & Hwhite).
  unfold removeWatermark. cbn [processSelections run_canvas run_calls length].
  rewrite Hrun. destruct onProgress; cbn [fst snd run_canvas run_calls]; auto.
Qed.

Lemma detected_small_image_is_whitened_witness :
  snd (removeWatermark zeroRandom
         {| cv_width := 2; cv_height := 1; cv_pixel := fun _ _ => opaqueWhite |}
         [blockSelection whitePair 0 0] true) = None.
Proof.
  apply (detected_small_image_is_whitened zeroRandom
           {| cv_width := 2; cv_height := 1; cv_pixel := fun _ _ => opaqueWhite |}
           whitePair (blockSelection whitePair 0 0) true).
  - vm_compute. split; (reflexivity || discriminate).
  - vm_compute. split; (reflexivity || discriminate).
  - reflexivity.
  - vm_compute. left. reflexivity.
Defined.

(** * When a run ends *)

Lemma processSelections_outcome random onProgress total img rest :
  forall i st,
    cv_width (run_canvas st) = cv_width img -> cv_height (run_canvas st) = cv_height img ->
    snd (processSelections random onProgress total i rest st) = None <->
    Forall (coversPixels img) rest.
Proof.
  induction rest as [| s rest IH]; intros i st Hw Hh.
  - cbn. split; [constructor | reflexivity].
  - cbn [processSelections].
    destruct (pixels_same_size img (run_canvas st) s Hw Hh) as (HX & HY & HW & HH).
    unfold inpaintSelection.
    destruct (Z.eq_dec (pixelWidth img s) 0) as [Hw0 | Hw0];
      [| destruct (Z.eq_dec (pixelHeight img s) 0) as [Hh0 | Hh0]].
    + rewrite inpaintRegion_zero by (left; congruence). cbn [snd].
      split; [discriminate |]. intros Hall. inversion Hall as [| ? ? [Hc _] _]. contradiction.
    + rewrite inpaintRegion_zero by (right; congruence). cbn [snd].
      split; [discriminate |]. intros Hall. inversion Hall as [| ? ? [_ Hc] _]. contradiction.
    + destruct (inpaintRegion_calls random (run_canvas st) (run_calls st)
                  (pixelX (run_canvas st) s) (pixelY (run_canvas st) s)
                  (pixelWidth (run_canvas st) s) (pixelHeight (run_canvas st) s)
                  ltac:(congruence) ltac:(congruence)) as (c' & Hrun).
      pose proof (inpaintRegion_size random (run_canvas st) (run_calls st)
                  (pixelX (run_canvas st) s) (pixelY (run_canvas st) s)
                  (pixelWidth (run_canvas st) s) (pixelHeight (run_canvas st) s)) as [Hw' Hh'].
      rewrite Hrun in *. cbn [canvasAfter] in Hw', Hh'.
      rewrite IH by (cbn [run_canvas]; congruence).
      split; [intros Hall; constructor; [split |]; assumption |].
      intros Hall. now inversion Hall.
Qed.

(** X21. A run of [removeWatermark] gets through its loop without an
    exception exactly when every selection floors to a width and a height
    other than 0 on the image; otherwise the promise is rejected with the
    exception of [getImageData]. *)
Theorem run_ends_iff_all_cover random img selections onProgress :
  (snd (removeWatermark random img selections onProgress) = None <->
   Forall (coversPixels img) selections) /\
  (snd (removeWatermark random img selections onProgress) = Some IndexSizeError <->
   ~ Forall (coversPixels img) selections).
Proof.
  assert (H : snd (removeWatermark random img selections onProgress) = None <->
              Forall (coversPixels img) selections)
    by (unfold removeWatermark; now apply processSelections_outcome).
  split; [exact H |]. rewrite <- H.
  destruct (snd (removeWatermark random img selections onProgress)) as [[] |];
    split; congruence.
Qed.

Lemma significant_iff s :
  Preview.significant s = true <->
  (Preview.d0_01 < Double.fl (sel_width s) /\ Preview.d0_01 < Double.fl (sel_height s))%Q.
Proof. unfold Preview.significant. now rewrite andb_true_iff, !Qltb_lt. Qed.

(** A double above the double [0.01] holds a number above 1/100. *)
Lemma above_d0_01 q : (Preview.d0_01 < Double.fl q)%Q -> (1 # 100 < q)%Q.
Proof.
  intros H. apply Qnot_le_lt. intros Hle.
  pose proof (fl_mono q (1 # 100) Hle) as Hm. fold Preview.d0_01 in Hm. lra.
Qed.

Lemma significant_above s :
  Preview.significant s = true -> (1 # 100 < sel_width s /\ 1 # 100 < sel_height s)%Q.
Proof. intros H. apply significant_iff in H as [H1 H2]. split; now apply above_d0_01. Qed.

Lemma floor_of_hundredth (q : Q) n : (1 # 100 < q)%Q -> 100 <= n -> 1 <= floorTimes q n.
Proof.
  intros Hq Hn. unfold floorTimes. change 1 with (Qfloor 1). apply Qfloor_resp_le.
  assert (Hn' : (100 <= inject_Z n)%Q) by (unfold Qle; cbn; lia).
  pose proof (fl_mono (1 # 100) q ltac:(lra)) as Hm. fold Preview.d0_01 in Hm.
  pose proof d0_01_above as Hd.
  apply (fl_ge_double 1); [apply (isDouble_Z 1); lia | nra].
Qed.

(** X22. The test of [handleMouseUp] (width and height above the double
    0.01, hence above 1/100) is enough on an image of at least 100 x 100
    pixels: every selection whose width and height are above 1/100 covers at
    least one pixel, and a run over such selections is not rejected. *)
Theorem significant_selections_are_removed random img selections onProgress :
  100 <= cv_width img -> 100 <= cv_height img ->
  Forall (fun s => (1 # 100 < sel_width s /\ 1 # 100 < sel_height s)%Q) selections ->
  (forall s, Preview.significant s = true ->
     (1 # 100 < sel_width s /\ 1 # 100 < sel_height s)%Q) /\
  Forall (fun s => 1 <= pixelWidth img s /\ 1 <= pixelHeight img s) selections /\
  snd (removeWatermark random img selections onProgress) = None.
Proof.
  intros Hw Hh Hall. split; [exact significant_above |].
  assert (Hcov : Forall (fun s => 1 <= pixelWidth img s /\ 1 <= pixelHeight img s) selections).
  { eapply Forall_impl; [| exact Hall]. intros s [Hsw Hsh].
    unfold pixelWidth, pixelHeight. split; now apply floor_of_hundredth. }
  split; [exact Hcov |].
  unfold removeWatermark. apply (processSelections_outcome random onProgress _ img);
    [reflexivity | reflexivity |].
  eapply Forall_impl; [| exact Hcov]. intros s [H1 H2]. split; lia.
Qed.

Lemma significant_selections_are_removed_witness :
  snd (removeWatermark zeroRandom canvas100 [innerSelection; thinSelection] true) = None.
Proof.
  apply (significant_selections_are_removed zeroRandom canvas100
           [innerSelection; thinSelection] true).
  - discriminate.
  - discriminate.
  - repeat constructor.
Defined.

(** The slivers of the images 1 to 99 pixels wide, computed on doubles:
    each passes the test and floors to a width of 0. *)
Lemma slivers_pass_and_vanish w :
  0 < w < 100 ->
  Preview.significant (sliver w) = true /\ floorTimes (sel_width (sliver w)) w = 0.
Proof.
  intros Hw.
  assert (Hall : forallb
            (fun w => Preview.significant (sliver w) && (floorTimes (sel_width (sliver w)) w =? 0))
            (zrange 1 100) = true) by (vm_compute; reflexivity).
  rewrite forallb_forall in Hall.
  specialize (Hall w ltac:(apply in_zrange; lia)).
  apply andb_true_iff in Hall as [H1 H2]. apply Z.eqb_eq in H2. now split.
Qed.

(** X23. On an image less than 100 pixels wide the test of [handleMouseUp]
    is not enough: there is a selection that passes it, lies in the image
    and floors to a width of 0, and every run over selections that contain
    it is rejected. *)
Theorem small_image_defeats_the_test random img selections onProgress :
  0 < cv_width img < 100 ->
  In (sliver (cv_width img)) selections ->
  Preview.significant (sliver (cv_width img)) = true /\
  (0 <= sel_x (sliver (cv_width img)) /\
   sel_x (sliver (cv_width img)) + sel_width (sliver (cv_width img)) <= 1)%Q /\
  pixelWidth img (sliver (cv_width img)) = 0 /\
  snd (removeWatermark random img selections onProgress) = Some IndexSizeError.
Proof.
  intros Hw Hin. set (w := cv_width img) in *.
  assert (HwQ : (0 < inject_Z w < 100)%Q) by (unfold Qlt; cbn; lia).
  assert (Hinv : (1 # 100 < 1 / inject_Z w <= 1)%Q).
  { split.
    - apply Qlt_shift_div_l; [tauto |]. lra.
    - apply Qle_shift_div_r; [tauto |].
      assert (1 <= inject_Z w)%Q by (unfold Qle; cbn; lia). lra. }
  destruct (slivers_pass_and_vanish w Hw) as [Hsig Hpw0].
  assert (Hpw : pixelWidth img (sliver w) = 0) by exact Hpw0.
  split; [| split; [| split]].
  - exact Hsig.
  - unfold sliver. cbn [sel_x sel_width]. split; lra.
  - exact Hpw.
  - destruct (snd (removeWatermark random img selections onProgress)) as [[] |] eqn:Hrun;
      [reflexivity |].
    unfold removeWatermark in Hrun.
    apply (processSelections_outcome random onProgress _ img) in Hrun; [| reflexivity ..].
    pose proof (proj1 (Forall_forall _ _) Hrun _ Hin) as [Hc _]. contradiction.
Qed.

Lemma small_image_defeats_the_test_witness :
  pixelWidth canvas6 (sliver (cv_width canvas6)) = 0.
Proof.
  apply (small_image_defeats_the_test zeroRandom canvas6 [innerSelection; sliver 6] true).
  - cbn. lia.
  - right. left. reflexivity.
Defined.

(** * The store *)

Lemma filterIndexed_remove {A : Type} (l : list A) :
  forall from index,
    Store.filterIndexed (fun _ i => negb (i =? index)) from l =
    if (from <=? index) && (index <? from + Z.of_nat (length l))
    then firstn (Z.to_nat (index - from)) l ++ skipn (S (Z.to_nat (index - from))) l
    else l.
Proof.
  induction l as [| a l IH]; intros from index.
  - cbn [Store.filterIndexed]. rewrite firstn_nil, skipn_nil. now destruct (_ && _).
  - cbn [Store.filterIndexed]. rewrite IH. cbn [length]. rewrite Nat2Z.inj_succ.
    destruct (Z.eqb_spec from index) as [-> | Hne].
    + cbn [negb]. rewrite Z.sub_diag. cbn [Z.to_nat firstn skipn app].
      replace (index + 1 <=? index) with false by (symmetry; apply Z.leb_gt; lia).
      replace (index <=? index) with true by (symmetry; apply Z.leb_le; lia).
      replace (index <? index + Z.succ (Z.of_nat (length l))) with true
        by (symmetry; apply Z.ltb_lt; lia).
      reflexivity.
    + cbn [negb].
      destruct (Z.leb_spec (from + 1) index) as [Hle | Hgt].
      * replace (from <=? index) with true by (symmetry; apply Z.leb_le; lia).
        replace (index <? from + Z.succ (Z.of_nat (length l)))
          with (index <? from + 1 + Z.of_nat (length l)) by (f_equal; lia).
        cbn [andb]. destruct (index <? from + 1 + Z.of_nat (length l)); [| reflexivity].
        replace (Z.to_nat (index - from)) with (S (Z.to_nat (index - (from + 1)))) by lia.
        reflexivity.
      * replace (from <=? index) with false by (symmetry; apply Z.leb_gt; lia).
        reflexivity.
Qed.

(** X24. [removeSelection] deletes the selection at the index and keeps
    the others in their order; an index that is negative or not below the
    number of selections changes nothing.  Removing the index of a
    selection that was just added undoes [addSelection]. *)
Theorem removeSelection_deletes_one_index state index s :
  (0 <= index < Z.of_nat (length (Store.selections state)) ->
   Store.selections (Store.removeSelection index state) =
     firstn (Z.to_nat index) (Store.selections state) ++
     skipn (S (Z.to_nat index)) (Store.selections state) /\
   S (length (Store.selections (Store.removeSelection index state))) =
     length (Store.selections state)) /\
  (index < 0 \/ Z.of_nat (length (Store.selections state)) <= index ->
   Store.selections (Store.removeSelection index state) = Store.selections state) /\
  Store.selections
    (Store.removeSelection (Z.of_nat (length (Store.selections state)))
       (Store.addSelection s state)) = Store.selections state.
Proof.
  unfold Store.removeSelection, Store.addSelection. cbn [Store.selections Store.withSelections].
  rewrite !filterIndexed_remove, !Z.sub_0_r, !Z.add_0_l.
  split; [| split].
  - intros Hi.
    replace ((0 <=? index) && (index <? Z.of_nat (length (Store.selections state))))
      with true by (symmetry; apply andb_true_iff; split; [apply Z.leb_le | apply Z.ltb_lt]; lia).
    split; [reflexivity |].
    rewrite length_app, length_firstn, length_skipn. lia.
  - intros Hi.
    replace ((0 <=? index) && (index <? Z.of_nat (length (Store.selections state))))
      with false; [reflexivity |].
    symmetry. apply andb_false_iff.
    destruct Hi; [left; apply Z.leb_gt | right; apply Z.ltb_ge]; lia.
  - rewrite length_app. cbn [length]. rewrite Nat2Z.id.
    replace ((0 <=? Z.of_nat (length (Store.selections state))) &&
             (Z.of_nat (length (Store.selections state)) <?
              Z.of_nat (length (Store.selections state) + 1)))
      with true by (symmetry; apply andb_true_iff; split; [apply Z.leb_le | apply Z.ltb_lt]; lia).
    rewrite firstn_app, Nat.sub_diag, firstn_all. cbn [firstn].
    rewrite skipn_app, skipn_all2 by lia.
    replace (S (length (Store.selections state)) - length (Store.selections state))%nat
      with 1%nat by lia.
    cbn [skipn]. now rewrite !app_nil_r.
Qed.

Lemma removeSelection_deletes_one_index_witness :
  Store.selections (Store.removeSelection 0 storeWithImage) = [].
Proof.
  apply (removeSelection_deletes_one_index storeWithImage 0 innerSelection). cbn. lia.
Defined.

(** * The mouse handlers *)

Lemma handleAll_app events1 events2 st :
  Preview.handleAll (events1 ++ events2) st =
  Preview.handleAll events2 (Preview.handleAll events1 st).
Proof. unfold Preview.handleAll. apply fold_left_app. Qed.

(** While the button is held, moves replace the rubber band and nothing
    else. *)
Lemma moves_keep_drawing moves :
  forall st p,
    Preview.isDrawing st = true -> Preview.startPoint st = Some p ->
    let st' := Preview.handleAll (map (fun q => Preview.MouseMove (fst q) (snd q)) moves) st in
    Preview.isDrawing st' = true /\ Preview.startPoint st' = Some p /\
    Store.selections (Preview.store st') = Store.selections (Preview.store st) /\
    exists current,
      Preview.store st' = Store.setCurrentSelection current (Preview.store st).
Proof.
  induction moves as [| [x y] moves IH]; intros st p Hd Hp; cbn zeta.
  - cbn. repeat split; try assumption.
    exists (Store.currentSelection (Preview.store st)). now destruct (Preview.store st).
  - cbn [map Preview.handleAll fold_left Preview.handle fst snd].
    assert (E : Preview.handleMouseMove x y st =
                {| Preview.isDrawing := true; Preview.startPoint := Some p;
                   Preview.store :=
                     Store.setCurrentSelection
                       (Some (Preview.rubberBand p x y))
                       (Preview.store st) |})
      by (unfold Preview.handleMouseMove; rewrite Hd, Hp; reflexivity).
    rewrite E.
    match goal with
    | |- context [fold_left Preview.handle _ ?st1] =>
        destruct (IH st1 p eq_refl eq_refl) as (H1 & H2 & H3 & current & H4)
    end.
    unfold Preview.handleAll in H1, H2, H3, H4.
    split; [exact H1 |]. split; [exact H2 |]. split; [rewrite H3; reflexivity |].
    exists current. rewrite H4. reflexivity.
Qed.

Lemma Math_abs_opp a b : (a == - b)%Q -> (Preview.Math_abs a == Preview.Math_abs b)%Q.
Proof.
  intros E. unfold Preview.Math_abs.
  destruct (Num.Qltb a 0) eqn:E1, (Num.Qltb b 0) eqn:E2;
    try apply Qltb_lt in E1; try apply Qltb_lt in E2;
    try (apply not_true_iff_false in E1; rewrite Qltb_lt in E1);
    try (apply not_true_iff_false in E2; rewrite Qltb_lt in E2); lra.
Qed.

(** The rounded differences [a - b] and [b - a] have the same absolute
    value. *)
Lemma Math_abs_swap a b :
  (Preview.Math_abs (Double.fl (a - b)) == Preview.Math_abs (Double.fl (b - a)))%Q.
Proof.
  apply Math_abs_opp. rewrite <- fl_opp. apply fl_comp. ring.
Qed.

Lemma Math_min_swap a b : (Preview.Math_min a b == Preview.Math_min b a)%Q.
Proof.
  unfold Preview.Math_min.
  destruct (Num.Qltb b a) eqn:E1, (Num.Qltb a b) eqn:E2;
    try apply Qltb_lt in E1; try apply Qltb_lt in E2;
    try (apply not_true_iff_false in E1; rewrite Qltb_lt in E1);
    try (apply not_true_iff_false in E2; rewrite Qltb_lt in E2); lra.
Qed.

(** X25. A drag with the tool [select], that is a press at [(x0, y0)], any
    moves, a last move to [(x1, y1)] and a release, adds the one selection
    between the two points when it passes the test of [handleMouseUp] and
    none otherwise; the moves in between leave no trace, the component is
    at rest again, and the direction of the drag does not matter. *)
Theorem drag_adds_the_dragged_selection st x0 y0 moves x1 y1 :
  Store.toolMode (Preview.store st) = Store.select ->
  let d := Preview.dragged x0 y0 x1 y1 in
  let back := Preview.dragged x1 y1 x0 y0 in
  Preview.handleAll
    (Preview.MouseDown x0 y0 :: map (fun q => Preview.MouseMove (fst q) (snd q)) moves ++
     [Preview.MouseMove x1 y1; Preview.MouseUp]) st =
  {| Preview.isDrawing := false; Preview.startPoint := None;
     Preview.store :=
       Store.setCurrentSelection None
         (if Preview.significant d then Store.addSelection d (Preview.store st)
          else Preview.store st) |} /\
  (sel_x d == sel_x back /\ sel_y d == sel_y back /\
   sel_width d == sel_width back /\ sel_height d == sel_height back)%Q.
Proof.
  intros Htool. cbn zeta. split.
  - change (Preview.MouseDown x0 y0 :: ?l) with ([Preview.MouseDown x0 y0] ++ l).
    rewrite !handleAll_app.
    set (st1 := Preview.handleAll [Preview.MouseDown x0 y0] st).
    set (p0 := {| Preview.pt_x := Double.fl x0; Preview.pt_y := Double.fl y0 |}).
    assert (Hst1 : st1 = {| Preview.isDrawing := true; Preview.startPoint := Some p0;
                            Preview.store := Preview.store st |}).
    { unfold st1. cbn [Preview.handleAll fold_left Preview.handle].
      unfold Preview.handleMouseDown. now rewrite Htool. }
    destruct (moves_keep_drawing moves st1 p0)
      as (Hd & Hp & _ & current & Hstore); [now rewrite Hst1 | now rewrite Hst1 |].
    set (st2 := Preview.handleAll _ st1) in *.
    cbn [Preview.handleAll fold_left Preview.handle].
    unfold Preview.handleMouseMove. rewrite Hd, Hp.
    unfold Preview.handleMouseUp. cbn [Preview.isDrawing Preview.store].
    cbn [Store.currentSelection Store.setCurrentSelection].
    change (Preview.rubberBand p0 x1 y1) with (Preview.dragged x0 y0 x1 y1).
    rewrite Hstore, Hst1. cbn [Preview.store].
    destruct (Preview.significant (Preview.dragged x0 y0 x1 y1)); reflexivity.
  - unfold Preview.dragged, Preview.rubberBand.
    cbn [sel_x sel_y sel_width sel_height Preview.pt_x Preview.pt_y].
    repeat split; first [apply Math_min_swap | apply Math_abs_swap].
Qed.

Lemma drag_adds_the_dragged_selection_witness :
  Store.selections
    (Preview.store
       (Preview.handleAll
          (Preview.MouseDown (1 # 10) (1 # 10) ::
           map (fun q => Preview.MouseMove (fst q) (snd q)) [(1 # 5, 1 # 5)] ++
           [Preview.MouseMove (1 # 2) (1 # 2); Preview.MouseUp]) previewAtRest)) =
  [innerSelection; Preview.dragged (1 # 10) (1 # 10) (1 # 2) (1 # 2)].
Proof.
  destruct (drag_adds_the_dragged_selection previewAtRest (1 # 10) (1 # 10)
              [(1 # 5, 1 # 5)] (1 # 2) (1 # 2) eq_refl) as [H _].
  rewrite H. reflexivity.
Defined.

(** X26. A press and a release without a move in between leave the
    component drawing: [handleMouseUp] returns before it resets
    [isDrawing], because there is no current selection.  A move of the
    pointer with no button held then draws the rubber band from the point of
    the click, and the next click commits it. *)
Theorem click_leaves_drawing_on st ax ay cx cy dx dy :
  Store.toolMode (Preview.store st) = Store.select ->
  Store.currentSelection (Preview.store st) = None ->
  let d := Preview.dragged ax ay cx cy in
  Preview.handleAll [Preview.MouseDown ax ay; Preview.MouseUp] st =
    {| Preview.isDrawing := true;
       Preview.startPoint :=
         Some {| Preview.pt_x := Double.fl ax; Preview.pt_y := Double.fl ay |};
       Preview.store := Preview.store st |} /\
  Preview.handleAll
    [Preview.MouseDown ax ay; Preview.MouseUp; Preview.MouseMove cx cy;
     Preview.MouseDown dx dy; Preview.MouseUp] st =
  {| Preview.isDrawing := false; Preview.startPoint := None;
     Preview.store :=
       Store.setCurrentSelection None
         (if Preview.significant d then Store.addSelection d (Preview.store st)
          else Preview.store st) |}.
Proof.
  intros Htool Hcur. cbn zeta.
  set (a := {| Preview.pt_x := Double.fl ax; Preview.pt_y := Double.fl ay |}).
  set (st1 := {| Preview.isDrawing := true; Preview.startPoint := Some a;
                 Preview.store := Preview.store st |}).
  assert (E1 : Preview.handleMouseDown ax ay st = st1)
    by (unfold Preview.handleMouseDown; now rewrite Htool).
  assert (E2 : Preview.handleMouseUp st1 = st1)
    by (unfold Preview.handleMouseUp, st1; cbn [Preview.isDrawing Preview.store];
        now rewrite Hcur).
  cbn [Preview.handleAll fold_left Preview.handle]. rewrite E1, E2.
  split; [reflexivity |].
  set (st2 := Preview.handleMouseMove cx cy st1).
  assert (E3 : Preview.handleMouseDown dx dy st2 =
               {| Preview.isDrawing := true;
                  Preview.startPoint :=
                    Some {| Preview.pt_x := Double.fl dx; Preview.pt_y := Double.fl dy |};
                  Preview.store :=
                    Store.setCurrentSelection (Some (Preview.dragged ax ay cx cy))
                      (Preview.store st) |})
    by (unfold Preview.handleMouseDown, st2, Preview.handleMouseMove, st1;
        cbn [Preview.isDrawing Preview.startPoint Preview.store Store.toolMode
             Store.setCurrentSelection];
        now rewrite Htool).
  rewrite E3. unfold Preview.handleMouseUp.
  cbn [Preview.isDrawing Preview.store Store.currentSelection Store.setCurrentSelection].
  destruct (Preview.significant (Preview.dragged ax ay cx cy)); reflexivity.
Qed.

Lemma click_leaves_drawing_on_witness :
  Preview.isDrawing
    (Preview.handleAll [Preview.MouseDown (1 # 10) (1 # 10); Preview.MouseUp] previewAtRest) =
  true.
Proof.
  destruct (click_leaves_drawing_on previewAtRest (1 # 10) (1 # 10) (1 # 2) (1 # 2) 0 0
              eq_refl eq_refl) as [H _].
  rewrite H. reflexivity.
Defined.

(** X27. Whatever the events, the mouse handlers only append to the
    selections of the store: what they add is of type [manual] and passes
    the test of [handleMouseUp], there is at most one new selection for each
    release, and the media file, the tool and the processing status stay as
    they were. *)
Theorem mouse_adds_only_significant_manual events :
  forall st,
    (forall s, Store.currentSelection (Preview.store st) = Some s -> sel_type s = manual) ->
    let st' := Preview.handleAll events st in
    exists added,
      Store.selections (Preview.store st') = Store.selections (Preview.store st) ++ added /\
      Forall (fun s => sel_type s = manual /\ Preview.significant s = true) added /\
      Z.of_nat (length added) <= countIf Preview.isMouseUp events /\
      Store.mediaFile (Preview.store st') = Store.mediaFile (Preview.store st) /\
      Store.toolMode (Preview.store st') = Store.toolMode (Preview.store st) /\
      Store.processingStatus (Preview.store st') = Store.processingStatus (Preview.store st).
Proof.
  induction events as [| e events IH]; intros st Hcur; cbn zeta.
  - exists []. cbn [Preview.handleAll fold_left]. rewrite app_nil_r.
    split; [reflexivity |]. split; [constructor |]. split; [reflexivity |]. repeat split.
  - cbn [Preview.handleAll fold_left]. fold (Preview.handleAll events (Preview.handle st e)).
    rewrite countIf_cons.
    destruct e as [x y | x y |]; cbn [Preview.handle Preview.isMouseUp].
    + assert (E : Preview.store (Preview.handleMouseDown x y st) = Preview.store st)
        by (unfold Preview.handleMouseDown; now destruct (Store.toolMode (Preview.store st))).
      destruct (IH (Preview.handleMouseDown x y st)) as (added & H1 & H2 & H3 & H4 & H5 & H6);
        [now rewrite E |].
      rewrite E in *. exists added. repeat split; (assumption || lia).
    + assert (E : exists current,
                 Preview.store (Preview.handleMouseMove x y st) =
                   Store.setCurrentSelection current (Preview.store st) /\
                 forall s, current = Some s -> sel_type s = manual).
      { unfold Preview.handleMouseMove.
        destruct (Preview.isDrawing st); [destruct (Preview.startPoint st) as [p |] |].
        - eexists. split; [reflexivity |]. now intros s [= <-].
        - exists (Store.currentSelection (Preview.store st)).
          split; [now destruct (Preview.store st) | exact Hcur].
        - exists (Store.currentSelection (Preview.store st)).
          split; [now destruct (Preview.store st) | exact Hcur]. }
      destruct E as (current & E & Hman).
      destruct (IH (Preview.handleMouseMove x y st)) as (added & H1 & H2 & H3 & H4 & H5 & H6);
        [now rewrite E |].
      rewrite E in *. exists added. repeat split; (assumption || lia).
    + unfold Preview.handleMouseUp.
      destruct (Preview.isDrawing st) eqn:Hd;
        [destruct (Store.currentSelection (Preview.store st)) as [cur |] eqn:Hc |].
      * match goal with
        | |- context [Preview.handleAll events ?st1] =>
            destruct (IH st1) as (added & H1 & H2 & H3 & H4 & H5 & H6); [discriminate |]
        end.
        cbn [Preview.store] in *.
        destruct (Preview.significant cur) eqn:Hsig.
        -- exists (cur :: added). cbn [Store.selections Store.setCurrentSelection
             Store.addSelection Store.withSelections Store.mediaFile Store.toolMode
             Store.processingStatus] in *.
           rewrite H1, <- app_assoc. repeat split; try assumption.
           ++ constructor; [split; [now apply Hcur | exact Hsig] | exact H2].
           ++ cbn [length]. lia.
        -- exists added. cbn [Store.selections Store.setCurrentSelection
             Store.mediaFile Store.toolMode Store.processingStatus] in *.
           repeat split; (assumption || lia).
      * destruct (IH st) as (added & H1 & H2 & H3 & H4 & H5 & H6);
          [intros s Hs; congruence |].
        exists added. repeat split; (assumption || lia).
      * destruct (IH st Hcur) as (added & H1 & H2 & H3 & H4 & H5 & H6).
        exists added. repeat split; (assumption || lia).
Qed.

Lemma mouse_adds_only_significant_manual_witness :
  exists added,
    Store.selections
      (Preview.store
         (Preview.handleAll
            [Preview.MouseDown 0 0; Preview.MouseMove (1 # 2) (1 # 2); Preview.MouseUp]
            previewAtRest)) = [innerSelection] ++ added /\
    Forall (fun s => sel_type s = manual /\ Preview.significant s = true) added.
Proof.
  destruct (mouse_adds_only_significant_manual
              [Preview.MouseDown 0 0; Preview.MouseMove (1 # 2) (1 # 2); Preview.MouseUp]
              previewAtRest ltac:(discriminate)) as (added & H1 & H2 & _).
  exists added. split; [exact H1 | exact H2].
Defined.

(** * The handlers of WatermarkRemover *)

Lemma fold_progress reports :
  forall state,
    fold_left (fun s progress => Store.setProcessingStatus (Remover.progressOnly progress) s)
      reports state =
    Store.setProcessingStatus
      {| Store.set_isProcessing := None;
         Store.set_progress := match reports with [] => None | _ => Some (last reports 0%Q) end;
         Store.set_stage := None; Store.set_error := None |} state.
Proof.
  induction reports as [| p reports IH]; intros state.
  - cbn. now destruct state as [? ? ? ? ? ? [] ? ?].
  - cbn [fold_left]. rewrite IH. destruct reports as [| q reports]; reflexivity.
Qed.

Lemma removeWatermarkPromise_resolved random browser selections onProgress url :
  snd (Remover.removeWatermarkPromise random browser selections onProgress) =
    Remover.Resolved url <->
  exists img,
    Remover.decoded browser = Some img /\ Remover.context2d browser = true /\
    Forall (coversPixels img) selections /\ Remover.blob browser = Some url.
Proof.
  unfold Remover.removeWatermarkPromise.
  destruct (Remover.decoded browser) as [img |]; [| split; [discriminate | now intros (? & ? & _)]].
  destruct (Remover.context2d browser);
    [| split; [discriminate | now intros (? & _ & ? & _)]].
  pose proof (processSelections_outcome random onProgress
                (Z.of_nat (length selections)) img selections 0
                {| run_canvas := img; run_calls := O; run_progress := [] |} eq_refl eq_refl) as Hrun.
  fold (removeWatermark random img selections onProgress) in Hrun.
  destruct (removeWatermark random img selections onProgress) as [run [e |]]; cbn [snd] in *.
  - split; [discriminate |]. intros (img' & [= <-] & _ & Hall & _).
    apply Hrun in Hall. discriminate.
  - destruct (Remover.blob browser) as [u |].
    + split.
      * intros [= ->]. exists img. repeat split. now apply Hrun.
      * now intros (_ & _ & _ & _ & [= ->]).
    + split; [discriminate |]. now intros (_ & _ & _ & _ & ?).
Qed.

Lemma removeWatermarkPromise_settles random browser selections onProgress :
  snd (Remover.removeWatermarkPromise random browser selections onProgress) <> Remover.Pending.
Proof.
  unfold Remover.removeWatermarkPromise.
  destruct (Remover.decoded browser); [| discriminate].
  destruct (Remover.context2d browser); [| discriminate].
  destruct (removeWatermark _ _ _ _) as [run [e |]]; [discriminate |].
  cbn [snd]. destruct (Remover.blob browser); discriminate.
Qed.

(** X28. A click on the button that removes, with an image and at least
    one selection in the store, never leaves the application processing:
    either the image was decoded, every selection covers a pixel and the
    blob was made, and then the status is complete with a progress of 100,
    no error, and the new URL is stored; or the status is idle with the
    error of line 174 and the stored URL is the one from before.  The
    selections stay as they were. *)
Theorem removal_handler_completes_or_fails random browser state mediaFile :
  Store.mediaFile state = Some mediaFile ->
  Store.mf_type mediaFile = Store.image ->
  Store.selections state <> [] ->
  let after := Remover.handleRemoveWatermark random browser state in
  Store.isProcessing (Store.processingStatus after) = false /\
  Store.selections after = Store.selections state /\
  ((exists img url,
      Remover.decoded browser = Some img /\ Remover.context2d browser = true /\
      Forall (coversPixels img) (Store.selections state) /\ Remover.blob browser = Some url /\
      Store.processingStatus after =
        {| Store.isProcessing := false; Store.progress := 100; Store.stage := Store.complete;
           Store.error := None |} /\
      Store.processedMediaUrl after = Some url) \/
   (~ (exists img url,
         Remover.decoded browser = Some img /\ Remover.context2d browser = true /\
         Forall (coversPixels img) (Store.selections state) /\
         Remover.blob browser = Some url) /\
    Store.stage (Store.processingStatus after) = Store.idle /\
    Store.error (Store.processingStatus after) = Some Store.RemovalFailed /\
    Store.processedMediaUrl after = Store.processedMediaUrl state)).
Proof.
  intros Hmedia Htype Hsel. cbn zeta. unfold Remover.handleRemoveWatermark.
  rewrite Hmedia, Htype.
  destruct (Store.selections state) as [| s0 sels] eqn:Hs; [contradiction |].
  pose proof (removeWatermarkPromise_resolved random browser (s0 :: sels) true) as Hres.
  pose proof (removeWatermarkPromise_settles random browser (s0 :: sels) true) as Hset.
  destruct (Remover.removeWatermarkPromise random browser (s0 :: sels) true)
    as [reports promise].
  cbn [snd] in Hres, Hset. rewrite fold_progress.
  destruct promise as [url | reason |]; [| | contradiction].
  - destruct (proj1 (Hres url) eq_refl) as (img & H1 & H2 & H3 & H4).
    cbn. split; [reflexivity |]. split; [exact Hs |].
    left. exists img, url. repeat split; assumption.
  - cbn. split; [reflexivity |]. split; [exact Hs |].
    right. split; [| repeat split].
    intros (img & url & H).
    assert (Hex : exists img, Remover.decoded browser = Some img /\
                   Remover.context2d browser = true /\
                   Forall (coversPixels img) (s0 :: sels) /\ Remover.blob browser = Some url)
      by (exists img; exact H).
    apply (Hres url) in Hex. discriminate.
Qed.

Lemma removal_handler_completes_or_fails_witness :
  Store.isProcessing
    (Store.processingStatus (Remover.handleRemoveWatermark zeroRandom browser6 storeWithImage)) =
  false.
Proof.
  apply (removal_handler_completes_or_fails zeroRandom browser6 storeWithImage
           {| Store.mf_type := Store.image; Store.mf_url := Store.ObjectURL 0;
              Store.mf_width := 6; Store.mf_height := 6 |});
    [reflexivity | reflexivity | discriminate].
Defined.

(** X29. When the removal fails at a selection that floors to a width or a
    height of 0, the status that the handler leaves is idle with the error
    of line 174, and its progress is not reset: it is the share of the
    selections before the failing one, the double [m / N * 100]. *)
Theorem failed_removal_keeps_partial_progress random browser state mediaFile img before s rest :
  Store.mediaFile state = Some mediaFile ->
  Store.mf_type mediaFile = Store.image ->
  Remover.decoded browser = Some img -> Remover.context2d browser = true ->
  Store.selections state = before ++ s :: rest ->
  Forall (coversPixels img) before ->
  pixelWidth img s = 0 \/ pixelHeight img s = 0 ->
  let after := Store.processingStatus (Remover.handleRemoveWatermark random browser state) in
  Store.isProcessing after = false /\ Store.stage after = Store.idle /\
  Store.error after = Some Store.RemovalFailed /\
  (Store.progress after ==
   Double.fl
     (Double.fl (inject_Z (Z.of_nat (length before)) /
                 inject_Z (Z.of_nat (length (Store.selections state)))) * 100))%Q.
Proof.
  intros Hmedia Htype Hdec Hctx Hsel Hcov Hdeg. cbn zeta.
  unfold Remover.handleRemoveWatermark, Remover.removeWatermarkPromise.
  rewrite Hmedia, Htype, Hdec, Hctx, Hsel.
  destruct (removeWatermark_stops random img before s rest Hcov Hdeg)
    as (Hrej & _ & Hprog & _).
  destruct (before ++ s :: rest) as [| s0 sels] eqn:Hl; [now destruct before |].
  rewrite <- Hl in *. clear Hl s0 sels.
  destruct (removeWatermark random img (before ++ s :: rest) true) as [run outcome].
  cbn [fst snd] in Hrej, Hprog. subst outcome. rewrite fold_progress, Hprog.
  cbn [Store.setProcessingStatus Store.processingStatus Store.spread Remover.failed
       Remover.started Store.set_isProcessing Store.set_progress Store.set_stage Store.set_error
       Store.isProcessing Store.progress Store.stage Store.error].
  split; [reflexivity |]. split; [reflexivity |]. split; [reflexivity |].
  set (N := Z.of_nat (length (before ++ s :: rest))).
  unfold zrange. rewrite Z.sub_0_r, Nat2Z.id.
  destruct (length before) as [| m].
  - cbn [steps seq map Z.of_nat].
    assert (E0 : (inject_Z 0 / inject_Z N == 0)%Q) by (unfold Qdiv; apply Qmult_0_l).
    rewrite E0, (fl_zero 0), Qmult_0_l, (fl_zero 0); reflexivity.
  - destruct (map (fun i => progressValue i N) (steps 0 1 (S m))) as [| q l] eqn:E;
      [rewrite steps_succ in E; discriminate |].
    rewrite <- E, last_steps. unfold progressValue.
    now replace (0 + Z.of_nat m + 1) with (Z.of_nat (S m)) by lia.
Qed.

Lemma failed_removal_keeps_partial_progress_witness :
  (Store.progress (Store.processingStatus
     (Remover.handleRemoveWatermark zeroRandom browser6 storeMixed)) ==
   Double.fl (Double.fl (inject_Z 1 / inject_Z 2) * 100))%Q.
Proof.
  apply (failed_removal_keeps_partial_progress zeroRandom browser6 storeMixed
           {| Store.mf_type := Store.image; Store.mf_url := Store.ObjectURL 0;
              Store.mf_width := 6; Store.mf_height := 6 |}
           canvas6 [innerSelection] thinSelection []);
    try reflexivity.
  - repeat constructor; vm_compute; discriminate.
  - left. reflexivity.
Defined.

Lemma fold_addSelection found :
  forall state,
    fold_left (fun s sel => Store.addSelection sel s) found state =
    Store.withSelections (Store.selections state ++ found) state.
Proof.
  induction found as [| sel found IH]; intros state.
  - cbn. rewrite app_nil_r. now destruct state.
  - cbn [fold_left]. rewrite IH. unfold Store.addSelection.
    cbn [Store.withSelections Store.selections]. now rewrite <- app_assoc.
Qed.

(** X30. A click on the button that detects, with an image in the store
    that the browser decodes: the detections are appended to the selections
    of the store in the order of the scan, after those that were there and
    without looking for duplicates; the status is idle, with a progress of
    100 and no error when something was found, and with the error of line
    105 when nothing was.  When [getImageData] throws, which it does for an
    image of width or height 0, the promise is never settled and the
    application keeps processing. *)
Theorem auto_detect_appends_detections browser st mediaFile img :
  Store.mediaFile (Remover.store st) = Some mediaFile ->
  Store.mf_type mediaFile = Store.image ->
  Remover.decoded browser = Some img -> Remover.context2d browser = true ->
  let after := Remover.handleAutoDetect browser st in
  match getImageData img 0 0 (cv_width img) (cv_height img) with
  | inr imageData =>
      let found := detectWatermarks imageData in
      cv_width img <> 0 /\ cv_height img <> 0 /\
      Remover.autoDetecting after = false /\
      Store.selections (Remover.store after) = Store.selections (Remover.store st) ++ found /\
      Forall (fun s => sel_type s = auto) found /\
      Store.processingStatus (Remover.store after) =
        match found with
        | [] => {| Store.isProcessing := false; Store.progress := 0; Store.stage := Store.idle;
                   Store.error := Some Store.NothingDetected |}
        | _ :: _ => {| Store.isProcessing := false; Store.progress := 100;
                       Store.stage := Store.idle; Store.error := None |}
        end
  | inl _ =>
      (cv_width img = 0 \/ cv_height img = 0) /\
      Remover.autoDetecting after = true /\
      Store.processingStatus (Remover.store after) =
        {| Store.isProcessing := true; Store.progress := 0; Store.stage := Store.detecting;
           Store.error := None |}
  end.
Proof.
  intros Hmedia Htype Hdec Hctx. cbn zeta.
  unfold Remover.handleAutoDetect, Remover.detectWatermarksPromise.
  rewrite Hmedia, Hdec, Hctx. destruct mediaFile as [ty url w h]. cbn in Htype. subst ty.
  destruct (getImageData img 0 0 (cv_width img) (cv_height img)) as [e | imageData] eqn:Hget.
  - split; [| split; reflexivity].
    destruct (Z.eq_dec (cv_width img) 0) as [| Hw]; [now left |].
    destruct (Z.eq_dec (cv_height img) 0) as [| Hh]; [now right |].
    destruct (getImageData_ok img 0 0 (cv_width img) (cv_height img) Hw Hh) as (d & Hd & _).
    congruence.
  - assert (Hw : cv_width img <> 0).
    { intros E. rewrite getImageData_zero in Hget by (now left). discriminate. }
    assert (Hh : cv_height img <> 0).
    { intros E. rewrite getImageData_zero in Hget by (now right). discriminate. }
    split; [exact Hw |]. split; [exact Hh |].
    assert (Hauto : Forall (fun s => sel_type s = auto) (detectWatermarks imageData)).
    { apply Forall_forall. intros s Hin.
      apply detect_only_blocks in Hin as (x & y & _ & ->). reflexivity. }
    destruct (detectWatermarks imageData) as [| s0 found].
    + cbn. rewrite app_nil_r. repeat split. constructor.
    + rewrite fold_addSelection. cbn. repeat split. exact Hauto.
Qed.

Lemma auto_detect_appends_detections_witness :
  Remover.autoDetecting
    (Remover.handleAutoDetect browser6
       {| Remover.autoDetecting := false; Remover.store := storeWithImage |}) = false.
Proof.
  pose proof (auto_detect_appends_detections browser6
                {| Remover.autoDetecting := false; Remover.store := storeWithImage |}
                {| Store.mf_type := Store.image; Store.mf_url := Store.ObjectURL 0;
                   Store.mf_width := 6; Store.mf_height := 6 |}
                canvas6 eq_refl eq_refl eq_refl eq_refl) as H.
  cbn zeta in H.
  destruct (getImageData canvas6 0 0 (cv_width canvas6) (cv_height canvas6)) eqn:E;
    [discriminate E |].
  exact (proj1 (proj2 (proj2 H))).
Defined.
